(** * Prime-field arithmetic of the galois library: model and properties

    The development embeds the JavaScript engine of the library (class
    [PrimeField] with its helpers [fastFF], [zpoly] and [lastNonZeroIndex]).

    - a [bigint] is a [Z]; the operators [%] and [/] on bigints truncate
      towards zero, hence [Z.rem] and [Z.quot];
    - a [number] used as a length or an index is a [nat];
    - an array is a list of slots, a slot being [Some v] or [None] for a
      hole; reading a hole or past the end yields [undefined], writing past
      the end extends the array;
    - a [throw], and the [TypeError] the engine raises when [undefined]
      meets a bigint operator, are results [Throw e];
    - [while] loops run on fuel; running out of fuel is the separate
      result [Throw OutOfFuel], which no JavaScript run produces.  *)

From Stdlib Require Import ZArith Znumtheory Zmod Lia List Bool Finite.
From Stdlib Require String DecimalString.
Import ListNotations.
Import String.StringSyntax.
Local Open Scope string_scope.

Abbreviation string := String.string.

Local Open Scope Z_scope.

(** ** Results of a call *)

Inductive exn : Type :=
| TypeError (msg : string)
| RangeError (msg : string)
| Error (msg : string)
| OutOfFuel.

Inductive res (A : Type) : Type :=
| Ok (a : A)
| Throw (e : exn).

Arguments Ok {A} a.
Arguments Throw {A} e.

Definition bind {A B : Type} (m : res A) (k : A -> res B) : res B :=
  match m with
  | Ok a => k a
  | Throw e => Throw e
  end.

Notation "x <- m ;; k" := (bind m (fun x => k))
  (at level 61, m at next level, right associativity).

Definition raises {A : Type} (m : res A) : Prop := exists e, m = Throw e.

(** The engine's own errors.  Their message is the one V8 prints; no
    statement below depends on it. *)
Definition mixed_types : exn :=
  TypeError "Cannot mix BigInt and other types, use explicit conversions".
Definition undefined_property : exn :=
  TypeError "Cannot read properties of undefined".
Definition invalid_length : exn := RangeError "Invalid array length".

(** ** Arrays *)

Abbreviation arr A := (list (option A)).

(** A vector or a polynomial; a matrix is an array of rows. *)
Abbreviation array := (arr Z).
Abbreviation matrix := (arr array).

(** [new Array(n)]: [n] holes. *)
Definition new_Array {A : Type} (n : nat) : arr A := repeat None n.

(** An array literal, or an argument of type [bigint[]]. *)
Definition of_list {A : Type} (l : list A) : arr A := map Some l.

(** [a[i]]: [None] stands for [undefined]. *)
Definition get {A : Type} (a : arr A) (i : nat) : option A := nth i a None.

(** [a[i] = o] for a value [o] that may be [undefined]: an index past the
    end extends the array with holes. *)
Fixpoint set_slot {A : Type} (a : arr A) (i : nat) (o : option A) : arr A :=
  match a, i with
  | [], O => [o]
  | [], S i' => None :: set_slot [] i' o
  | _ :: t, O => o :: t
  | h :: t, S i' => h :: set_slot t i' o
  end.

(** [a[i] = v]. *)
Definition set {A : Type} (a : arr A) (i : nat) (v : A) : arr A :=
  set_slot a i (Some v).

(** [a[i]] where [a[i]] is about to be indexed or asked its length. *)
Definition row {A : Type} (a : arr (arr A)) (i : nat) : res (arr A) :=
  match get a i with
  | Some r => Ok r
  | None => Throw undefined_property
  end.

(** A slot used as operand of a bigint operator. *)
Definition operand (o : option Z) : res Z :=
  match o with
  | Some v => Ok v
  | None => Throw mixed_types
  end.

(** [a[i]] used as operand of a bigint operator. *)
Definition rd (a : array) (i : nat) : res Z := operand (get a i).

(** [v || 1n]: [undefined] and [0n] are falsy. *)
Definition or_one (o : option Z) : Z :=
  match o with
  | Some v => if v =? 0 then 1 else v
  | None => 1
  end.

(** Truthiness of a slot. *)
Definition truthy (o : option Z) : bool :=
  match o with
  | Some v => negb (v =? 0)
  | None => false
  end.

(** ** Loops with a counter *)

(** [for (let i = lo; i < lo + count; i++) s = body(i, s)]. *)
Fixpoint for_up {S : Type} (count lo : nat) (body : nat -> S -> res S)
  (s : S) : res S :=
  match count with
  | O => Ok s
  | Datatypes.S c => s' <- body lo s ;; for_up c (Datatypes.S lo) body s'
  end.

(** [for (let i = n - 1; i >= 0; i--) s = body(i, s)]. *)
Fixpoint for_down {S : Type} (n : nat) (body : nat -> S -> res S)
  (s : S) : res S :=
  match n with
  | O => Ok s
  | Datatypes.S i => s' <- body i s ;; for_down i body s'
  end.

(** Modelled from the spec: [isPowerOf2] is imported from [./utils], which
    is not among the sources.  The spec only says that a domain length
    "must be a power of two"; zero is not one. *)
Definition isPowerOf2 (n : nat) : bool :=
  (0 <? n)%nat && (Nat.land n (n - 1) =? 0)%nat.

(** ** The constructor *)

(** The loop of the constructor, on its local copy of the modulus:
    [while (modulus != 1n) { modulus = modulus >> 1n; bitWidth++; }]. *)
Fixpoint bitWidth_loop (fuel : nat) (modulus : Z) (bitWidth : nat)
  : res nat :=
  if modulus =? 1 then Ok bitWidth
  else
    match fuel with
    | O => Throw OutOfFuel
    | S fuel' => bitWidth_loop fuel' (Z.shiftr modulus 1) (S bitWidth)
    end.

(** The field [elementSize] the constructor computes:
    [Math.ceil(bitWidth / 8)], the quotient being exact in a [number].
    The loop shifts once per binary digit after the first. *)
Definition elementSize (modulus : Z) : res nat :=
  bitWidth <- bitWidth_loop (Z.to_nat (Z.log2 modulus)) modulus 1 ;;
  Ok ((bitWidth + 7) / 8)%nat.

(** ** The field *)

Section PrimeField.

Variable modulus : Z.

(** *** Basic arithmetic *)

Definition mod_ (value : Z) : Z :=
  if value >=? 0
  then Z.rem value modulus
  else Z.rem (Z.rem value modulus + modulus) modulus.

Definition add (x y : Z) : Z := mod_ (x + y).

Definition sub (x y : Z) : Z := mod_ (x - y).

Definition mul (x y : Z) : Z := mod_ (x * y).

(** The loop of [inv]: [while (low > 1n) { ... }], then [lm]. *)
Fixpoint inv_loop (fuel : nat) (lm hm low high : Z) : res Z :=
  if low >? 1 then
    match fuel with
    | O => Throw OutOfFuel
    | S fuel' =>
        let r := Z.quot high low in
        let nm := hm - lm * r in
        let nw := high - low * r in
        inv_loop fuel' nm lm nw low
    end
  else Ok lm.

(** Each turn of the loop at least halves [high * low], which starts below
    [modulus * modulus]. *)
Definition inv_fuel : nat := Z.to_nat (2 * (Z.log2 modulus + 1)).

Definition inv (a : Z) : res Z :=
  if a =? 0 then Ok a
  else
    lm <- inv_loop inv_fuel 1 0 (mod_ a) modulus ;;
    Ok (mod_ lm).

Definition div (x y : Z) : res Z :=
  iy <- inv y ;; Ok (mul x iy).

(** The loop of [exp]: [while (exponent > 0n) { ... }], then [result]. *)
Fixpoint exp_loop (fuel : nat) (base exponent result : Z) : res Z :=
  if exponent >? 0 then
    match fuel with
    | O => Throw OutOfFuel
    | S fuel' =>
        if base =? 0 then Ok 0
        else
          let result :=
            if Z.rem exponent 2 =? 0 then result else mul result base in
          exp_loop fuel' (mul base base) (Z.quot exponent 2) result
    end
  else Ok result.

(** The loop halves the exponent: one turn per binary digit. *)
Definition exp_fuel (exponent : Z) : nat := S (Z.to_nat (Z.log2 exponent)).

Definition exp (base exponent : Z) : res Z :=
  let base := mod_ base in
  if (base =? 0) && (exponent =? 0)
  then Throw (TypeError "Base and exponent cannot be both 0")
  else
    be <- (if exponent <? 0
           then b <- inv base ;; Ok (b, - exponent)
           else Ok (base, exponent)) ;;
    exp_loop (exp_fuel (snd be)) (fst be) (snd be) 1.

(** *** Vector operations *)

(** An [ArithmeticOperation] applied to two slots.  [add], [sub], [mul]
    and [div] raise on [undefined]; in [exp] an [undefined] exponent fails
    every comparison, so the call returns [1n]. *)
Definition ArithmeticOperation : Type := option Z -> option Z -> res Z.

Definition op_add : ArithmeticOperation :=
  fun a b => x <- operand a ;; y <- operand b ;; Ok (add x y).

Definition op_sub : ArithmeticOperation :=
  fun a b => x <- operand a ;; y <- operand b ;; Ok (sub x y).

Definition op_mul : ArithmeticOperation :=
  fun a b => x <- operand a ;; y <- operand b ;; Ok (mul x y).

Definition op_div : ArithmeticOperation :=
  fun a b => y <- operand b ;; iy <- inv y ;; x <- operand a ;; Ok (mul x iy).

Definition op_exp : ArithmeticOperation :=
  fun a b =>
    x <- operand a ;;
    match b with
    | Some e => exp x e
    | None => Ok 1
    end.

Definition vectorElementsOp (op : ArithmeticOperation) (a b : array)
  : res array :=
  for_up (length a) 0
    (fun i result => v <- op (get a i) (get b i) ;; Ok (set result i v))
    (new_Array (length a)).

Definition vectorScalarOp (op : ArithmeticOperation) (a : array) (b : Z)
  : res array :=
  for_up (length a) 0
    (fun i result => v <- op (get a i) (Some b) ;; Ok (set result i v))
    (new_Array (length a)).

(** The second argument of the elementwise operations: [bigint | Vector]. *)
Inductive scalar_or_vector : Type :=
| Scalar (b : Z)
| Vector (b : array).

Definition addVectorElements (a : array) (b : scalar_or_vector) : res array :=
  match b with
  | Scalar b => vectorScalarOp op_add a b
  | Vector b => vectorElementsOp op_add a b
  end.

Definition subVectorElements (a : array) (b : scalar_or_vector) : res array :=
  match b with
  | Scalar b => vectorScalarOp op_sub a b
  | Vector b => vectorElementsOp op_sub a b
  end.

Definition mulVectorElements (a : array) (b : scalar_or_vector) : res array :=
  match b with
  | Scalar b => vectorScalarOp op_mul a b
  | Vector b => vectorElementsOp op_mul a b
  end.

Definition divVectorElements (a : array) (b : scalar_or_vector) : res array :=
  match b with
  | Scalar b => ib <- inv b ;; vectorScalarOp op_mul a ib
  | Vector b => vectorElementsOp op_div a b
  end.

Definition expVectorElements (a : array) (b : scalar_or_vector) : res array :=
  match b with
  | Scalar b => vectorScalarOp op_exp a b
  | Vector b => vectorElementsOp op_exp a b
  end.

Definition invVectorElements (values : array) : res array :=
  let n := length values in
  s1 <- for_up n 0
          (fun i s =>
             let last := snd s in
             Ok (set (fst s) i last, mod_ (last * or_one (get values i))))
          (new_Array n, 1) ;;
  inv0 <- inv (snd s1) ;;
  s2 <- for_down n
          (fun i s =>
             let inv := snd s in
             v <- (if truthy (get values i)
                   then r <- rd (fst s) i ;; Ok (r * inv)
                   else Ok 0) ;;
             Ok (set (fst s) i (mod_ v), mul inv (or_one (get values i))))
          (fst s1, inv0) ;;
  Ok (fst s2).

Definition combineVectors (a b : array) : res Z :=
  for_up (length a) 0
    (fun i result =>
       x <- rd a i ;; y <- rd b i ;; Ok (mod_ (result + x * y)))
    0.

(** *** Matrix operations *)

Definition mulMatrixes (a b : matrix) : res matrix :=
  let n := length a in
  a0 <- row a 0 ;;
  let m := length a0 in
  b0 <- row b 0 ;;
  let p := length b0 in
  for_up n 0
    (fun i result =>
       r <- for_up p 0
              (fun j r =>
                 s <- for_up m 0
                        (fun k s =>
                           ai <- row a i ;;
                           bk <- row b k ;;
                           x <- rd ai k ;;
                           y <- rd bk j ;;
                           Ok (add s (mul x y)))
                        0 ;;
                 Ok (set r j s))
              (new_Array p) ;;
       Ok (set result i r))
    (new_Array n).

(** *** Batch operations *)

Definition getPowerSeries (seed : Z) (length : nat) : res array :=
  let powers := set (new_Array length) 0 1 in
  for_up (length - 1) 1
    (fun i powers =>
       prev <- rd powers (i - 1) ;; Ok (set powers i (mul prev seed)))
    powers.

(** *** Roots of unity *)

Definition string_of_nat (n : nat) : string :=
  DecimalString.NilEmpty.string_of_uint (Nat.to_uint n).

(** The loop of [getRootOfUnity]: [for (let i = 2n; i < modulus; i++)]. *)
Fixpoint root_search (fuel : nat) (order : nat) (i : Z) : res Z :=
  let bigOrder := Z.of_nat order in
  if i <? modulus then
    match fuel with
    | O => Throw OutOfFuel
    | S fuel' =>
        g <- exp i (Z.quot (modulus - 1) bigOrder) ;;
        e1 <- exp g bigOrder ;;
        if e1 =? 1 then
          e2 <- exp g (Z.quot bigOrder 2) ;;
          if negb (e2 =? 1) then Ok g
          else root_search fuel' order (i + 1)
        else root_search fuel' order (i + 1)
    end
  else
    Throw (Error (String.append "Root of Unity for order "
                    (String.append (string_of_nat order) " was not found"))).

Definition getRootOfUnity (order : nat) : res Z :=
  if negb (isPowerOf2 order) then Throw (Error "Order of unity must be 2^n")
  else root_search (Z.to_nat (modulus - 2)) order 2.

(** The loop of [getPowerCycle]: [while (value !== 1n)]. *)
Fixpoint cycle_loop (fuel : nat) (rootOfUnity value : Z) (result : array)
  : res array :=
  if value =? 1 then Ok result
  else
    match fuel with
    | O => Throw OutOfFuel
    | S fuel' =>
        cycle_loop fuel' rootOfUnity (mul value rootOfUnity)
          (result ++ [Some value])
    end.

(** After its first turn the loop walks through reduced values, of which
    there are [modulus]. *)
Definition getPowerCycle (rootOfUnity : Z) : res array :=
  cycle_loop (S (Z.to_nat modulus)) rootOfUnity rootOfUnity [Some 1].

(** *** Polynomials *)

(** [lastNonZeroIndex]: the search from index [n - 1] down; [None] is the
    [undefined] of a loop that finds nothing. *)
Fixpoint lastNonZeroIndex_below (values : array) (n : nat) : option nat :=
  match n with
  | O => None
  | S i =>
      match get values i with
      | Some 0 => lastNonZeroIndex_below values i
      | _ => Some i
      end
  end.

Definition lastNonZeroIndex (values : array) : option nat :=
  lastNonZeroIndex_below values (length values).

(** In the loop of [divPolys] the three counters move together:
    [apos = bpos + diff] and [p = diff]. *)
Definition divPolys (a b : array) : res array :=
  if (length a <? length b)%nat
  then Throw (Error "Cannot divide by polynomial of higher order")
  else
    match lastNonZeroIndex a, lastNonZeroIndex b with
    | Some apos, Some bpos =>
        if (apos + 1 <? bpos)%nat then Throw invalid_length
        else
          let count := (apos + 1 - bpos)%nat in
          s <- for_down count
                 (fun diff s =>
                    let a := fst s in
                    y <- rd b bpos ;;
                    iy <- inv y ;;
                    x <- rd a (bpos + diff) ;;
                    let quot := mul x iy in
                    a <- for_down (S bpos)
                           (fun i a =>
                              ai <- rd a (diff + i) ;;
                              bi <- rd b i ;;
                              Ok (set a (diff + i) (mod_ (ai - bi * quot))))
                           a ;;
                    Ok (a, set (snd s) diff quot))
                 (a, new_Array count) ;;
          Ok (snd s)
    | _, _ => Throw invalid_length
    end.

(** The loop of the [default] case of [evalPolyAt]. *)
Definition evalPolyAt_loop (p : array) (x : Z) : res Z :=
  s <- for_up (length p) 0
         (fun i s =>
            pi <- rd p i ;;
            Ok (mod_ (fst s + pi * snd s), mul (snd s) x))
         (0, 1) ;;
  Ok (fst s).

(** [evalPolyAt]; a polynomial of length one is returned as its slot. *)
Definition evalPolyAt (p : array) (x : Z) : res (option Z) :=
  match length p with
  | 0%nat => Ok (Some 0)
  | 1%nat => Ok (get p 0)
  | 2%nat =>
      p0 <- rd p 0 ;; p1 <- rd p 1 ;;
      Ok (Some (mod_ (p0 + p1 * x)))
  | 3%nat =>
      p0 <- rd p 0 ;; p1 <- rd p 1 ;; p2 <- rd p 2 ;;
      Ok (Some (mod_ (p0 + p1 * x + p2 * x * x)))
  | 4%nat =>
      let x2 := x * x in
      let x3 := x2 * x in
      p0 <- rd p 0 ;; p1 <- rd p 1 ;; p2 <- rd p 2 ;; p3 <- rd p 3 ;;
      Ok (Some (mod_ (p0 + p1 * x + p2 * x2 + p3 * x3)))
  | 5%nat =>
      let x2 := x * x in
      let x3 := x2 * x in
      p0 <- rd p 0 ;; p1 <- rd p 1 ;; p2 <- rd p 2 ;; p3 <- rd p 3 ;;
      p4 <- rd p 4 ;;
      Ok (Some (mod_ (p0 + p1 * x + p2 * x2 + p3 * x3 + p4 * x3 * x)))
  | _ => y <- evalPolyAt_loop p x ;; Ok (Some y)
  end.

(** [fastFF].  [step] is [1 << depth]; the lengths are halved by integer
    division, which is exact on the power-of-two lengths the two callers
    let through. *)
Fixpoint fastFF (fuel : nat) (values roots : array) (depth offset : nat)
  : res array :=
  let step := (2 ^ depth)%nat in
  let resultLength := (length roots / step)%nat in
  if (resultLength <=? 4)%nat then
    for_up 4 0
      (fun i result =>
         v0 <- rd values offset ;;
         r0 <- rd roots 0 ;;
         v1 <- rd values (offset + step) ;;
         r1 <- rd roots (i * step) ;;
         v2 <- rd values (offset + 2 * step) ;;
         r2 <- rd roots ((i * 2) mod 4 * step) ;;
         v3 <- rd values (offset + 3 * step) ;;
         r3 <- rd roots ((i * 3) mod 4 * step) ;;
         Ok (set result i (mod_ (v0 * r0 + v1 * r1 + v2 * r2 + v3 * r3))))
      (new_Array 4)
  else
    match fuel with
    | O => Throw OutOfFuel
    | S fuel' =>
        even <- fastFF fuel' values roots (depth + 1) offset ;;
        odd <- fastFF fuel' values roots (depth + 1) (offset + step) ;;
        let halfLength := (resultLength / 2)%nat in
        for_up halfLength 0
          (fun i result =>
             y <- rd odd i ;;
             r <- rd roots (i * step) ;;
             let yTimesRoot := y * r in
             x <- rd even i ;;
             let result := set result i (add x yTimesRoot) in
             Ok (set result (i + halfLength) (sub x yTimesRoot)))
          (new_Array resultLength)
    end.

(** The recursion depth of [fastFF] stays below the binary logarithm of
    the number of roots. *)
Definition fastFF_fuel (roots : array) : nat := Nat.log2 (length roots).

Definition evalPolyAtRoots (p rootsOfUnity : array) : res array :=
  if (length rootsOfUnity <? length p)%nat
  then Throw (Error
         "Number of roots of unity cannot be smaller than number of values")
  else if negb (isPowerOf2 (length rootsOfUnity))
  then Throw (Error "Number of roots of unity must be 2^n")
  else
    values <-
      (if (length p <? length rootsOfUnity)%nat
       then
         values <- for_up (length p) 0
                     (fun i values => Ok (set_slot values i (get p i)))
                     (new_Array (length rootsOfUnity)) ;;
         for_up (length values - length p) (length p)
           (fun i values => Ok (set values i 0))
           values
       else Ok p) ;;
    fastFF (fastFF_fuel rootsOfUnity) values rootsOfUnity 0 0.

(** [zpoly]: in turn [i] the counter [p] is [xs.length - 1 - i]. *)
Definition zpoly (xs : array) : res array :=
  let k := length xs in
  for_up k 0
    (fun i result =>
       let p := (k - 1 - i)%nat in
       let result := set result p 0 in
       for_up (k - p) p
         (fun j result =>
            rj <- rd result j ;;
            rj1 <- rd result (j + 1) ;;
            xi <- rd xs i ;;
            Ok (set result j (mod_ (rj - rj1 * xi))))
         result)
    (set (new_Array (k + 1)) k 1).

Definition interpolate (xs ys : array) : res array :=
  if negb (length xs =? length ys)%nat
  then Throw (Error
    "Number of x coordinates must be the same as number of y coordinates")
  else
    root <- zpoly xs ;;
    numerators <-
      for_up (length xs) 0
        (fun i (numerators : arr array) =>
           xi <- rd xs i ;;
           q <- divPolys root (of_list [- xi; 1]) ;;
           Ok (set numerators i q))
        (new_Array (length xs)) ;;
    denominators <-
      for_up (length xs) 0
        (fun i denominators =>
           num <- row numerators i ;;
           xi <- rd xs i ;;
           d <- evalPolyAt num xi ;;
           Ok (set_slot denominators i d))
        (new_Array (length xs)) ;;
    invertedDenominators <- invVectorElements denominators ;;
    for_up (length xs) 0
      (fun i result =>
         yi <- rd ys i ;;
         di <- rd invertedDenominators i ;;
         let ySlice := mod_ (yi * di) in
         for_up (length ys) 0
           (fun j result =>
              num <- row numerators i ;;
              if truthy (get num j) && truthy (get ys i) then
                rj <- rd result j ;;
                nj <- rd num j ;;
                Ok (set result j (mod_ (rj + nj * ySlice)))
              else Ok result)
           result)
      (repeat (Some 0) (length ys)).

(** In the loop that reverses the roots, [j = rootsOfUnity.length - i]. *)
Definition interpolateRoots (rootsOfUnity ys : array) : res array :=
  if negb (length rootsOfUnity =? length ys)%nat
  then Throw (Error
    "Number of roots of unity must be the same as number of y coordinates")
  else if negb (isPowerOf2 (length rootsOfUnity))
  then Throw (Error "Number of roots of unity must be 2^n")
  else
    invlen <- exp (Z.of_nat (length ys)) (modulus - 2) ;;
    let n := length rootsOfUnity in
    let reversedRoots := set (new_Array n) 0 1 in
    reversedRoots <-
      for_down (n - 1)
        (fun i' reversedRoots =>
           let i := S i' in
           Ok (set_slot reversedRoots (n - i) (get rootsOfUnity i)))
        reversedRoots ;;
    result <- fastFF (fastFF_fuel reversedRoots) ys reversedRoots 0 0 ;;
    for_up (length result) 0
      (fun i result =>
         ri <- rd result i ;; Ok (set result i (mod_ (ri * invlen))))
      result.

(** *** Matrix operations, continued *)

(** [result[i] = new Array(r1.length)] needs the row [a[i]]; the row
    [b[i]] is needed when a cell of it is read. *)
Definition matrixElementsOp (op : ArithmeticOperation) (a b : matrix)
  : res matrix :=
  for_up (length a) 0
    (fun i result =>
       r1 <- row a i ;;
       r <- for_up (length r1) 0
              (fun j r =>
                 r2 <- row b i ;;
                 v <- op (get r1 j) (get r2 j) ;;
                 Ok (set r j v))
              (new_Array (length r1)) ;;
       Ok (set result i r))
    (new_Array (length a)).

Definition matrixScalarOp (op : ArithmeticOperation) (a : matrix) (b : Z)
  : res matrix :=
  for_up (length a) 0
    (fun i result =>
       ai <- row a i ;;
       r <- for_up (length ai) 0
              (fun j r =>
                 v <- op (get ai j) (Some b) ;;
                 Ok (set r j v))
              (new_Array (length ai)) ;;
       Ok (set result i r))
    (new_Array (length a)).

(** The second argument of the elementwise operations: [bigint | Matrix]. *)
Inductive scalar_or_matrix : Type :=
| MScalar (b : Z)
| Matrix (b : matrix).

Definition addMatrixElements (a : matrix) (b : scalar_or_matrix)
  : res matrix :=
  match b with
  | MScalar b => matrixScalarOp op_add a b
  | Matrix b => matrixElementsOp op_add a b
  end.

Definition subMatrixElements (a : matrix) (b : scalar_or_matrix)
  : res matrix :=
  match b with
  | MScalar b => matrixScalarOp op_sub a b
  | Matrix b => matrixElementsOp op_sub a b
  end.

Definition mulMatrixElements (a : matrix) (b : scalar_or_matrix)
  : res matrix :=
  match b with
  | MScalar b => matrixScalarOp op_mul a b
  | Matrix b => matrixElementsOp op_mul a b
  end.

Definition divMatrixElements (a : matrix) (b : scalar_or_matrix)
  : res matrix :=
  match b with
  | MScalar b => ib <- inv b ;; matrixScalarOp op_mul a ib
  | Matrix b => matrixElementsOp op_div a b
  end.

Definition expMatrixElements (a : matrix) (b : scalar_or_matrix)
  : res matrix :=
  match b with
  | MScalar b => matrixScalarOp op_exp a b
  | Matrix b => matrixElementsOp op_exp a b
  end.

(** [invMatrixElements].  The state of the loops is the result and the
    running product [last], then the result and the running inverse
    [inv]; [rRow] is the row [result[i]], written back when it is
    complete. *)
Definition invMatrixElements (source : matrix) : res matrix :=
  let n := length source in
  s1 <- for_up n 0
          (fun i s =>
             sRow <- row source i ;;
             t <- for_up (length sRow) 0
                    (fun j t =>
                       let last := snd t in
                       Ok (set (fst t) j last,
                           mod_ (last * or_one (get sRow j))))
                    (new_Array (length sRow), snd s) ;;
             Ok (set (fst s) i (fst t), snd t))
          (new_Array n, 1) ;;
  inv0 <- inv (snd s1) ;;
  s2 <- for_down n
          (fun i s =>
             sRow <- row source i ;;
             rRow <- row (fst s) i ;;
             t <- for_down (length sRow)
                    (fun j t =>
                       let inv := snd t in
                       v <- (if truthy (get sRow j)
                             then x <- rd sRow j ;; Ok (x * inv)
                             else Ok 0) ;;
                       Ok (set (fst t) j (mod_ v),
                           mul inv (or_one (get sRow j))))
                    (rRow, snd s) ;;
             Ok (set (fst s) i (fst t), snd t))
          (fst s1, inv0) ;;
  Ok (fst s2).

(** [mulMatrixByVector]: the row [m[i]] is needed when a cell of it is
    read. *)
Definition mulMatrixByVector (m : matrix) (v : array) : res array :=
  for_up (length m) 0
    (fun i result =>
       s <- for_up (length v) 0
              (fun j s =>
                 r <- row m i ;;
                 x <- rd r j ;;
                 y <- rd v j ;;
                 Ok (add s (mul x y)))
              0 ;;
       Ok (set result i s))
    (new_Array (length m)).

(** *** Polynomials, continued *)

(** [i < a.length ? a[i] : 0n], used as an operand. *)
Definition coefficient (a : array) (i : nat) : res Z :=
  if (i <? length a)%nat then rd a i else Ok 0.

Definition addPolys (a b : array) : res array :=
  let n := Nat.max (length a) (length b) in
  for_up n 0
    (fun i result =>
       coefficientA <- coefficient a i ;;
       coefficientB <- coefficient b i ;;
       Ok (set result i (mod_ (coefficientA + coefficientB))))
    (new_Array n).

Definition subPolys (a b : array) : res array :=
  let n := Nat.max (length a) (length b) in
  for_up n 0
    (fun i result =>
       coefficientA <- coefficient a i ;;
       coefficientB <- coefficient b i ;;
       Ok (set result i (mod_ (coefficientA - coefficientB))))
    (new_Array n).

(** [mulPolys]: [new Array(a.length + b.length - 1)] raises a
    [RangeError] when both operands are empty. *)
Definition mulPolys (a b : array) : res array :=
  if (length a + length b =? 0)%nat then Throw invalid_length
  else
    for_up (length a) 0
      (fun i result =>
         for_up (length b) 0
           (fun j result =>
              let k := (i + j)%nat in
              rk <- (if truthy (get result k) then rd result k else Ok 0) ;;
              x <- rd a i ;;
              y <- rd b j ;;
              Ok (set result k (mod_ (rk + x * y))))
           result)
      (new_Array (length a + length b - 1)).

Definition mulPolyByConstant (a : array) (c : Z) : res array :=
  for_up (length a) 0
    (fun i result => ai <- rd a i ;; Ok (set result i (mod_ (ai * c))))
    (new_Array (length a)).

(** [interpolateQuarticBatch].  An entry of [data] is the tuple
    [[ys, eq0, eq1, eq2, eq3]]; [ys] is the slot [ySets[i]], which is
    indexed in the second loop only.  The state of the first loop is
    [data] and [inverseTargets]. *)
Definition interpolateQuarticBatch (xSets ySets : matrix) : res matrix :=
  let n := length xSets in
  s <- for_up n 0
         (fun i (s : arr (option array * array * array * array * array)
                     * array) =>
            xs <- row xSets i ;;
            let ys := get ySets i in
            x0 <- rd xs 0 ;;
            x1 <- rd xs 1 ;;
            x2 <- rd xs 2 ;;
            x3 <- rd xs 3 ;;
            let x01 := x0 * x1 in
            let x02 := x0 * x2 in
            let x03 := x0 * x3 in
            let x12 := x1 * x2 in
            let x13 := x1 * x3 in
            let x23 := x2 * x3 in
            let eq0 :=
              of_list [- x12 * x3; x12 + x13 + x23; - x1 - x2 - x3; 1] in
            let eq1 :=
              of_list [- x02 * x3; x02 + x03 + x23; - x0 - x2 - x3; 1] in
            let eq2 :=
              of_list [- x01 * x3; x01 + x03 + x13; - x0 - x1 - x3; 1] in
            let eq3 :=
              of_list [- x01 * x2; x01 + x02 + x12; - x0 - x1 - x2; 1] in
            e0 <- evalPolyAt eq0 x0 ;;
            e1 <- evalPolyAt eq1 x1 ;;
            e2 <- evalPolyAt eq2 x2 ;;
            e3 <- evalPolyAt eq3 x3 ;;
            let inverseTargets := set_slot (snd s) (i * 4 + 0) e0 in
            let inverseTargets := set_slot inverseTargets (i * 4 + 1) e1 in
            let inverseTargets := set_slot inverseTargets (i * 4 + 2) e2 in
            let inverseTargets := set_slot inverseTargets (i * 4 + 3) e3 in
            Ok (set (fst s) i (ys, eq0, eq1, eq2, eq3), inverseTargets))
         (new_Array n, new_Array (n * 4)) ;;
  let data := fst s in
  inverseValues <- invVectorElements (snd s) ;;
  for_up (length data) 0
    (fun i (result : matrix) =>
       match get data i with
       | None => Throw (TypeError "undefined is not iterable")
       | Some (ys, eq0, eq1, eq2, eq3) =>
           match ys with
           | None => Throw undefined_property
           | Some ys =>
               y0 <- rd ys 0 ;;
               v0 <- rd inverseValues (i * 4 + 0) ;;
               let invY0 := y0 * v0 in
               y1 <- rd ys 1 ;;
               v1 <- rd inverseValues (i * 4 + 1) ;;
               let invY1 := y1 * v1 in
               y2 <- rd ys 2 ;;
               v2 <- rd inverseValues (i * 4 + 2) ;;
               let invY2 := y2 * v2 in
               y3 <- rd ys 3 ;;
               v3 <- rd inverseValues (i * 4 + 3) ;;
               let invY3 := y3 * v3 in
               a0 <- rd eq0 0 ;; b0 <- rd eq1 0 ;;
               c0 <- rd eq2 0 ;; d0 <- rd eq3 0 ;;
               a1 <- rd eq0 1 ;; b1 <- rd eq1 1 ;;
               c1 <- rd eq2 1 ;; d1 <- rd eq3 1 ;;
               a2 <- rd eq0 2 ;; b2 <- rd eq1 2 ;;
               c2 <- rd eq2 2 ;; d2 <- rd eq3 2 ;;
               a3 <- rd eq0 3 ;; b3 <- rd eq1 3 ;;
               c3 <- rd eq2 3 ;; d3 <- rd eq3 3 ;;
               Ok (set result i
                     (of_list
                        [mod_ (a0 * invY0 + b0 * invY1
                               + c0 * invY2 + d0 * invY3);
                         mod_ (a1 * invY0 + b1 * invY1
                               + c1 * invY2 + d1 * invY3);
                         mod_ (a2 * invY0 + b2 * invY1
                               + c2 * invY2 + d2 * invY3);
                         mod_ (a3 * invY0 + b3 * invY1
                               + c3 * invY2 + d3 * invY3)]))
           end
       end)
    (new_Array (length data)).

End PrimeField.

(** * Vocabulary of the statements *)

(** ** Primality of a concrete modulus *)

(** Primality, decided by trial division, for concrete moduli. *)
Fixpoint no_divisor_from (count : nat) (d n : Z) : bool :=
  match count with
  | O => true
  | S c => negb (n mod d =? 0) && no_divisor_from c (d + 1) n
  end.

Definition primeb (n : Z) : bool :=
  (1 <? n) && no_divisor_from (Z.to_nat (n - 2)) 2 n.

(** ** Batch inversion *)

(** [x || 1n] on a bigint. *)
Definition nz (x : Z) : Z := if x =? 0 then 1 else x.

(** The running product [last] of [invVectorElements] after [i] turns. *)
Definition prefix (p : Z) (v : list Z) (i : nat) : Z :=
  fold_left (fun acc x => (acc * nz x) mod p) (firstn i v) 1.

(** [w] is what [inv] returns on the field element [x]. *)
Definition inverse_of (p x w : Z) : Prop :=
  (x = 0 /\ w = 0) \/ (0 <= w < p /\ (x * w) mod p = 1).

(** ** Polynomials *)

(** The value at [x] of the polynomial with coefficients [c], constant
    term first. *)
Fixpoint peval (c : list Z) (x : Z) : Z :=
  match c with
  | [] => 0
  | a :: c' => a + x * peval c' x
  end.

(** The quotient of [c] by [x - r]. *)
Fixpoint quot_linear (r : Z) (c : list Z) : list Z :=
  match c with
  | [] => []
  | _ :: c' =>
      match c' with
      | [] => []
      | _ => peval c' r :: quot_linear r c'
      end
  end.

(** One turn of [zpoly]: the coefficients of [c(X) * (X - x)], reduced,
    the leading one apart, which the loop leaves as it is. *)
Fixpoint shift_sub (p prev : Z) (c : list Z) (x : Z) : list Z :=
  match c with
  | [] => [prev]
  | a :: c' => (prev - a * x) mod p :: shift_sub p a c' x
  end.

Definition mul_linear (p : Z) (c : list Z) (x : Z) : list Z :=
  shift_sub p 0 c x.

(** The coefficients [zpoly] computes. *)
Definition vanishing (p : Z) (xs : list Z) : list Z :=
  fold_left (mul_linear p) xs [1].

(** The product of the [X - x], as a number. *)
Definition vprod (xs : list Z) (X : Z) : Z :=
  fold_left (fun acc x => acc * (X - x)) xs 1.

(** The [i]-th numerator: the vanishing polynomial divided by
    [x - xs[i]]. *)
Definition numerator (p : Z) (xs : list Z) (i : nat) : list Z :=
  map (fun z => z mod p) (quot_linear (nth i xs 0) (vanishing p xs)).

(** The coefficients an array holds, a hole counting as 0. *)
Definition coefficients (a : array) : list Z :=
  map (fun o => match o with Some v => v | None => 0 end) a.

(** The coefficients of [(X - u) (X - v) (X - w)], as
    [interpolateQuarticBatch] writes them. *)
Definition cubic (u v w : Z) : list Z :=
  [- (u * v) * w; u * v + u * w + v * w; - u - v - w; 1].

(** ** Matrices *)

(** A matrix given by the list of its rows. *)
Definition of_rows (rows : list (list Z)) : matrix :=
  of_list (map of_list rows).

(** The entry of row [i] and column [j]. *)
Definition entry (rows : list (list Z)) (i j : nat) : Z :=
  nth j (nth i rows []) 0.

(** The index, in the list of all the entries row after row, of the first
    entry of row [i]. *)
Definition offset (rows : list (list Z)) (i : nat) : nat :=
  length (concat (firstn i rows)).

(** ** Sums and transforms *)

(** The sum of [f 0], ..., [f (n - 1)]. *)
Fixpoint sumto (f : nat -> Z) (n : nat) : Z :=
  match n with
  | O => 0
  | S n' => sumto f n' + f n'
  end.

(** The discrete Fourier transform of the values at stride [2 ^ d] from
    offset [o] on: its [i]-th entry, before reduction. *)
Definition dft (u : Z) (vs : list Z) (d o len i : nat) : Z :=
  sumto (fun j => nth (o + j * 2 ^ d) vs 0 * u ^ Z.of_nat (2 ^ d * i * j))
    len.

(** The powers of [u], reduced: a power cycle. *)
Definition powers (p u : Z) (n : nat) : list Z :=
  map (fun j => u ^ Z.of_nat j mod p) (seq 0 n).

(** * Properties *)

(** ** The monad and the loops *)

Lemma bind_Ok {A B : Type} (m : res A) (k : A -> res B) (a : A) :
  m = Ok a -> bind m k = k a.
Proof. intros ->. reflexivity. Qed.

Lemma bind_ret {A B : Type} (a : A) (k : A -> res B) : bind (Ok a) k = k a.
Proof. reflexivity. Qed.

Lemma bind_inv {A B : Type} (m : res A) (k : A -> res B) (b : B) :
  bind m k = Ok b -> exists a, m = Ok a /\ k a = Ok b.
Proof. destruct m as [a | e]; simpl; [eauto | discriminate]. Qed.

(** ** The arithmetic kernel *)

Section Kernel.

Variable p : Z.
Hypothesis p_pos : 0 < p.

Lemma mod_spec (v : Z) : mod_ p v = v mod p.
Proof.
  unfold mod_.
  destruct (Z.geb_spec v 0) as [Hv | Hv].
  - apply Z.rem_mod_nonneg; lia.
  - pose proof (Z.rem_bound_pos_neg v p p_pos ltac:(lia)) as Hb.
    pose proof (Z.quot_rem v p ltac:(lia)) as He.
    rewrite Z.rem_mod_nonneg by lia.
    rewrite Z.add_mod, Z.mod_same, Z.add_0_r, Z.mod_mod by lia.
    rewrite He at 2.
    rewrite Z.add_comm, Z.mul_comm, Z.mod_add by lia. reflexivity.
Qed.

Lemma mod_range (v : Z) : 0 <= mod_ p v < p.
Proof. rewrite mod_spec. apply Z.mod_pos_bound, p_pos. Qed.

Lemma mod_small (v : Z) : 0 <= v < p -> mod_ p v = v.
Proof. intros H. rewrite mod_spec. apply Z.mod_small, H. Qed.

Lemma add_spec (x y : Z) : add p x y = (x + y) mod p.
Proof. apply mod_spec. Qed.

Lemma sub_spec (x y : Z) : sub p x y = (x - y) mod p.
Proof. apply mod_spec. Qed.

Lemma mul_spec (x y : Z) : mul p x y = (x * y) mod p.
Proof. apply mod_spec. Qed.

(** *** [inv]: the loop ends, and it computes an inverse *)

Lemma inv_step_bounds (low high : Z) :
  1 < low -> low < high ->
  0 <= high - low * Z.quot high low < low /\
  2 * (low * (high - low * Z.quot high low)) <= high * low.
Proof.
  intros Hl Hh.
  rewrite Z.quot_div_nonneg by lia.
  pose proof (Z.div_mod high low ltac:(lia)) as E.
  pose proof (Z.mod_pos_bound high low ltac:(lia)) as B.
  assert (1 <= high / low) by (apply Z.div_le_lower_bound; lia).
  split; [lia | nia].
Qed.

Lemma inv_loop_ends (fuel : nat) : forall lm hm low high,
  0 <= low < high -> high * low < 2 ^ Z.of_nat fuel ->
  exists lm', inv_loop fuel lm hm low high = Ok lm'.
Proof.
  induction fuel as [| fuel IH]; intros lm hm low high Hr Hf.
  - assert (low = 0) by (change (2 ^ Z.of_nat 0) with 1 in Hf; nia).
    subst low. simpl. eauto.
  - simpl. destruct (Z.gtb_spec low 1) as [Hl | Hl]; [| eauto].
    destruct (inv_step_bounds low high Hl ltac:(lia)) as [Hb Hh].
    apply IH; [lia |].
    rewrite Nat2Z.inj_succ, Z.pow_succ_r in Hf by lia. lia.
Qed.

Lemma inv_loop_inverse (a : Z) (fuel : nat) : forall lm hm low high lm',
  inv_loop fuel lm hm low high = Ok lm' ->
  0 <= low < high -> 1 < high -> Z.gcd high low = 1 ->
  (p | lm * a - low) -> (p | hm * a - high) ->
  (p | lm' * a - 1).
Proof.
  induction fuel as [| fuel IH]; intros lm hm low high lm' E Hr Hh Hg Hl Hm;
    simpl in E; destruct (Z.gtb_spec low 1) as [Hl1 | Hl1];
    try discriminate.
  - injection E as <-.
    assert (low = 1); [| subst low; exact Hl].
    destruct (Z.eq_dec low 0) as [-> |]; [| lia].
    rewrite Z.gcd_0_r in Hg. lia.
  - destruct (inv_step_bounds low high Hl1 ltac:(lia)) as [Hb _].
    apply IH in E; try lia; try assumption.
    + replace (high - low * Z.quot high low)
        with (high + (- Z.quot high low) * low) by ring.
      rewrite Z.gcd_add_mult_diag_r, Z.gcd_comm. exact Hg.
    + replace ((hm - lm * Z.quot high low) * a - (high - low * Z.quot high low))
        with ((hm * a - high) - Z.quot high low * (lm * a - low)) by ring.
      apply Z.divide_sub_r; [exact Hm | apply Z.divide_mul_r, Hl].
  - injection E as <-.
    assert (low = 1); [| subst low; exact Hl].
    destruct (Z.eq_dec low 0) as [-> |]; [| lia].
    rewrite Z.gcd_0_r in Hg. lia.
Qed.

Lemma inv_fuel_enough (low : Z) :
  0 <= low < p -> p * low < 2 ^ Z.of_nat (inv_fuel p).
Proof.
  intros Hl. unfold inv_fuel.
  pose proof (Z.log2_nonneg p) as Hn.
  rewrite Z2Nat.id by lia.
  replace (2 * (Z.log2 p + 1)) with ((Z.log2 p + 1) + (Z.log2 p + 1)) by ring.
  rewrite Z.pow_add_r by lia.
  pose proof (Z.log2_spec p p_pos) as [_ Hs].
  unfold Z.succ in Hs. nia.
Qed.

(** [inv] returns on every integer, and its result is reduced. *)
Lemma inv_total (a : Z) : exists y, inv p a = Ok y /\ 0 <= y < p.
Proof.
  unfold inv. destruct (Z.eqb_spec a 0) as [-> | Ha].
  - exists 0. split; [reflexivity | lia].
  - destruct (inv_loop_ends (inv_fuel p) 1 0 (mod_ p a) p) as [lm E].
    + apply mod_range.
    + apply inv_fuel_enough, mod_range.
    + rewrite E. simpl. eexists; split; [reflexivity | apply mod_range].
Qed.

(** On an argument coprime with the modulus the result is the inverse. *)
Lemma inv_correct (a y : Z) :
  1 < p -> Z.gcd p a = 1 -> inv p a = Ok y -> (a * y) mod p = 1.
Proof.
  intros Hp Hg E. unfold inv in E.
  destruct (Z.eqb_spec a 0) as [-> | Ha].
  - rewrite Z.gcd_0_r in Hg. lia.
  - apply bind_inv in E as (lm & E & Ey). injection Ey as <-.
    apply (inv_loop_inverse a) in E.
    + rewrite mod_spec, Z.mul_mod_idemp_r by lia.
      apply Zdivide_mod_minus; [lia |].
      replace (a * lm) with (lm * a) by ring. exact E.
    + apply mod_range.
    + exact Hp.
    + rewrite mod_spec, Z.gcd_mod_r. exact Hg.
    + rewrite mod_spec. replace (1 * a - a mod p) with (p * (a / p)).
      * apply Z.divide_factor_l.
      * pose proof (Z.div_mod a p ltac:(lia)). lia.
    + exists (-1). ring.
Qed.

End Kernel.

(** *** [exp]: square and multiply *)

Section Exponent.

Variable p : Z.
Hypothesis p_gt_1 : 1 < p.

Let p_pos : 0 < p := Z.lt_trans 0 1 p Z.lt_0_1 p_gt_1.

Lemma pow_halve (b e : Z) :
  0 <= e -> b ^ e = (b * b) ^ (e / 2) * b ^ (e mod 2).
Proof.
  intros He.
  pose proof (Z.div_mod e 2 ltac:(lia)) as E.
  pose proof (Z.mod_pos_bound e 2 ltac:(lia)) as B.
  assert (0 <= e / 2) by (apply Z.div_pos; lia).
  rewrite E at 1.
  rewrite Z.pow_add_r, Z.pow_mul_r, Z.pow_2_r by lia. reflexivity.
Qed.

Lemma exp_loop_spec (fuel : nat) : forall base e result,
  0 <= base < p -> 0 <= result < p -> 0 <= e < 2 ^ Z.of_nat fuel ->
  exp_loop p fuel base e result = Ok ((result * base ^ e) mod p).
Proof.
  induction fuel as [| fuel IH]; intros base e result Hb Hr He.
  - assert (e = 0) by (change (2 ^ Z.of_nat 0) with 1 in He; lia).
    subst e. simpl. rewrite Z.mul_1_r, Z.mod_small by lia. reflexivity.
  - simpl. destruct (Z.gtb_spec e 0) as [Hpos | Hz].
    + destruct (Z.eqb_spec base 0) as [-> | Hb0].
      * rewrite Z.pow_0_l, Z.mul_0_r, Z.mod_0_l by lia. reflexivity.
      * rewrite Nat2Z.inj_succ, Z.pow_succ_r in He by lia.
        rewrite Z.quot_div_nonneg, Z.rem_mod_nonneg by lia.
        pose proof (Z.mod_pos_bound e 2 ltac:(lia)) as B.
        assert (0 <= e / 2 < 2 ^ Z.of_nat fuel) as He2.
        { split; [apply Z.div_pos; lia |].
          apply Z.div_lt_upper_bound; lia. }
        rewrite IH; [| apply mod_range, p_pos | | exact He2].
        -- f_equal. rewrite (pow_halve base e) by lia.
           rewrite !mul_spec by exact p_pos.
           rewrite <- Z.mul_mod_idemp_r, Z.mod_pow_l, Z.mul_mod_idemp_r
             by lia.
           destruct (Z.eqb_spec (e mod 2) 0) as [E0 | E1].
           ++ rewrite E0, Z.pow_0_r, Z.mul_1_r. reflexivity.
           ++ replace (e mod 2) with 1 by lia.
              rewrite Z.pow_1_r, Z.mul_mod_idemp_l by lia.
              f_equal. ring.
        -- destruct (Z.eqb_spec (e mod 2) 0);
             [exact Hr | apply mod_range, p_pos].
    + assert (e = 0) by lia. subst e.
      rewrite Z.pow_0_r, Z.mul_1_r, Z.mod_small by lia. reflexivity.
Qed.

Lemma exp_fuel_enough (e : Z) : 0 <= e -> e < 2 ^ Z.of_nat (exp_fuel e).
Proof.
  intros He. unfold exp_fuel.
  pose proof (Z.log2_nonneg e).
  rewrite Nat2Z.inj_succ, Z2Nat.id by lia.
  destruct (Z.eq_dec e 0) as [-> | Hn].
  - apply Z.pow_pos_nonneg; lia.
  - apply Z.log2_spec. lia.
Qed.

Lemma exp_both_zero (b e : Z) :
  b mod p = 0 -> e = 0 ->
  exp p b e = Throw (TypeError "Base and exponent cannot be both 0").
Proof.
  intros Hb ->. unfold exp. rewrite mod_spec, Hb by exact p_pos.
  reflexivity.
Qed.

Lemma exp_nonneg (b e : Z) :
  0 <= e -> ~ (b mod p = 0 /\ e = 0) -> exp p b e = Ok (b ^ e mod p).
Proof.
  intros He Hn. unfold exp. rewrite mod_spec by exact p_pos.
  replace ((b mod p =? 0) && (e =? 0)) with false.
  - destruct (Z.ltb_spec e 0) as [Hlt | _]; [lia |]. cbn [bind fst snd].
    rewrite exp_loop_spec.
    + rewrite Z.mul_1_l, Z.mod_pow_l. reflexivity.
    + apply Z.mod_pos_bound, p_pos.
    + lia.
    + split; [exact He | apply exp_fuel_enough, He].
  - symmetry. apply andb_false_iff.
    destruct (Z.eqb_spec (b mod p) 0), (Z.eqb_spec e 0); auto. tauto.
Qed.

Lemma exp_negative (b e : Z) :
  e < 0 ->
  exists ib, inv p (b mod p) = Ok ib /\ 0 <= ib < p /\
             exp p b e = Ok (ib ^ (- e) mod p).
Proof.
  intros He. unfold exp. rewrite mod_spec by exact p_pos.
  destruct (inv_total p p_pos (b mod p)) as (ib & E & Hr).
  exists ib. split; [exact E | split; [exact Hr |]].
  replace (e =? 0) with false by (symmetry; apply Z.eqb_neq; lia).
  rewrite andb_false_r.
  destruct (Z.ltb_spec e 0) as [_ | Hge]; [| lia].
  rewrite E. cbn [bind fst snd].
  rewrite exp_loop_spec.
  - rewrite Z.mul_1_l. reflexivity.
  - exact Hr.
  - lia.
  - split; [lia | apply exp_fuel_enough; lia].
Qed.

(** A call of [exp] that returns, returns a reduced value. *)
Lemma exp_range (b e r : Z) : exp p b e = Ok r -> 0 <= r < p.
Proof.
  intros E. destruct (Z.lt_ge_cases e 0) as [Hneg | Hpos].
  - destruct (exp_negative b e Hneg) as (ib & _ & _ & E').
    rewrite E' in E. injection E as <-. apply Z.mod_pos_bound, p_pos.
  - destruct (Z.eq_dec (b mod p) 0) as [Hb | Hb];
      [destruct (Z.eq_dec e 0) as [He | He] |].
    + rewrite exp_both_zero in E by assumption. discriminate.
    + rewrite exp_nonneg in E by tauto. injection E as <-.
      apply Z.mod_pos_bound, p_pos.
    + rewrite exp_nonneg in E by tauto. injection E as <-.
      apply Z.mod_pos_bound, p_pos.
Qed.

(** [exp] raises on a zero base with a zero exponent, and only there. *)
Lemma exp_raises_iff (b e : Z) :
  raises (exp p b e) <-> b mod p = 0 /\ e = 0.
Proof.
  split.
  - intros [err E]. destruct (Z.lt_ge_cases e 0) as [Hneg | Hpos].
    + destruct (exp_negative b e Hneg) as (ib & _ & _ & E').
      rewrite E' in E. discriminate.
    + destruct (Z.eq_dec (b mod p) 0) as [Hb | Hb];
        [destruct (Z.eq_dec e 0) as [He | He]; [tauto |] |];
        rewrite exp_nonneg in E by tauto; discriminate.
  - intros [Hb He]. eexists. apply exp_both_zero; assumption.
Qed.

End Exponent.

Lemma no_divisor_from_spec (count : nat) : forall d n k,
  no_divisor_from count d n = true ->
  0 < d -> d <= k < d + Z.of_nat count -> ~ (k | n).
Proof.
  induction count as [| c IH]; intros d n k H Hd Hk; [lia |].
  simpl in H. apply andb_true_iff in H as [H1 H2].
  destruct (Z.eq_dec k d) as [-> | Hne].
  - intros Hdiv. apply Z.mod0_divide in Hdiv.
    rewrite Hdiv in H1. discriminate.
  - apply (IH (d + 1) n k H2); lia.
Qed.

Lemma primeb_sound (n : Z) : primeb n = true -> Z.prime n.
Proof.
  unfold primeb. intros H. apply andb_true_iff in H as [H1 H2].
  apply Z.ltb_lt in H1. split; [exact H1 |].
  intros k Hk. apply (no_divisor_from_spec _ 2 n k H2); lia.
Qed.

(** ** Claims on the arithmetic kernel *)

Lemma prime_gt_1 (p : Z) : Z.prime p -> 1 < p.
Proof. intros H. pose proof (Z.prime_ge_2 p H). lia. Qed.

Lemma prime_coprime_reduced (p x : Z) :
  Z.prime p -> 0 < x < p -> Z.gcd p x = 1.
Proof. intros Hp Hx. apply Z.coprime_prime_small; [exact Hp | lia]. Qed.

(** C10.  Every result of the arithmetic operations is canonical: for a
    prime modulus [p] and arbitrary integers [x] and [y], negative or
    beyond [p] included, [mod], [add], [sub], [mul], [div] and [inv]
    return a value of [[0, p)], and so does every call of [exp] that
    returns; [exp] returns unless the base is zero modulo [p] and the
    exponent is zero. *)
Theorem results_canonical (p x y : Z) :
  Z.prime p ->
  0 <= mod_ p x < p /\
  0 <= add p x y < p /\
  0 <= sub p x y < p /\
  0 <= mul p x y < p /\
  (exists r, div p x y = Ok r /\ 0 <= r < p) /\
  (exists r, inv p x = Ok r /\ 0 <= r < p) /\
  (forall r, exp p x y = Ok r -> 0 <= r < p) /\
  (~ (x mod p = 0 /\ y = 0) -> exists r, exp p x y = Ok r).
Proof.
  intros Hp. pose proof (prime_gt_1 p Hp) as H1.
  assert (0 < p) as H0 by lia.
  repeat split; try apply mod_range; try exact H0.
  - destruct (inv_total p H0 y) as (iy & E & _).
    exists (mul p x iy). unfold div. rewrite E. simpl.
    split; [reflexivity | apply mod_range, H0].
  - destruct (inv_total p H0 x) as (ix & E & Hr). eauto.
  - apply (exp_range p H1 x y r H).
  - apply (exp_range p H1 x y r H).
  - intros Hn. destruct (exp p x y) as [r | e] eqn:E; [eauto |].
    exfalso. apply Hn. apply (exp_raises_iff p H1). exists e. exact E.
Qed.

Lemma results_canonical_witness :
  0 <= mod_ 7 (-30) < 7 /\
  0 <= add 7 (-30) 100 < 7 /\
  0 <= sub 7 (-30) 100 < 7 /\
  0 <= mul 7 (-30) 100 < 7 /\
  (exists r, div 7 (-30) 100 = Ok r /\ 0 <= r < 7) /\
  (exists r, inv 7 (-30) = Ok r /\ 0 <= r < 7) /\
  (forall r, exp 7 (-30) 100 = Ok r -> 0 <= r < 7) /\
  (~ ((-30) mod 7 = 0 /\ 100 = 0) -> exists r, exp 7 (-30) 100 = Ok r).
Proof.
  apply (results_canonical 7 (-30) 100).
  apply primeb_sound. vm_compute. reflexivity.
Defined.

(** C3.  For a prime modulus [p], [inv(0) = 0], and for every [x] with
    [0 < x < p] the call [inv(x)] returns a value of [[0, p)] whose
    product with [x] is [1] in the field. *)
Theorem inv_is_inverse (p : Z) :
  Z.prime p ->
  inv p 0 = Ok 0 /\
  forall x, 0 < x < p ->
    exists y, inv p x = Ok y /\ 0 <= y < p /\ mul p x y = 1.
Proof.
  intros Hp. pose proof (prime_gt_1 p Hp) as H1.
  assert (0 < p) as H0 by lia.
  split; [reflexivity |].
  intros x Hx. destruct (inv_total p H0 x) as (y & E & Hr).
  exists y. split; [exact E | split; [exact Hr |]].
  rewrite mul_spec by exact H0.
  apply (inv_correct p H0 x y H1); [| exact E].
  apply prime_coprime_reduced; assumption.
Qed.

Lemma inv_is_inverse_witness :
  inv 17 0 = Ok 0 /\
  forall x, 0 < x < 17 ->
    exists y, inv 17 x = Ok y /\ 0 <= y < 17 /\ mul 17 x y = 1.
Proof.
  apply (inv_is_inverse 17).
  apply primeb_sound. vm_compute. reflexivity.
Defined.

(** C4.  For a prime modulus [p] and a field element [b]: [exp(b, e)]
    raises exactly when [b = 0] and [e = 0]; it returns [0] when [b = 0]
    and [e > 0], and [1] when [e = 0] and [b <> 0]; for [e < 0] it returns
    what [exp(inv(b), -e)] returns; and a returned value is [b^e mod p],
    which for [e < 0] is the [-e]-th power of [inv(b)], the inverse of
    [b^(-e)] in the field when [b <> 0]. *)
Theorem exp_cases (p b e : Z) :
  Z.prime p -> 0 <= b < p ->
  (raises (exp p b e) <-> b = 0 /\ e = 0) /\
  (b = 0 -> 0 < e -> exp p b e = Ok 0) /\
  (e = 0 -> b <> 0 -> exp p b e = Ok 1) /\
  (e < 0 -> exp p b e = (ib <- inv p b ;; exp p ib (- e))) /\
  (forall r, exp p b e = Ok r ->
     (0 <= e -> r = b ^ e mod p) /\
     (e < 0 -> exists ib, inv p b = Ok ib /\ r = ib ^ (- e) mod p /\
                          (b <> 0 -> (r * b ^ (- e)) mod p = 1))).
Proof.
  intros Hp Hb. pose proof (prime_gt_1 p Hp) as H1.
  assert (0 < p) as H0 by lia.
  assert (b mod p = b) as Hbm by (apply Z.mod_small, Hb).
  assert (forall e', e' < 0 ->
            exists ib, inv p b = Ok ib /\ 0 <= ib < p /\
                       exp p b e' = Ok (ib ^ (- e') mod p)) as Hneg.
  { intros e' He'. destruct (exp_negative p H1 b e' He') as (ib & E & R & E').
    rewrite Hbm in E. eauto. }
  split; [| split; [| split; [| split]]].
  - rewrite (exp_raises_iff p H1), Hbm. tauto.
  - intros -> He. rewrite (exp_nonneg p H1) by lia.
    rewrite Z.pow_0_l, Z.mod_0_l by lia. reflexivity.
  - intros -> Hnz. rewrite (exp_nonneg p H1) by lia.
    rewrite Z.pow_0_r, Z.mod_small by lia. reflexivity.
  - intros He. destruct (Hneg e He) as (ib & E & R & E').
    rewrite E', E. cbn [bind].
    rewrite (exp_nonneg p H1) by lia. reflexivity.
  - intros r H. split.
    + intros He. destruct (Z.eq_dec b 0) as [-> | Hnz];
        [destruct (Z.eq_dec e 0) as [-> | Hez] |].
      * rewrite (exp_both_zero p H1) in H by (try apply Z.mod_0_l; lia).
        discriminate.
      * rewrite (exp_nonneg p H1) in H by lia. congruence.
      * rewrite (exp_nonneg p H1) in H by lia. congruence.
    + intros He. destruct (Hneg e He) as (ib & E & R & E').
      exists ib. split; [exact E |]. rewrite E' in H. injection H as <-.
      split; [reflexivity |]. intros Hnz.
      rewrite Z.mul_mod_idemp_l, <- Z.pow_mul_l by lia.
      rewrite <- Z.mod_pow_l.
      replace ((ib * b) mod p) with 1.
      * rewrite Z.pow_1_l, Z.mod_small by lia. reflexivity.
      * symmetry. rewrite Z.mul_comm.
        apply (inv_correct p H0 b ib H1); [| exact E].
        apply prime_coprime_reduced; [exact Hp | lia].
Qed.

Lemma exp_cases_witness :
  (raises (exp 7 3 (-2)) <-> 3 = 0 /\ -2 = 0) /\
  (3 = 0 -> 0 < -2 -> exp 7 3 (-2) = Ok 0) /\
  (-2 = 0 -> 3 <> 0 -> exp 7 3 (-2) = Ok 1) /\
  (-2 < 0 -> exp 7 3 (-2) = (ib <- inv 7 3 ;; exp 7 ib (- -2))) /\
  (forall r, exp 7 3 (-2) = Ok r ->
     (0 <= -2 -> r = 3 ^ (-2) mod 7) /\
     (-2 < 0 -> exists ib, inv 7 3 = Ok ib /\ r = ib ^ (- -2) mod 7 /\
                           (3 <> 0 -> (r * 3 ^ (- -2)) mod 7 = 1))).
Proof.
  apply (exp_cases 7 3 (-2)).
  - apply primeb_sound. vm_compute. reflexivity.
  - lia.
Defined.

(** ** Arrays and counted loops *)

Section Arrays.

Context {A : Type}.

Lemma length_new_Array (n : nat) : length (@new_Array A n) = n.
Proof. apply repeat_length. Qed.

Lemma get_new_Array (n j : nat) : get (@new_Array A n) j = None.
Proof.
  unfold get, new_Array. revert j.
  induction n as [| n IH]; intros [| j]; simpl; auto.
Qed.

Lemma length_of_list (l : list A) : length (of_list l) = length l.
Proof. apply length_map. Qed.

Lemma get_of_list (l : list A) (j : nat) : get (of_list l) j = nth_error l j.
Proof.
  unfold get, of_list. revert j.
  induction l as [| x l IH]; intros [| j]; simpl; auto.
Qed.

Lemma get_beyond (a : arr A) (j : nat) :
  (length a <= j)%nat -> get a j = None.
Proof. intros H. apply nth_overflow, H. Qed.

Lemma length_set_slot (a : arr A) (i : nat) (o : option A) :
  length (set_slot a i o) = Nat.max (length a) (S i).
Proof.
  revert i. induction a as [| h t IH]; intros i.
  - induction i as [| i IHi]; simpl; [reflexivity |].
    simpl in IHi. rewrite IHi. reflexivity.
  - destruct i as [| i]; simpl; [| rewrite IH]; lia.
Qed.

Lemma length_set_slot_inside (a : arr A) (i : nat) (o : option A) :
  (i < length a)%nat -> length (set_slot a i o) = length a.
Proof. intros H. rewrite length_set_slot. lia. Qed.

Lemma get_set_slot_same (a : arr A) (i : nat) (o : option A) :
  get (set_slot a i o) i = o.
Proof.
  unfold get. revert i. induction a as [| h t IH]; intros i.
  - induction i as [| i IHi]; simpl; auto.
  - destruct i as [| i]; simpl; auto.
Qed.

Lemma get_set_slot_other (a : arr A) (i j : nat) (o : option A) :
  i <> j -> get (set_slot a i o) j = get a j.
Proof.
  unfold get. revert i j. induction a as [| h t IH]; intros i j Hij.
  - revert j Hij. induction i as [| i IHi]; intros [| j] Hij; simpl;
      try congruence; try (destruct j; reflexivity).
    rewrite IHi by congruence. destruct j; reflexivity.
  - destruct i as [| i], j as [| j]; simpl; try congruence.
    apply IH. congruence.
Qed.

Lemma length_set (a : arr A) (i : nat) (v : A) :
  (i < length a)%nat -> length (set a i v) = length a.
Proof. apply length_set_slot_inside. Qed.

Lemma get_set_same (a : arr A) (i : nat) (v : A) :
  get (set a i v) i = Some v.
Proof. apply get_set_slot_same. Qed.

Lemma get_set_other (a : arr A) (i j : nat) (v : A) :
  i <> j -> get (set a i v) j = get a j.
Proof. apply get_set_slot_other. Qed.

(** Two arrays with the same length and the same slots are equal. *)
Lemma arr_ext (a b : arr A) :
  length a = length b ->
  (forall j, (j < length a)%nat -> get a j = get b j) -> a = b.
Proof.
  intros Hl Hg. apply (nth_ext a b None None Hl). exact Hg.
Qed.

(** An array whose slots are all filled is the image of a list. *)
Lemma arr_of_values (a : arr A) (f : nat -> A) :
  (forall j, (j < length a)%nat -> get a j = Some (f j)) ->
  a = of_list (map f (seq 0 (length a))).
Proof.
  intros H. apply arr_ext.
  - rewrite length_of_list, length_map, length_seq. reflexivity.
  - intros j Hj. rewrite (H j Hj), get_of_list.
    rewrite nth_error_map, nth_error_seq.
    apply Nat.ltb_lt in Hj. rewrite Hj. reflexivity.
Qed.

End Arrays.

Section Loops.

Context {S : Type}.

(** The rule of the upward loop: an invariant kept by the body holds at
    the end, and the loop returns. *)
Lemma for_up_rule (P : nat -> S -> Prop) (body : nat -> S -> res S) :
  forall count lo s,
    P lo s ->
    (forall i s, (lo <= i < lo + count)%nat -> P i s ->
       exists s', body i s = Ok s' /\ P (Datatypes.S i) s') ->
    exists s', for_up count lo body s = Ok s' /\ P (lo + count)%nat s'.
Proof.
  induction count as [| c IH]; intros lo s H0 Hstep.
  - exists s. rewrite Nat.add_0_r. split; [reflexivity | exact H0].
  - destruct (Hstep lo s ltac:(lia) H0) as (s1 & E1 & H1).
    destruct (IH (Datatypes.S lo) s1 H1) as (s2 & E2 & H2).
    + intros i s' Hi. apply Hstep. lia.
    + exists s2. simpl. rewrite E1. simpl.
      rewrite Nat.add_succ_r. split; assumption.
Qed.

(** The rule of the downward loop. *)
Lemma for_down_rule (P : nat -> S -> Prop) (body : nat -> S -> res S) :
  forall n s,
    P n s ->
    (forall i s, (i < n)%nat -> P (Datatypes.S i) s ->
       exists s', body i s = Ok s' /\ P i s') ->
    exists s', for_down n body s = Ok s' /\ P 0%nat s'.
Proof.
  induction n as [| n IH]; intros s H0 Hstep.
  - exists s. split; [reflexivity | exact H0].
  - destruct (Hstep n s ltac:(lia) H0) as (s1 & E1 & H1).
    destruct (IH s1 H1) as (s2 & E2 & H2).
    + intros i s' Hi. apply Hstep. lia.
    + exists s2. simpl. rewrite E1. simpl. split; assumption.
Qed.

(** A loop whose body raises in its first turn raises. *)
Lemma for_up_raises_first (body : nat -> S -> res S) (count lo : nat)
  (s : S) (e : exn) :
  body lo s = Throw e -> for_up (Datatypes.S count) lo body s = Throw e.
Proof. intros E. simpl. rewrite E. reflexivity. Qed.

End Loops.

(** [for_up_with P] runs the first upward loop of the goal with the
    invariant [P]; [for_down_with P] does so for a downward loop. *)
Ltac for_up_with P :=
  match goal with
  | |- context [for_up ?c ?lo ?body ?s] =>
      let s' := fresh "s" in
      let E := fresh "E" in
      let H := fresh "H" in
      assert (exists s', for_up c lo body s = Ok s' /\ P (lo + c)%nat s')
        as (s' & E & H);
      [ apply (for_up_rule P body c lo s)
      | rewrite E; cbn [bind] ]
  end.

Ltac for_down_with P :=
  match goal with
  | |- context [for_down ?n ?body ?s] =>
      let s' := fresh "s" in
      let E := fresh "E" in
      let H := fresh "H" in
      assert (exists s', for_down n body s = Ok s' /\ P 0%nat s')
        as (s' & E & H);
      [ apply (for_down_rule P body n s)
      | rewrite E; cbn [bind] ]
  end.

(** ** Power series *)

(** C9, at length zero.  [getPowerSeries(s, 0)] writes [powers[0] = 1n]
    into an array allocated with no slot, which extends it: the call
    returns the one-element vector [[1]], not a vector of length zero. *)
Theorem getPowerSeries_zero_length (p s : Z) :
  getPowerSeries p s 0 = Ok [Some 1] /\
  (forall out, getPowerSeries p s 0 = Ok out -> length out <> 0%nat).
Proof.
  split; [reflexivity |].
  intros out E. injection E as <-. discriminate.
Qed.

(** From length one on, [getPowerSeries(s, n)] is the vector of the [n]
    first powers of [s], reduced. *)
Lemma getPowerSeries_spec (p s : Z) (n : nat) :
  1 < p -> (0 < n)%nat ->
  getPowerSeries p s n =
    Ok (of_list (map (fun i => s ^ Z.of_nat i mod p) (seq 0 n))).
Proof.
  intros Hp Hn. unfold getPowerSeries. cbv zeta.
  for_up_with (fun (i : nat) (powers : array) => length powers = n /\
     forall j, (j < i)%nat -> get powers j = Some (s ^ Z.of_nat j mod p)).
  - split.
    + rewrite length_set; rewrite length_new_Array; auto.
    + intros j Hj. assert (j = 0%nat) by lia. subst j.
      rewrite get_set_same. simpl. rewrite Z.mod_small by lia. reflexivity.
  - intros i powers Hi [Hl Hg]. unfold rd.
    rewrite (Hg (i - 1)%nat) by lia. simpl.
    eexists. split; [reflexivity |]. split.
    + rewrite length_set by lia. exact Hl.
    + intros j Hj. destruct (Nat.eq_dec i j) as [<- | Hne].
      * rewrite get_set_same. f_equal.
        rewrite mul_spec, Z.mul_mod_idemp_l by lia.
        replace (Z.of_nat i) with (Z.of_nat (i - 1) + 1) by lia.
        rewrite Z.pow_add_r, Z.pow_1_r by lia. reflexivity.
      * rewrite get_set_other by exact Hne. apply Hg. lia.
  - destruct H as [Hl Hg]. f_equal.
    rewrite (arr_of_values s0 (fun i => s ^ Z.of_nat i mod p)).
    + rewrite Hl. reflexivity.
    + intros j Hj. apply Hg. lia.
Qed.

(** [getPowerSeries_spec] at the modulus 17: the five first powers of 3. *)
Lemma getPowerSeries_spec_witness :
  getPowerSeries 17 3 5 =
    Ok (of_list (map (fun i => 3 ^ Z.of_nat i mod 17) (seq 0 5))).
Proof. apply (getPowerSeries_spec 17 3 5); lia. Defined.

(** ** Operands of unequal shape *)

(** C6, on operands of unequal shape.  [combineVectors] and the
    elementwise operations loop over the first vector only: when the
    second one is longer they return a result, and [mulMatrixes] takes the
    inner dimension from its left operand alone.  None of them raises. *)
Theorem unequal_shapes_accepted :
  combineVectors 7 (of_list [2]) (of_list [3; 4]) = Ok 6 /\
  addVectorElements 7 (of_list [2]) (Vector (of_list [3; 4]))
    = Ok (of_list [5]) /\
  mulVectorElements 7 (of_list []) (Vector (of_list [3; 4])) = Ok [] /\
  mulMatrixes 7 (of_list [of_list [2]]) (of_list [of_list [3]; of_list [4]])
    = Ok (of_list [of_list [6]]).
Proof. repeat split. Qed.



(** ** The base case of [fastFF] on short domains *)

(** C8.  On a polynomial of length one and a domain of length one,
    [evalPolyAtRoots] passes its two checks and enters the four-point
    base case of [fastFF], which reads [values[1]]: the call raises a
    [TypeError] instead of returning the polynomial. *)
Theorem evalPolyAtRoots_length_one (p c r : Z) :
  evalPolyAtRoots p (of_list [c]) (of_list [r]) = Throw mixed_types.
Proof. reflexivity. Qed.

Lemma getPowerCycle_minus_one (p : Z) :
  2 < p -> getPowerCycle p (p - 1) = Ok (of_list [1; p - 1]).
Proof.
  intros Hp. unfold getPowerCycle.
  assert (Z.to_nat p = Datatypes.S (Z.to_nat (p - 1))) as -> by lia.
  simpl.
  destruct (Z.eqb_spec (p - 1) 1) as [H | _]; [lia |].
  replace (mul p (p - 1) (p - 1)) with 1.
  - reflexivity.
  - rewrite mul_spec by lia.
    replace ((p - 1) * (p - 1)) with (1 + (p - 2) * p) by ring.
    rewrite Z.mod_add, Z.mod_small by lia. reflexivity.
Qed.

(** C1, on the domain of order two.  [p - 1] is the primitive square root
    of unity of an odd modulus and its power cycle is [[1, p - 1]]; on it
    the evaluation of a polynomial [[a, b]] raises a [TypeError] in the
    base case of [fastFF], so the round trip returns nothing. *)
Theorem roundtrip_order_two (p a b : Z) :
  2 < p ->
  getPowerCycle p (p - 1) = Ok (of_list [1; p - 1]) /\
  evalPolyAtRoots p (of_list [a; b]) (of_list [1; p - 1])
    = Throw mixed_types /\
  (roots <- getPowerCycle p (p - 1) ;;
   ys <- evalPolyAtRoots p (of_list [a; b]) roots ;;
   interpolateRoots p roots ys) = Throw mixed_types.
Proof.
  intros Hp. rewrite (getPowerCycle_minus_one p Hp).
  repeat split.
Qed.

Lemma roundtrip_order_two_witness :
  getPowerCycle 17 (17 - 1) = Ok (of_list [1; 17 - 1]) /\
  evalPolyAtRoots 17 (of_list [3; 5]) (of_list [1; 17 - 1])
    = Throw mixed_types /\
  (roots <- getPowerCycle 17 (17 - 1) ;;
   ys <- evalPolyAtRoots 17 (of_list [3; 5]) roots ;;
   interpolateRoots 17 roots ys) = Throw mixed_types.
Proof. apply (roundtrip_order_two 17 3 5). lia. Defined.

(** ** Batch inversion *)

Lemma firstn_snoc {A : Type} (d : A) (v : list A) : forall i,
  (i < length v)%nat -> firstn (S i) v = firstn i v ++ [nth i v d].
Proof.
  induction v as [| x v IH]; intros i Hi; simpl in Hi; [lia |].
  destruct i as [| i]; [reflexivity |].
  change (x :: firstn (S i) v = x :: (firstn i v ++ [nth i v d])).
  rewrite IH by lia. reflexivity.
Qed.

Lemma get_of_list_inside (v : list Z) (i : nat) :
  (i < length v)%nat -> get (of_list v) i = Some (nth i v 0).
Proof.
  intros Hi. rewrite get_of_list. apply nth_error_nth'. exact Hi.
Qed.

Section BatchInversion.

Variable p : Z.
Hypothesis p_prime : Z.prime p.

Let p_gt_1 : 1 < p := prime_gt_1 p p_prime.
Let p_pos : 0 < p := Z.lt_trans 0 1 p Z.lt_0_1 p_gt_1.

Lemma prime_mul_nonzero (a b : Z) :
  a mod p <> 0 -> b mod p <> 0 -> (a * b) mod p <> 0.
Proof.
  intros Ha Hb H. apply Z.mod_divide in H; [| lia].
  apply (Z.divide_prime_mul _ _ _ p_prime) in H as [H | H];
    apply Z.mod0_divide in H; contradiction.
Qed.

Lemma inverse_unique (x w w' : Z) :
  0 <= w < p -> 0 <= w' < p ->
  (x * w) mod p = 1 -> (x * w') mod p = 1 -> w = w'.
Proof.
  intros Hw Hw' E E'.
  assert (w mod p = w' mod p) as H.
  { transitivity ((w * (x * w')) mod p).
    - rewrite <- Z.mul_mod_idemp_r, E', Z.mul_1_r by lia. reflexivity.
    - replace (w * (x * w')) with (w' * (x * w)) by ring.
      rewrite <- Z.mul_mod_idemp_r, E, Z.mul_1_r by lia. reflexivity. }
  rewrite !Z.mod_small in H by lia. exact H.
Qed.

(** [inverse_of] characterises the result of [inv] on field elements. *)
Lemma inv_inverse_of (x w : Z) :
  0 <= x < p -> inverse_of p x w -> inv p x = Ok w.
Proof.
  intros Hx [[-> ->] | [Hw E]]; [reflexivity |].
  assert (x <> 0) as Hnz.
  { intros ->. rewrite Z.mul_0_l, Z.mod_0_l in E by lia. discriminate. }
  destruct (inv_total p p_pos x) as (y & Ey & Hy).
  rewrite Ey. f_equal.
  apply (inverse_unique x); try assumption.
  apply (inv_correct p p_pos x y p_gt_1); [| exact Ey].
  apply prime_coprime_reduced; [exact p_prime | lia].
Qed.

Lemma nz_unit (x : Z) : 0 <= x < p -> 0 < nz x < p.
Proof. unfold nz. destruct (Z.eqb_spec x 0); lia. Qed.

Lemma prefix_succ (v : list Z) (i : nat) :
  (i < length v)%nat ->
  prefix p v (S i) = (prefix p v i * nz (nth i v 0)) mod p.
Proof.
  intros Hi. unfold prefix.
  rewrite (firstn_snoc 0) by exact Hi.
  rewrite fold_left_app. reflexivity.
Qed.

Lemma prefix_unit (v : list Z) :
  Forall (fun x => 0 <= x < p) v ->
  forall i, (i <= length v)%nat -> 0 < prefix p v i < p.
Proof.
  intros Hv. induction i as [| i IH]; intros Hi.
  - unfold prefix. simpl. lia.
  - rewrite prefix_succ by lia.
    specialize (IH ltac:(lia)).
    assert (0 < nz (nth i v 0) < p) as Hn.
    { apply nz_unit. apply (proj1 (Forall_forall _ v) Hv).
      apply nth_In. lia. }
    pose proof (Z.mod_pos_bound (prefix p v i * nz (nth i v 0)) p p_pos).
    assert ((prefix p v i * nz (nth i v 0)) mod p <> 0); [| lia].
    apply prime_mul_nonzero; rewrite Z.mod_small; lia.
Qed.

Lemma or_one_slot (v : list Z) (i : nat) :
  (i < length v)%nat -> or_one (get (of_list v) i) = nz (nth i v 0).
Proof. intros Hi. rewrite get_of_list_inside by exact Hi. reflexivity. Qed.

Lemma truthy_slot (v : list Z) (i : nat) :
  (i < length v)%nat ->
  truthy (get (of_list v) i) = negb (nth i v 0 =? 0).
Proof. intros Hi. rewrite get_of_list_inside by exact Hi. reflexivity. Qed.

(** The slots of the result, one by one. *)
Lemma invVectorElements_slots (v : list Z) :
  Forall (fun x => 0 <= x < p) v ->
  exists out, invVectorElements p (of_list v) = Ok out /\
    length out = length v /\
    forall j, (j < length v)%nat ->
      exists w, get out j = Some w /\ inverse_of p (nth j v 0) w.
Proof.
  intros Hv. unfold invVectorElements. cbv zeta.
  rewrite length_of_list. set (n := length v).
  for_up_with (fun (i : nat) (s : array * Z) =>
    length (fst s) = n /\
    (forall j, (j < i)%nat -> get (fst s) j = Some (prefix p v j)) /\
    snd s = prefix p v i).
  - simpl. split; [apply length_new_Array |]. split; [| reflexivity].
    intros j Hj. lia.
  - intros i s Hi (Hl & Hg & Hs). eexists. split; [reflexivity |].
    cbn [fst snd]. split; [rewrite length_set by lia; exact Hl |]. split.
    + intros j Hj. destruct (Nat.eq_dec i j) as [<- | Hne].
      * rewrite get_set_same, Hs. reflexivity.
      * rewrite get_set_other by exact Hne. apply Hg. lia.
    + rewrite mod_spec, or_one_slot, Hs, prefix_succ by (fold n; lia).
      reflexivity.
  - destruct H as (Hl & Hg & Hs). simpl in Hg, Hs.
    assert (0 < prefix p v n < p) as Hu by (apply prefix_unit; auto).
    destruct (inv_total p p_pos (snd s)) as (inv0 & E0 & R0).
    rewrite E0. cbn [bind].
    assert ((prefix p v n * inv0) mod p = 1) as I0.
    { rewrite <- Hs. apply (inv_correct p p_pos _ _ p_gt_1); [| exact E0].
      rewrite Hs. apply prime_coprime_reduced; [exact p_prime | lia]. }
    for_down_with (fun (i : nat) (s : array * Z) =>
      length (fst s) = n /\
      (forall j, (j < i)%nat -> get (fst s) j = Some (prefix p v j)) /\
      (forall j, (i <= j < n)%nat ->
         exists w, get (fst s) j = Some w /\ inverse_of p (nth j v 0) w) /\
      0 <= snd s < p /\ (prefix p v i * snd s) mod p = 1).
    + cbn [fst snd]. repeat split; try assumption; try lia.
    + intros i t Hi (Tl & Tlow & Thigh & Tr & Ti).
      assert (0 <= nth i v 0 < p) as Hx
        by (apply (proj1 (Forall_forall _ v) Hv), nth_In; exact Hi).
      assert (0 < prefix p v i < p) as Hpi by (apply prefix_unit; auto; lia).
      rewrite prefix_succ in Ti by exact Hi.
      rewrite Z.mul_mod_idemp_l in Ti by lia.
      rewrite truthy_slot, or_one_slot by exact Hi. unfold rd.
      rewrite (Tlow i) by lia. unfold nz in *.
      destruct (Z.eqb_spec (nth i v 0) 0) as [Ez | Enz]; cbn [negb operand bind];
        (eexists; split; [reflexivity |]); cbn [fst snd];
        (split; [rewrite length_set by lia; exact Tl |]);
        (split; [intros j Hj; rewrite get_set_other by lia; apply Tlow; lia |]).
      * split; [| split; [apply mod_range, p_pos |]].
        -- intros j Hj. destruct (Nat.eq_dec i j) as [<- | Hne].
           ++ rewrite get_set_same. eexists. split; [reflexivity |].
              left. split; [exact Ez | apply mod_small; lia].
           ++ rewrite get_set_other by exact Hne. apply Thigh. lia.
        -- rewrite mul_spec, Z.mul_mod_idemp_r by lia.
           etransitivity; [| exact Ti]. f_equal. ring.
      * split; [| split; [apply mod_range, p_pos |]].
        -- intros j Hj. destruct (Nat.eq_dec i j) as [<- | Hne].
           ++ rewrite get_set_same. eexists. split; [reflexivity |].
              right. split; [apply mod_range, p_pos |].
              rewrite mod_spec, Z.mul_mod_idemp_r by lia.
              etransitivity; [| exact Ti]. f_equal. ring.
           ++ rewrite get_set_other by exact Hne. apply Thigh. lia.
        -- rewrite mul_spec, Z.mul_mod_idemp_r by lia.
           etransitivity; [| exact Ti]. f_equal. ring.
    + destruct H as (Tl & _ & Thigh & _).
      eexists. split; [reflexivity |]. split; [exact Tl |].
      intros j Hj. apply Thigh. lia.
Qed.

End BatchInversion.

(** An array whose slots are filled is the image of the list of their
    values. *)
Lemma arr_filled (a : array) (R : nat -> Z -> Prop) :
  (forall j, (j < length a)%nat -> exists w, get a j = Some w /\ R j w) ->
  exists l, a = of_list l /\ length l = length a /\
            forall j, (j < length a)%nat -> R j (nth j l 0).
Proof.
  intros H.
  exists (map (fun o => match o with Some w => w | None => 0 end) a).
  split; [| split].
  - apply arr_ext; [rewrite length_of_list, length_map; reflexivity |].
    intros j Hj. destruct (H j Hj) as (w & E & _).
    rewrite E, get_of_list, nth_error_map, (nth_error_nth' a None Hj).
    unfold get in E. rewrite E. reflexivity.
  - apply length_map.
  - intros j Hj. destruct (H j Hj) as (w & E & Hr).
    pose proof (map_nth (fun o => match o with Some w => w | None => 0 end)
                  a None j) as M.
    cbv beta in M. rewrite M. unfold get in E. rewrite E. exact Hr.
Qed.

(** C2.  For a prime modulus and a vector [v] of field elements,
    [invVectorElements(v)] returns a vector [w] of the same length with
    [w[i] = inv(v[i])] at every index; a zero entry gives a zero entry and
    no error. *)
Theorem invVectorElements_spec (p : Z) (v : list Z) :
  Z.prime p -> Forall (fun x => 0 <= x < p) v ->
  exists w, invVectorElements p (of_list v) = Ok (of_list w) /\
    length w = length v /\
    forall i, (i < length v)%nat ->
      inv p (nth i v 0) = Ok (nth i w 0) /\
      (nth i v 0 = 0 -> nth i w 0 = 0).
Proof.
  intros Hp Hv.
  destruct (invVectorElements_slots p Hp v Hv) as (out & E & Hl & Hs).
  destruct (arr_filled out (fun j w => inverse_of p (nth j v 0) w))
    as (w & -> & Hlw & Hw).
  { rewrite Hl. exact Hs. }
  exists w. split; [exact E |]. split; [congruence |].
  intros i Hi. rewrite <- Hl in Hi. specialize (Hw i Hi).
  assert (0 <= nth i v 0 < p) as Hx.
  { apply (proj1 (Forall_forall _ v) Hv), nth_In. congruence. }
  split; [apply inv_inverse_of; assumption |].
  intros Hz. destruct Hw as [[_ Hw] | [_ Hw]]; [exact Hw |].
  rewrite Hz, Z.mul_0_l, Z.mod_0_l in Hw by (pose proof (prime_gt_1 p Hp); lia).
  discriminate.
Qed.

Lemma invVectorElements_spec_witness :
  exists w, invVectorElements 7 (of_list [3; 0; 5]) = Ok (of_list w) /\
    length w = length [3; 0; 5] /\
    forall i, (i < length [3; 0; 5])%nat ->
      inv 7 (nth i [3; 0; 5] 0) = Ok (nth i w 0) /\
      (nth i [3; 0; 5] 0 = 0 -> nth i w 0 = 0).
Proof.
  apply (invVectorElements_spec 7 [3; 0; 5]).
  - apply primeb_sound. vm_compute. reflexivity.
  - repeat constructor; lia.
Defined.

(** ** Polynomials over the integers, and their roots modulo a prime *)

Lemma peval_app (c d : list Z) (x : Z) :
  peval (c ++ d) x = peval c x + x ^ Z.of_nat (length c) * peval d x.
Proof.
  induction c as [| a c IH].
  - cbn [app peval length]. change (Z.of_nat 0) with 0.
    rewrite Z.pow_0_r. ring.
  - cbn [app peval length]. rewrite IH, Nat2Z.inj_succ, Z.pow_succ_r by lia.
    ring.
Qed.

Lemma peval_zeros (n : nat) (x : Z) : peval (repeat 0 n) x = 0.
Proof. induction n as [| n IH]; cbn [repeat peval]; [| rewrite IH]; ring. Qed.

Lemma quot_linear_spec (r : Z) (c : list Z) (x : Z) :
  peval c x = (x - r) * peval (quot_linear r c) x + peval c r.
Proof.
  induction c as [| a c IH]; [cbn [peval quot_linear]; ring |].
  destruct c as [| b c]; [cbn [peval quot_linear]; ring |].
  change (quot_linear r (a :: b :: c))
    with (peval (b :: c) r :: quot_linear r (b :: c)).
  change (peval (a :: b :: c) x) with (a + x * peval (b :: c) x).
  change (peval (a :: b :: c) r) with (a + r * peval (b :: c) r).
  change (peval (peval (b :: c) r :: quot_linear r (b :: c)) x)
    with (peval (b :: c) r + x * peval (quot_linear r (b :: c)) x).
  rewrite IH at 1. ring.
Qed.

Lemma quot_linear_length (r : Z) (c : list Z) :
  length (quot_linear r c) = (length c - 1)%nat.
Proof.
  induction c as [| a c IH]; [reflexivity |].
  destruct c as [| b c]; [reflexivity |].
  change (quot_linear r (a :: b :: c))
    with (peval (b :: c) r :: quot_linear r (b :: c)).
  cbn [length] in *. rewrite IH. lia.
Qed.

Lemma quot_linear_last (r : Z) (c : list Z) :
  (2 <= length c)%nat -> last (quot_linear r c) 0 = last c 0.
Proof.
  induction c as [| a c IH]; intros Hl; [simpl in Hl; lia |].
  destruct c as [| b c]; [simpl in Hl; lia |].
  change (quot_linear r (a :: b :: c))
    with (peval (b :: c) r :: quot_linear r (b :: c)).
  destruct c as [| d c].
  - simpl. ring.
  - specialize (IH ltac:(simpl; lia)).
    change (quot_linear r (b :: d :: c))
      with (peval (d :: c) r :: quot_linear r (d :: c)) in *.
    change (last (a :: b :: d :: c) 0) with (last (b :: d :: c) 0).
    rewrite <- IH. reflexivity.
Qed.

Section Roots.

Variable p : Z.
Hypothesis p_prime : Z.prime p.

Let p_gt_1 : 1 < p := prime_gt_1 p p_prime.

Lemma prime_cancel (a b : Z) :
  a mod p <> 0 -> (a * b) mod p = 0 -> b mod p = 0.
Proof.
  intros Ha H. destruct (Z.eq_dec (b mod p) 0) as [E | E]; [exact E |].
  exfalso. exact (prime_mul_nonzero p p_prime a b Ha E H).
Qed.

Lemma distinct_residues (r s : Z) :
  0 <= r < p -> 0 <= s < p -> r <> s -> (s - r) mod p <> 0.
Proof.
  intros Hr Hs Hne H. apply Z.mod_divide in H; [| lia].
  destruct H as [k Hk].
  assert (k = 0) by nia. subst k. lia.
Qed.

(** A polynomial of degree [n] whose leading coefficient is not zero
    modulo [p] has at most [n] roots among the residues. *)
Lemma roots_bound (n : nat) : forall c rs,
  length c = S n -> (last c 0) mod p <> 0 ->
  NoDup rs ->
  (forall r, In r rs -> 0 <= r < p /\ peval c r mod p = 0) ->
  (length rs <= n)%nat.
Proof.
  induction n as [| n IH]; intros c rs Hl Hlead Hnd Hroots.
  - destruct c as [| a [| b c]]; try discriminate.
    destruct rs as [| r rs]; [simpl; lia |].
    destruct (Hroots r (or_introl eq_refl)) as [_ H].
    simpl in H, Hlead. rewrite Z.mul_0_r, Z.add_0_r in H. contradiction.
  - destruct rs as [| r rs]; [simpl; lia |].
    cbn [length]. apply le_n_S.
    inversion Hnd as [| r' rs' Hnotin Hnd']; subst.
    destruct (Hroots r (or_introl eq_refl)) as [Hr Hr0].
    apply (IH (quot_linear r c)).
    + rewrite quot_linear_length, Hl. lia.
    + rewrite quot_linear_last by lia. exact Hlead.
    + exact Hnd'.
    + intros s Hs. destruct (Hroots s (or_intror Hs)) as [Hsr Hs0].
      split; [exact Hsr |].
      apply (prime_cancel (s - r)).
      * apply distinct_residues; try assumption. intros ->. contradiction.
      * rewrite <- Z.mod_mod by lia.
        rewrite <- (Z.add_0_r ((s - r) * peval (quot_linear r c) s)).
        rewrite <- Hr0 at 1.
        rewrite Z.add_mod_idemp_r by lia.
        rewrite <- quot_linear_spec, Hs0. apply Z.mod_0_l. lia.
Qed.

End Roots.

(** ** Roots of unity *)

Lemma bounded_all_or_witness (P : Z -> Prop)
  (dec : forall j, {P j} + {~ P j}) (n : nat) : forall lo,
  (forall j, lo <= j < lo + Z.of_nat n -> P j) \/
  (exists j, lo <= j < lo + Z.of_nat n /\ ~ P j).
Proof.
  induction n as [| n IH]; intros lo.
  - left. intros j Hj. lia.
  - destruct (dec lo) as [Hlo | Hlo].
    + destruct (IH (lo + 1)) as [Hall | (j & Hj & Hn)].
      * left. intros j Hj.
        destruct (Z.eq_dec j lo) as [-> | Hne]; [exact Hlo |].
        apply Hall. lia.
      * right. exists j. split; [lia | exact Hn].
    + right. exists lo. split; [lia | exact Hlo].
Qed.

Section RootOfUnity.

Variable p : Z.
Hypothesis p_prime : Z.prime p.
Hypothesis p_odd_prime : 2 < p.

Let p_gt_1 : 1 < p := prime_gt_1 p p_prime.

Lemma odd_prime_odd : p mod 2 = 1.
Proof.
  pose proof (Z.mod_pos_bound p 2 ltac:(lia)) as B.
  destruct (Z.eq_dec (p mod 2) 0) as [E | E]; [| lia].
  exfalso. apply Z.mod_divide in E; [| lia].
  pose proof p_prime as [_ H]. apply (H 2); [lia | exact E].
Qed.

Lemma half_order : 2 * ((p - 1) / 2) = p - 1.
Proof.
  pose proof odd_prime_odd as H.
  pose proof (Z.div_mod p 2 ltac:(lia)) as E.
  replace ((p - 1) / 2) with (p / 2); [lia |].
  apply (Z.div_unique (p - 1) 2 (p / 2) 0); lia.
Qed.

(** Euler: the power [(p - 1) / 2] of a unit is [1] or [p - 1]. *)
Lemma half_power_cases (i : Z) :
  0 < i < p ->
  i ^ ((p - 1) / 2) mod p = 1 \/ i ^ ((p - 1) / 2) mod p = p - 1.
Proof.
  intros Hi. set (g := i ^ ((p - 1) / 2) mod p).
  assert (0 <= g < p) as Hg by (apply Z.mod_pos_bound; lia).
  assert ((g * g) mod p = 1) as Hsq.
  { unfold g. rewrite <- Z.mul_mod, <- Z.pow_add_r by
      (try apply Z.div_pos; lia).
    replace ((p - 1) / 2 + (p - 1) / 2) with (p - 1)
      by (pose proof half_order; lia).
    apply Z.fermat_nz; [exact p_prime |].
    rewrite Z.mod_small; lia. }
  assert (((g - 1) * (g + 1)) mod p = 0) as Hprod.
  { replace ((g - 1) * (g + 1)) with (g * g - 1) by ring.
    rewrite Zminus_mod, Hsq, (Z.mod_small 1) by lia. reflexivity. }
  destruct (Z.eq_dec ((g - 1) mod p) 0) as [E | E].
  - left. apply Z.mod_divide in E as [k Hk]; [| lia].
    assert (k = 0) by nia. lia.
  - right. apply (prime_cancel p p_prime _ _ E) in Hprod.
    apply Z.mod_divide in Hprod as [k Hk]; [| lia].
    assert (k = 1) by nia. lia.
Qed.

(** Some unit is not a root of [x^((p-1)/2) - 1]. *)
Lemma half_power_not_all_one :
  exists j, 2 <= j < p /\ j ^ ((p - 1) / 2) mod p <> 1.
Proof.
  set (m := (p - 1) / 2).
  assert (0 < m) as Hm.
  { unfold m. pose proof half_order. lia. }
  destruct (bounded_all_or_witness (fun j => j ^ m mod p = 1)
              (fun j => Z.eq_dec (j ^ m mod p) 1) (Z.to_nat (p - 1)) 1)
    as [Hall | (j & Hj & Hn)].
  - exfalso.
    set (rs := map Z.of_nat (seq 1 (Z.to_nat (p - 1)))).
    set (c := ((-1) :: repeat 0 (Z.to_nat m - 1)) ++ [1]).
    assert (length rs <= Z.to_nat m)%nat as Hb.
    { apply (roots_bound p p_prime (Z.to_nat m) c rs).
      - unfold c. rewrite length_app. cbn [length].
        rewrite repeat_length. lia.
      - unfold c. rewrite last_last, Z.mod_small; lia.
      - unfold rs. apply Finite.Injective_map_NoDup.
        + intros a b H. lia.
        + apply seq_NoDup.
      - intros r Hr. unfold rs in Hr. apply in_map_iff in Hr as (k & <- & Hk).
        apply in_seq in Hk. split; [lia |].
        unfold c. rewrite peval_app. cbn [peval length].
        rewrite peval_zeros, repeat_length.
        replace (-1 + Z.of_nat k * 0 +
                 Z.of_nat k ^ Z.of_nat (S (Z.to_nat m - 1)) *
                   (1 + Z.of_nat k * 0))
          with (Z.of_nat k ^ m - 1).
        + rewrite Zminus_mod, Hall, (Z.mod_small 1) by lia. reflexivity.
        + replace (Z.of_nat (S (Z.to_nat m - 1))) with m by lia. ring. }
    unfold rs in Hb. rewrite length_map, length_seq in Hb.
    unfold m in Hb. pose proof half_order. lia.
  - exists j. split; [| exact Hn].
    destruct (Z.eq_dec j 1) as [-> | Hne]; [| lia].
    exfalso. apply Hn. rewrite Z.pow_1_l, Z.mod_small; lia.
Qed.

Lemma root_search_two (fuel : nat) : forall i,
  2 <= i <= p -> (Z.to_nat (p - i) <= fuel)%nat ->
  (exists j, i <= j < p /\ j ^ ((p - 1) / 2) mod p <> 1) ->
  root_search p fuel 2 i = Ok (p - 1).
Proof.
  induction fuel as [| fuel IH]; intros i Hi Hf (j & Hj & Hn).
  - lia.
  - cbn [root_search]. destruct (Z.ltb_spec i p) as [Hlt | Hge]; [| lia].
    change (Z.of_nat 2) with 2.
    rewrite Z.quot_div_nonneg by lia.
    rewrite (exp_nonneg p p_gt_1) by
      (try apply Z.div_pos; try lia; rewrite Z.mod_small; lia).
    cbn [bind].
    assert ((p - 1) ^ 2 mod p = 1) as Hsq.
    { replace ((p - 1) ^ 2) with (1 + (p - 2) * p) by ring.
      rewrite Z.mod_add, Z.mod_small; lia. }
    destruct (half_power_cases i ltac:(lia)) as [E | E]; rewrite E.
    + rewrite !(exp_nonneg p p_gt_1) by (try lia; rewrite Z.mod_small; lia).
      cbn [bind]. rewrite Z.pow_1_l, Z.mod_small by lia. cbn [Z.eqb Pos.eqb].
      change (Z.quot 2 2) with 1.
      rewrite !(exp_nonneg p p_gt_1) by (try lia; rewrite Z.mod_small; lia).
      cbn [bind]. rewrite Z.pow_1_l, Z.mod_small by lia. cbn [Z.eqb Pos.eqb negb].
      apply IH; [lia | lia |].
      exists j. split; [| exact Hn].
      destruct (Z.eq_dec j i) as [-> | Hne]; [contradiction | lia].
    + rewrite (exp_nonneg p p_gt_1) by (try lia; rewrite Z.mod_small; lia).
      cbn [bind]. rewrite Hsq. cbn [Z.eqb Pos.eqb].
      change (Z.quot 2 2) with 1.
      rewrite (exp_nonneg p p_gt_1) by (try lia; rewrite Z.mod_small; lia).
      cbn [bind]. rewrite Z.pow_1_r, Z.mod_small by lia.
      destruct (Z.eqb_spec (p - 1) 1) as [H | H]; [lia | reflexivity].
Qed.

(** For the order one the test [exp(g, order / 2) !== 1] compares
    [g^0] with [1]: no candidate passes it. *)
Lemma root_search_one (fuel : nat) : forall i,
  2 <= i <= p -> (Z.to_nat (p - i) <= fuel)%nat ->
  root_search p fuel 1 i =
    Throw (Error "Root of Unity for order 1 was not found").
Proof.
  induction fuel as [| fuel IH]; intros i Hi Hf.
  - assert (i = p) by lia. subst i. cbn [root_search].
    rewrite Z.ltb_irrefl. reflexivity.
  - cbn [root_search]. destruct (Z.ltb_spec i p) as [Hlt | Hge];
      [| reflexivity].
    change (Z.of_nat 1) with 1. rewrite Z.quot_1_r.
    rewrite (exp_nonneg p p_gt_1) by (try lia; rewrite Z.mod_small; lia).
    cbn [bind].
    rewrite Z.fermat_nz by (try exact p_prime; rewrite Z.mod_small; lia).
    rewrite (exp_nonneg p p_gt_1) by (try lia; rewrite Z.mod_small; lia).
    cbn [bind]. rewrite Z.pow_1_l, Z.mod_small by lia. cbn [Z.eqb Pos.eqb].
    change (Z.quot 1 2) with 0.
    rewrite (exp_nonneg p p_gt_1) by (try lia; rewrite Z.mod_small; lia).
    cbn [bind]. rewrite Z.pow_0_r, Z.mod_small by lia.
    cbn [Z.eqb Pos.eqb negb].
    apply IH; lia.
Qed.

End RootOfUnity.

(** C7, as far as the search goes.  For every odd prime modulus [p],
    [getRootOfUnity(2)] returns [p - 1]. *)
Theorem getRootOfUnity_two (p : Z) :
  Z.prime p -> 2 < p -> getRootOfUnity p 2 = Ok (p - 1).
Proof.
  intros Hp Hodd. unfold getRootOfUnity.
  change (isPowerOf2 2) with true. cbn [negb].
  apply (root_search_two p Hp Hodd); [lia | lia |].
  destruct (half_power_not_all_one p Hp Hodd) as (j & Hj & Hn).
  exists j. split; [lia | exact Hn].
Qed.

Lemma getRootOfUnity_two_witness : getRootOfUnity 17 2 = Ok (17 - 1).
Proof.
  apply (getRootOfUnity_two 17).
  - apply primeb_sound. vm_compute. reflexivity.
  - lia.
Defined.

(** For every odd prime modulus, [getRootOfUnity(1)] finds no root. *)
Lemma getRootOfUnity_one (p : Z) :
  Z.prime p -> 2 < p ->
  getRootOfUnity p 1 =
    Throw (Error "Root of Unity for order 1 was not found").
Proof.
  intros Hp Hodd. unfold getRootOfUnity.
  change (isPowerOf2 1) with true. cbn [negb].
  apply (root_search_one p Hp Hodd); lia.
Qed.

(** [getRootOfUnity_one] at the modulus 17. *)
Lemma getRootOfUnity_one_witness :
  getRootOfUnity 17 1 =
    Throw (Error "Root of Unity for order 1 was not found").
Proof.
  apply (getRootOfUnity_one 17).
  - apply primeb_sound. vm_compute. reflexivity.
  - lia.
Defined.

(** C7, as stated, fails: in GF(2), where [p - 1 = 1] has order one, the
    search for a root of order two has no candidate and raises. *)
Lemma getRootOfUnity_claim_fails :
  ~ (forall p, Z.prime p ->
       getRootOfUnity p 1 = Ok 1 /\ getRootOfUnity p 2 = Ok (p - 1)).
Proof.
  intros H. destruct (H 2 Z.prime_2) as [_ E]. discriminate E.
Qed.

(** ** The vanishing polynomial *)

Lemma shift_sub_length (p prev : Z) (c : list Z) (x : Z) :
  length (shift_sub p prev c x) = S (length c).
Proof.
  revert prev. induction c as [| a c IH]; intros prev; cbn [shift_sub length];
    [| rewrite IH]; reflexivity.
Qed.

Lemma shift_sub_nth (p : Z) (c : list Z) (x : Z) : forall prev t,
  nth t (shift_sub p prev c x) 0 =
    if (t <? length c)%nat
    then (nth t (prev :: c) 0 - nth t c 0 * x) mod p
    else nth t (prev :: c) 0.
Proof.
  induction c as [| a c IH]; intros prev t.
  - destruct t as [| [| t]]; reflexivity.
  - destruct t as [| t]; [reflexivity |].
    cbn [shift_sub]. change (nth (S t) (?h :: ?l) 0) with (nth t l 0).
    rewrite IH. reflexivity.
Qed.

Lemma shift_sub_last (p : Z) (c : list Z) (x : Z) : forall prev,
  last (shift_sub p prev c x) 0 = last (prev :: c) 0.
Proof.
  induction c as [| a c IH]; intros prev; [reflexivity |].
  cbn [shift_sub].
  change (last (prev :: a :: c) 0) with (last (a :: c) 0).
  rewrite <- IH.
  destruct (shift_sub p a c x) eqn:E; [| reflexivity].
  pose proof (shift_sub_length p a c x) as H. rewrite E in H. discriminate.
Qed.

Lemma shift_sub_peval (p : Z) (c : list Z) (x X : Z) : 0 < p -> forall prev,
  peval (shift_sub p prev c x) X mod p = (prev + (X - x) * peval c X) mod p.
Proof.
  intros Hp. induction c as [| a c IH]; intros prev.
  - cbn [shift_sub peval]. f_equal. ring.
  - cbn [shift_sub peval].
    rewrite Z.add_mod_idemp_l by lia.
    rewrite <- Z.add_mod_idemp_r, <- Z.mul_mod_idemp_r, IH by lia.
    rewrite Z.mul_mod_idemp_r, Z.add_mod_idemp_r by lia.
    f_equal. ring.
Qed.

Lemma vanishing_snoc (p : Z) (xs : list Z) (x : Z) :
  vanishing p (xs ++ [x]) = mul_linear p (vanishing p xs) x.
Proof. unfold vanishing. rewrite fold_left_app. reflexivity. Qed.

Lemma vanishing_length (p : Z) (xs : list Z) :
  length (vanishing p xs) = S (length xs).
Proof.
  induction xs as [| x xs IH] using rev_ind; [reflexivity |].
  rewrite vanishing_snoc, length_app. unfold mul_linear.
  rewrite shift_sub_length, IH. simpl. lia.
Qed.

Lemma vanishing_last (p : Z) (xs : list Z) : last (vanishing p xs) 0 = 1.
Proof.
  induction xs as [| x xs IH] using rev_ind; [reflexivity |].
  rewrite vanishing_snoc. unfold mul_linear. rewrite shift_sub_last.
  destruct (vanishing p xs) eqn:E; [| exact IH].
  pose proof (vanishing_length p xs) as H. rewrite E in H. discriminate.
Qed.

Lemma vanishing_peval (p : Z) (xs : list Z) (X : Z) :
  0 < p -> peval (vanishing p xs) X mod p = vprod xs X mod p.
Proof.
  intros Hp. induction xs as [| x xs IH] using rev_ind.
  - unfold vanishing, vprod. cbn [fold_left peval]. f_equal. ring.
  - rewrite vanishing_snoc. unfold mul_linear, vprod.
    rewrite shift_sub_peval, fold_left_app by exact Hp.
    cbn [fold_left]. fold (vprod xs X).
    rewrite Z.add_0_l, <- Z.mul_mod_idemp_r, IH, Z.mul_mod_idemp_r by lia.
    f_equal. ring.
Qed.

Lemma vprod_root (xs : list Z) (X : Z) : In X xs -> vprod xs X = 0.
Proof.
  unfold vprod. induction xs as [| x xs IH] using rev_ind; [contradiction |].
  intros H. rewrite fold_left_app. cbn [fold_left].
  apply in_app_or in H as [H | [-> | []]].
  - rewrite IH by exact H. ring.
  - ring.
Qed.

Lemma nth_last {A : Type} (l : list A) (d : A) :
  nth (length l - 1) l d = last l d.
Proof.
  induction l as [| a l IH]; [reflexivity |].
  destruct l as [| b l]; [reflexivity |].
  change (last (a :: b :: l) d) with (last (b :: l) d). rewrite <- IH.
  replace (length (a :: b :: l) - 1)%nat with (S (length (b :: l) - 1))
    by (cbn [length]; lia).
  reflexivity.
Qed.

Lemma rd_of_list (v : list Z) (i : nat) :
  (i < length v)%nat -> rd (of_list v) i = Ok (nth i v 0).
Proof.
  intros Hi. unfold rd. rewrite get_of_list_inside by exact Hi. reflexivity.
Qed.

Lemma rd_Some (a : array) (i : nat) (v : Z) :
  get a i = Some v -> rd a i = Ok v.
Proof. unfold rd. intros ->. reflexivity. Qed.

(** [zpoly] returns the coefficients of the vanishing polynomial. *)
Lemma zpoly_spec (p : Z) (xs : list Z) :
  0 < p -> zpoly p (of_list xs) = Ok (of_list (vanishing p xs)).
Proof.
  intros Hp. unfold zpoly. cbv zeta. rewrite length_of_list.
  set (k := length xs).
  for_up_with (fun (i : nat) (result : array) =>
    length result = S k /\
    forall t, (t <= i)%nat ->
      get result (k - i + t) = Some (nth t (vanishing p (firstn i xs)) 0)).
  - split.
    + rewrite length_set; rewrite length_new_Array; lia.
    + intros t Ht. assert (t = 0%nat) by lia. subst t.
      rewrite Nat.sub_0_r, Nat.add_0_r, get_set_same. reflexivity.
  - intros i result Hi [Hl Hg].
    set (pp := (k - 1 - i)%nat).
    set (cur := vanishing p (firstn i xs)) in *.
    set (x := nth i xs 0).
    set (new := mul_linear p cur x).
    assert (vanishing p (firstn (S i) xs) = new) as Hnew.
    { rewrite (firstn_snoc 0) by (fold k; lia). apply vanishing_snoc. }
    assert (length cur = S i) as Hcur.
    { unfold cur. rewrite vanishing_length, length_firstn. fold k. lia. }
    for_up_with (fun (j : nat) (result : array) =>
      length result = S k /\
      (forall t, (pp <= t < j)%nat ->
         get result t = Some (nth (t - pp) new 0)) /\
      (forall t, (j <= t <= k)%nat ->
         get result t = Some (nth (t - pp) (0 :: cur) 0))).
    + split; [rewrite length_set by lia; exact Hl |]. split.
      * intros t Ht. lia.
      * intros t Ht. destruct (Nat.eq_dec t pp) as [-> | Hne].
        -- rewrite get_set_same, Nat.sub_diag. reflexivity.
        -- rewrite get_set_other by lia.
           replace t with (k - i + (t - pp - 1))%nat at 1 by lia.
           rewrite Hg by lia.
           replace (t - pp - 1)%nat with (Nat.pred (t - pp)) by lia.
           destruct (t - pp)%nat eqn:D; [lia | reflexivity].
    + intros j r Hj (Rl & Rnew & Rold).
      rewrite (rd_Some r j _ (Rold j ltac:(lia))). cbn [bind].
      rewrite (rd_Some r (j + 1) _ (Rold (j + 1)%nat ltac:(lia))). cbn [bind].
      rewrite rd_of_list by (fold k; lia). cbn [bind].
      eexists. split; [reflexivity |].
      split; [rewrite length_set by lia; exact Rl |]. split.
      * intros t Ht. destruct (Nat.eq_dec t j) as [-> | Hne].
        -- rewrite get_set_same. f_equal. unfold new, mul_linear.
           rewrite shift_sub_nth, mod_spec by exact Hp.
           replace (j - pp <? length cur)%nat with true
             by (symmetry; apply Nat.ltb_lt; lia).
           replace (j + 1 - pp)%nat with (S (j - pp)) by lia. reflexivity.
        -- rewrite get_set_other by lia. apply Rnew. lia.
      * intros t Ht. rewrite get_set_other by lia. apply Rold. lia.
    + destruct H as (Rl & Rnew & Rold).
      eexists. split; [reflexivity |]. split; [exact Rl |].
      intros t Ht. rewrite Hnew.
      destruct (Nat.eq_dec t (S i)) as [-> | Hne].
      * rewrite Rold by lia. f_equal. unfold new, mul_linear.
        rewrite shift_sub_nth.
        replace (S i <? length cur)%nat with false
          by (symmetry; apply Nat.ltb_ge; lia).
        f_equal. lia.
      * rewrite Rnew by lia. f_equal. f_equal. lia.
  - destruct H as [Hl Hg]. f_equal. apply arr_ext.
    + rewrite length_of_list, vanishing_length. exact Hl.
    + intros j Hj. rewrite Hl in Hj.
      specialize (Hg j ltac:(lia)).
      replace (k - (0 + k) + j)%nat with j in Hg by lia.
      rewrite Hg, get_of_list_inside by (rewrite vanishing_length; fold k; lia).
      replace (0 + k)%nat with k by lia.
      unfold k. rewrite firstn_all. reflexivity.
Qed.

(** ** Division by a linear factor *)

Lemma skipn_cons_nth {A : Type} (d : A) (l : list A) : forall t,
  (t < length l)%nat -> skipn t l = nth t l d :: skipn (S t) l.
Proof.
  induction l as [| a l IH]; intros t Ht; [simpl in Ht; lia |].
  destruct t as [| t]; [reflexivity |].
  cbn [skipn nth]. apply IH. simpl in Ht. lia.
Qed.

Lemma quot_linear_nth (c : Z) (R : list Z) : forall t,
  (t + 1 < length R)%nat ->
  nth t (quot_linear c R) 0 = peval (skipn (S t) R) c.
Proof.
  induction R as [| a R IH]; intros t Ht; [simpl in Ht; lia |].
  destruct R as [| b R]; [simpl in Ht; lia |].
  change (quot_linear c (a :: b :: R))
    with (peval (b :: R) c :: quot_linear c (b :: R)).
  destruct t as [| t]; [reflexivity |].
  cbn [nth]. rewrite IH by (cbn [length] in *; lia). reflexivity.
Qed.

Lemma lastNonZeroIndex_top (R : list Z) :
  last R 0 <> 0 ->
  lastNonZeroIndex (of_list R) = Some (length R - 1)%nat.
Proof.
  intros Hlast. unfold lastNonZeroIndex. rewrite length_of_list.
  destruct R as [| a R]; [contradiction |].
  cbn [length lastNonZeroIndex_below].
  rewrite get_of_list_inside by (cbn [length]; lia).
  replace (length R) with (length (a :: R) - 1)%nat at 1
    by (cbn [length]; lia).
  rewrite nth_last.
  destruct (last (a :: R) 0) eqn:E; [contradiction | |]; f_equal; lia.
Qed.

Lemma inv_loop_exit (fuel : nat) (lm hm low high : Z) :
  low <= 1 -> inv_loop fuel lm hm low high = Ok lm.
Proof.
  intros H. destruct fuel; cbn [inv_loop];
    destruct (Z.gtb_spec low 1); (lia || reflexivity).
Qed.

Lemma inv_one (p : Z) : 1 < p -> inv p 1 = Ok 1.
Proof.
  intros Hp. unfold inv. cbn [Z.eqb].
  rewrite mod_small by lia. rewrite inv_loop_exit by lia.
  cbn [bind]. rewrite mod_small by lia. reflexivity.
Qed.

(** [divPolys] by [x - c] on a polynomial whose last coefficient is not
    zero: the quotient of the synthetic division, reduced. *)
Lemma divPolys_linear (p c : Z) (R : list Z) :
  1 < p -> (2 <= length R)%nat -> last R 0 <> 0 ->
  divPolys p (of_list R) (of_list [- c; 1]) =
    Ok (of_list (map (fun z => z mod p) (quot_linear c R))).
Proof.
  intros Hp Hlen Hlast. unfold divPolys.
  rewrite lastNonZeroIndex_top by exact Hlast.
  rewrite length_of_list.
  change (length (of_list [- c; 1])) with 2%nat.
  change (lastNonZeroIndex (of_list [- c; 1])) with (Some 1%nat).
  destruct (Nat.ltb_spec (length R) 2) as [H | _]; [lia |].
  destruct (Nat.ltb_spec (length R - 1 + 1) 1) as [H | _]; [lia |].
  cbv zeta.
  set (k := (length R - 1 + 1 - 1)%nat).
  assert (length R = S k) as Hk by (unfold k; lia).
  set (H := fun t => peval (skipn t R) c).
  assert (forall t, (t <= k)%nat -> H t = nth t R 0 + c * H (S t)) as Hrec.
  { intros t Ht. unfold H. rewrite (skipn_cons_nth 0 R t) by lia.
    reflexivity. }
  for_down_with (fun (d : nat) (s : array * array) =>
    length (fst s) = S k /\ length (snd s) = k /\
    (forall t, (d <= t < k)%nat -> get (snd s) t = Some (H (S t) mod p)) /\
    (exists v, get (fst s) d = Some v /\ v mod p = H d mod p) /\
    (forall t, (t < d)%nat -> get (fst s) t = Some (nth t R 0))).
  - cbn [fst snd]. rewrite length_of_list, length_new_Array.
    split; [exact Hk |]. split; [reflexivity |]. split; [intros t Ht; lia |].
    split.
    + exists (nth k R 0). rewrite get_of_list_inside by lia.
      split; [reflexivity |]. rewrite Hrec by lia.
      unfold H. rewrite skipn_all2 by lia. cbn [peval]. f_equal. ring.
    + intros t Ht. apply get_of_list_inside. lia.
  - intros d s Hd (La & Lr & Hres & (v & Hv & Hvm) & Hlow).
    change (rd (of_list [- c; 1]) 1) with (Ok 1). cbn [bind].
    rewrite inv_one by exact Hp. cbn [bind].
    rewrite (rd_Some _ (1 + d) v) by exact Hv. cbn [bind for_down].
    rewrite (rd_Some _ (d + 1) v) by (rewrite Nat.add_comm; exact Hv).
    cbn [bind]. change (rd (of_list [- c; 1]) 1) with (Ok 1). cbn [bind].
    rewrite (rd_Some _ (d + 0) (nth d R 0)).
    2:{ rewrite get_set_other by lia. rewrite Nat.add_0_r. apply Hlow. lia. }
    cbn [bind]. change (rd (of_list [- c; 1]) 0) with (Ok (- c)). cbn [bind].
    eexists. split; [reflexivity |]. cbn [fst snd].
    rewrite !mul_spec, !mod_spec by lia. rewrite Z.mul_1_r.
    split; [rewrite !length_set; rewrite ?length_set; lia |].
    split; [rewrite length_set; lia |]. split; [| split].
    + intros t Ht. destruct (Nat.eq_dec t d) as [-> | Hne].
      * rewrite get_set_same, Hvm. reflexivity.
      * rewrite get_set_other by lia. apply Hres. lia.
    + eexists. rewrite Nat.add_0_r, get_set_same. split; [reflexivity |].
      rewrite Z.mod_mod, Hrec by lia.
      transitivity ((nth d R 0 + c * v) mod p).
      * replace (nth d R 0 - - c * (v mod p))
          with (nth d R 0 + c * (v mod p)) by ring.
        rewrite <- Z.add_mod_idemp_r, Z.mul_mod_idemp_r, Z.add_mod_idemp_r
          by lia.
        reflexivity.
      * rewrite <- Z.add_mod_idemp_r, <- Z.mul_mod_idemp_r, Hvm by lia.
        rewrite Z.mul_mod_idemp_r, Z.add_mod_idemp_r by lia.
        reflexivity.
    + intros t Ht. rewrite !get_set_other by lia. apply Hlow. lia.
  - destruct H0 as (La & Lr & Hres & _). f_equal. apply arr_ext.
    + rewrite length_of_list, length_map, quot_linear_length. lia.
    + intros j Hj. rewrite Hres by lia.
      rewrite get_of_list_inside
        by (rewrite length_map, quot_linear_length; lia).
      f_equal.
      pose proof (map_nth (fun z => z mod p) (quot_linear c R) 0 j) as M.
      cbv beta in M. change (0 mod p) with 0 in M.
      rewrite M, quot_linear_nth by lia. reflexivity.
Qed.

(** ** Evaluation at a point *)

Lemma evalPolyAt_loop_spec (p x : Z) (c : list Z) :
  1 < p -> evalPolyAt_loop p (of_list c) x = Ok (peval c x mod p).
Proof.
  intros Hp. unfold evalPolyAt_loop. rewrite length_of_list.
  for_up_with (fun (i : nat) (s : Z * Z) =>
    fst s = peval (firstn i c) x mod p /\ snd s = x ^ Z.of_nat i mod p).
  - cbn [fst snd firstn peval]. split; [reflexivity |].
    change (Z.of_nat 0) with 0. rewrite Z.pow_0_r, Z.mod_small; lia.
  - intros i s Hi [Hy Hx]. rewrite rd_of_list by lia. cbn [bind].
    eexists. split; [reflexivity |]. cbn [fst snd].
    rewrite mod_spec, mul_spec, Hy, Hx by lia. split.
    + rewrite (firstn_snoc 0) by lia.
      rewrite peval_app, length_firstn. cbn [peval].
      replace (Nat.min i (length c)) with i by lia.
      rewrite Z.add_mod_idemp_l by lia.
      rewrite <- Z.add_mod_idemp_r, Z.mul_mod_idemp_r, Z.add_mod_idemp_r
        by lia.
      f_equal. ring.
    + rewrite Z.mul_mod_idemp_l, Nat2Z.inj_succ, Z.pow_succ_r by lia.
      f_equal. ring.
  - destruct H as [Hy _]. rewrite Hy.
    replace (0 + length c)%nat with (length c) by lia.
    rewrite firstn_all. reflexivity.
Qed.

(** [evalPolyAt] on a polynomial with reduced coefficients: its value at
    the point, reduced. *)
Lemma evalPolyAt_spec (p x : Z) (c : list Z) :
  1 < p -> Forall (fun z => 0 <= z < p) c ->
  evalPolyAt p (of_list c) x = Ok (Some (peval c x mod p)).
Proof.
  intros Hp Hc.
  destruct c as [| c0 [| c1 [| c2 [| c3 [| c4 [| c5 c]]]]]].
  - reflexivity.
  - cbn. inversion Hc as [| ? ? H0 _]; subst.
    rewrite Z.mul_0_r, Z.add_0_r, Z.mod_small by lia. reflexivity.
  - cbn [evalPolyAt of_list map length rd get nth operand bind peval].
    rewrite mod_spec by lia. do 2 f_equal. f_equal. ring.
  - cbn [evalPolyAt of_list map length rd get nth operand bind peval].
    rewrite mod_spec by lia. do 2 f_equal. f_equal. ring.
  - cbn [evalPolyAt of_list map length rd get nth operand bind peval].
    rewrite mod_spec by lia. do 2 f_equal. f_equal. ring.
  - cbn [evalPolyAt of_list map length rd get nth operand bind peval].
    rewrite mod_spec by lia. do 2 f_equal. f_equal. ring.
  - set (l := c0 :: c1 :: c2 :: c3 :: c4 :: c5 :: c).
    change (evalPolyAt p (of_list l) x)
      with (y <- evalPolyAt_loop p (of_list l) x ;; Ok (Some y)).
    rewrite evalPolyAt_loop_spec by exact Hp. reflexivity.
Qed.

(** ** Lagrange interpolation *)

Lemma sumto_zero (p : Z) (f : nat -> Z) : 0 < p -> forall n,
  (forall i, (i < n)%nat -> f i mod p = 0) -> sumto f n mod p = 0.
Proof.
  intros Hp. induction n as [| n IH]; intros Hz; [reflexivity |].
  cbn [sumto]. rewrite Z.add_mod, IH, Hz by (try lia; auto).
  reflexivity.
Qed.

Lemma sumto_single (p : Z) (f : nat -> Z) (m : nat) : 0 < p -> forall n,
  (m < n)%nat ->
  (forall i, (i < n)%nat -> i <> m -> f i mod p = 0) ->
  sumto f n mod p = f m mod p.
Proof.
  intros Hp. induction n as [| n IH]; intros Hm Hz; [lia |].
  cbn [sumto]. destruct (Nat.eq_dec m n) as [-> | Hne].
  - assert (sumto f n mod p = 0) as H0
      by (apply sumto_zero; [exact Hp | intros i Hi; apply Hz; lia]).
    rewrite Z.add_mod, H0, Z.add_0_l, Z.mod_mod by lia. reflexivity.
  - assert (sumto f n mod p = f m mod p) as H1
      by (apply IH; [lia | intros i Hi; apply Hz; lia]).
    rewrite Z.add_mod, H1, (Hz n), Z.add_0_r, Z.mod_mod by lia.
    reflexivity.
Qed.

Lemma peval_map_mod (p : Z) (c : list Z) (X : Z) :
  0 < p -> peval (map (fun z => z mod p) c) X mod p = peval c X mod p.
Proof.
  intros Hp. induction c as [| a c IH]; [reflexivity |].
  cbn [map peval]. rewrite Z.add_mod_idemp_l by lia.
  rewrite <- Z.add_mod_idemp_r, <- Z.mul_mod_idemp_r, IH by lia.
  rewrite Z.mul_mod_idemp_r, Z.add_mod_idemp_r by lia. reflexivity.
Qed.

(** A coefficientwise [a' = a + s * n] modulo [p] carries over to the
    values. *)
Lemma peval_axpy (p s X : Z) : 0 < p -> forall a a' n : list Z,
  length a' = length a -> length n = length a ->
  (forall j, (j < length a)%nat ->
     nth j a' 0 mod p = (nth j a 0 + nth j n 0 * s) mod p) ->
  peval a' X mod p = (peval a X + s * peval n X) mod p.
Proof.
  intros Hp. induction a as [| x a IH]; intros a' n Ha' Hn Hj.
  - destruct a'; [| discriminate]. destruct n; [| discriminate].
    cbn [peval]. f_equal. ring.
  - destruct a' as [| x' a']; [discriminate |].
    destruct n as [| y n]; [discriminate |].
    cbn [peval].
    assert (peval a' X mod p = (peval a X + s * peval n X) mod p) as IH'.
    { apply IH; [simpl in *; lia | simpl in *; lia |].
      intros j Hlt. apply (Hj (S j)). simpl. lia. }
    pose proof (Hj 0%nat ltac:(simpl; lia)) as H0. cbn [nth] in H0.
    rewrite <- Z.add_mod_idemp_l, H0, Z.add_mod_idemp_l by lia.
    rewrite <- Z.add_mod_idemp_r, <- Z.mul_mod_idemp_r, IH' by lia.
    rewrite Z.mul_mod_idemp_r, Z.add_mod_idemp_r by lia.
    f_equal. ring.
Qed.

Lemma last_of_map {A B : Type} (f : A -> B) (l : list A) (d : A) :
  last (map f l) (f d) = f (last l d).
Proof.
  induction l as [| a l IH]; [reflexivity |].
  destruct l as [| b l]; [reflexivity |].
  change (last (map f (a :: b :: l)) (f d))
    with (last (map f (b :: l)) (f d)).
  rewrite IH. reflexivity.
Qed.

Lemma map_Some_repeat (k : nat) :
  repeat (Some 0) k = of_list (repeat 0 k).
Proof. unfold of_list. rewrite map_repeat. reflexivity. Qed.

Section Lagrange.

Variable p : Z.
Hypothesis p_prime : Z.prime p.
Variable xs : list Z.
Hypothesis xs_distinct : NoDup xs.
Hypothesis xs_reduced : Forall (fun x => 0 <= x < p) xs.

Let p_gt_1 : 1 < p := prime_gt_1 p p_prime.
Let p_pos : 0 < p := Z.lt_trans 0 1 p Z.lt_0_1 p_gt_1.
Let k : nat := length xs.

Lemma xs_nth_reduced (i : nat) : (i < k)%nat -> 0 <= nth i xs 0 < p.
Proof.
  intros Hi. apply (proj1 (Forall_forall _ xs) xs_reduced), nth_In, Hi.
Qed.

Lemma numerator_length (i : nat) : length (numerator p xs i) = k.
Proof.
  unfold numerator.
  rewrite length_map, quot_linear_length, vanishing_length.
  unfold k. lia.
Qed.

Lemma numerator_reduced (i : nat) :
  Forall (fun z => 0 <= z < p) (numerator p xs i).
Proof.
  unfold numerator. apply Forall_forall. intros z Hz.
  apply in_map_iff in Hz as (y & <- & _). apply Z.mod_pos_bound, p_pos.
Qed.

Lemma numerator_factor (i : nat) (X : Z) :
  (i < k)%nat ->
  ((X - nth i xs 0) * peval (numerator p xs i) X) mod p = vprod xs X mod p.
Proof.
  intros Hi. unfold numerator.
  rewrite <- Z.mul_mod_idemp_r, peval_map_mod, Z.mul_mod_idemp_r by lia.
  rewrite <- (vanishing_peval p xs X p_pos).
  rewrite (quot_linear_spec (nth i xs 0) (vanishing p xs) X).
  rewrite <- (Z.add_mod_idemp_r _ (peval _ (nth i xs 0))) by lia.
  rewrite (vanishing_peval p xs (nth i xs 0) p_pos).
  rewrite vprod_root by (apply nth_In; exact Hi).
  rewrite Z.mod_0_l, Z.add_0_r by lia. reflexivity.
Qed.

Lemma numerator_vanishes (i m : nat) :
  (i < k)%nat -> (m < k)%nat -> i <> m ->
  peval (numerator p xs i) (nth m xs 0) mod p = 0.
Proof.
  intros Hi Hm Hne.
  apply (prime_cancel p p_prime (nth m xs 0 - nth i xs 0)).
  - apply distinct_residues; try (apply xs_nth_reduced; assumption);
      [exact p_prime |].
    intros E. apply Hne.
    apply (proj1 (NoDup_nth xs 0) xs_distinct i m Hi Hm E).
  - rewrite numerator_factor by exact Hi.
    rewrite vprod_root by (apply nth_In; exact Hm).
    apply Z.mod_0_l. lia.
Qed.

Lemma numerator_last (i : nat) :
  (i < k)%nat -> last (numerator p xs i) 0 = 1.
Proof.
  intros Hi. unfold numerator.
  pose proof (last_of_map (fun z => z mod p)
                (quot_linear (nth i xs 0) (vanishing p xs)) 0) as M.
  cbv beta in M. change (0 mod p) with 0 in M.
  rewrite M, quot_linear_last, vanishing_last.
  - apply Z.mod_small. lia.
  - rewrite vanishing_length. fold k. lia.
Qed.

Lemma denominator_nonzero (i : nat) :
  (i < k)%nat -> peval (numerator p xs i) (nth i xs 0) mod p <> 0.
Proof.
  intros Hi Hz.
  assert (length xs <= k - 1)%nat as Hb; [| fold k in Hb; lia].
  apply (roots_bound p p_prime (k - 1) (numerator p xs i) xs).
  - rewrite numerator_length. lia.
  - rewrite numerator_last, Z.mod_small by (auto; lia). lia.
  - exact xs_distinct.
  - intros r Hr. split; [apply (proj1 (Forall_forall _ xs) xs_reduced), Hr |].
    apply (In_nth xs r 0) in Hr as (m & Hm & <-).
    destruct (Nat.eq_dec i m) as [<- | Hne]; [exact Hz |].
    apply numerator_vanishes; assumption.
Qed.

End Lagrange.

Lemma nth_map_seq (f : nat -> Z) (k j : nat) :
  (j < k)%nat -> nth j (map f (seq 0 k)) 0 = f j.
Proof.
  intros Hj.
  rewrite (nth_indep _ 0 (f 0%nat)) by (rewrite length_map, length_seq; lia).
  rewrite map_nth, seq_nth by lia. reflexivity.
Qed.

Lemma Forall_of_nth (P : Z -> Prop) (l : list Z) :
  (forall j, (j < length l)%nat -> P (nth j l 0)) -> Forall P l.
Proof.
  intros H. apply Forall_forall. intros x Hx.
  apply (In_nth l x 0) in Hx as (j & Hj & <-). apply H, Hj.
Qed.

(** C5.  For a prime modulus, pairwise distinct field elements [xs] and
    field elements [ys] of the same number, [interpolate(xs, ys)] returns
    a polynomial [L] with [evalPolyAt(L, xs[i]) = ys[i]] at every index. *)
Theorem interpolate_spec (p : Z) (xs ys : list Z) :
  Z.prime p ->
  NoDup xs ->
  Forall (fun x => 0 <= x < p) xs ->
  Forall (fun y => 0 <= y < p) ys ->
  length ys = length xs ->
  exists L, interpolate p (of_list xs) (of_list ys) = Ok (of_list L) /\
    length L = length xs /\
    forall i, (i < length xs)%nat ->
      evalPolyAt p (of_list L) (nth i xs 0) = Ok (Some (nth i ys 0)).
Proof.
  intros Hp Hnd Hxs Hys Hlen.
  pose proof (prime_gt_1 p Hp) as H1. assert (0 < p) as H0 by lia.
  set (k := length xs).
  set (NUM := numerator p xs).
  set (D := fun i => peval (NUM i) (nth i xs 0) mod p).
  assert (forall i, length (NUM i) = k) as HNl
    by (intros i; apply numerator_length).
  assert (forall i, Forall (fun z => 0 <= z < p) (NUM i)) as HNr
    by (intros i; apply numerator_reduced; exact Hp).
  unfold interpolate.
  rewrite !length_of_list, Hlen, Nat.eqb_refl. cbn [negb]. fold k.
  rewrite zpoly_spec by exact H0. cbn [bind].
  for_up_with (fun (i : nat) (nums : arr array) =>
    length nums = k /\
    forall i', (i' < i)%nat -> get nums i' = Some (of_list (NUM i'))).
  { split; [apply length_new_Array | intros i' Hi'; lia]. }
  { intros i nums Hi [Hl Hg].
    rewrite rd_of_list by (fold k; lia). cbn [bind].
    rewrite divPolys_linear;
      [| exact H1 | rewrite vanishing_length; fold k; lia
       | rewrite vanishing_last; lia].
    cbn [bind]. eexists. split; [reflexivity |].
    split; [rewrite length_set by lia; exact Hl |].
    intros i' Hi'. destruct (Nat.eq_dec i i') as [<- | Hne].
    - rewrite get_set_same. reflexivity.
    - rewrite get_set_other by exact Hne. apply Hg. lia. }
  destruct H as [Hnl Hng]. rename s into numerators. clear E.
  replace (0 + k)%nat with k in Hng by lia.
  for_up_with (fun (i : nat) (den : array) =>
    length den = k /\
    forall i', (i' < i)%nat -> get den i' = Some (D i')).
  { split; [apply length_new_Array | intros i' Hi'; lia]. }
  { intros i den Hi [Hl Hg]. unfold row.
    rewrite Hng by lia. cbn [bind].
    rewrite rd_of_list by (fold k; lia). cbn [bind].
    rewrite evalPolyAt_spec by (try exact H1; apply HNr). cbn [bind].
    eexists. split; [reflexivity |].
    split; [rewrite length_set_slot_inside by lia; exact Hl |].
    intros i' Hi'. destruct (Nat.eq_dec i i') as [<- | Hne].
    - rewrite get_set_slot_same. reflexivity.
    - rewrite get_set_slot_other by exact Hne. apply Hg. lia. }
  destruct H as [Hdl Hdg]. clear E.
  replace (0 + k)%nat with k in Hdg by lia.
  assert (s = of_list (map D (seq 0 k))) as ->.
  { rewrite <- Hdl. apply arr_of_values. intros j Hj. apply Hdg. lia. }
  destruct (invVectorElements_slots p Hp (map D (seq 0 k)))
    as (out & E & Hol & Hos).
  { apply Forall_of_nth. intros j Hj.
    rewrite length_map, length_seq in Hj. rewrite nth_map_seq by exact Hj.
    apply Z.mod_pos_bound, H0. }
  rewrite E. cbn [bind]. clear E.
  rewrite length_map, length_seq in Hol, Hos.
  destruct (arr_filled out
    (fun j w => 0 <= w < p /\ (D j * w) mod p = 1)) as (W & -> & HWl & HW).
  { rewrite Hol. intros j Hj. destruct (Hos j Hj) as (w & Ew & Hw).
    exists w. split; [exact Ew |].
    rewrite nth_map_seq in Hw by exact Hj.
    destruct Hw as [[Hz _] | Hw]; [| exact Hw].
    exfalso. revert Hz.
    apply (denominator_nonzero p Hp xs Hnd Hxs j Hj). }
  rewrite Hol in HWl, HW. clear Hol Hos.
  set (S := fun i => (nth i ys 0 * nth i W 0) mod p).
  for_up_with (fun (i : nat) (result : array) =>
    exists acc, result = of_list acc /\ length acc = k /\
      Forall (fun z => 0 <= z < p) acc /\
      forall X, peval acc X mod p =
                sumto (fun i' => S i' * peval (NUM i') X) i mod p).
  { exists (repeat 0 k). rewrite map_Some_repeat, repeat_length.
    split; [reflexivity |]. split; [reflexivity |]. split.
    - apply Forall_forall. intros z Hz. apply repeat_spec in Hz. lia.
    - intros X. rewrite peval_zeros. reflexivity. }
  { intros i result Hi (acc & -> & Hal & Har & Hav).
    rewrite rd_of_list by lia. cbn [bind].
    rewrite rd_of_list by lia. cbn [bind]. cbv zeta.
    rewrite (mod_spec p H0 (nth i ys 0 * nth i W 0)).
    change ((nth i ys 0 * nth i W 0) mod p) with (S i).
    for_up_with (fun (j : nat) (result : array) =>
      length result = k /\
      (forall t, (t < j)%nat ->
         exists v, get result t = Some v /\
           (0 <= v < p /\
            v mod p = (nth t acc 0 + nth t (NUM i) 0 * S i) mod p)) /\
      (forall t, (j <= t < k)%nat -> get result t = Some (nth t acc 0))).
    { rewrite length_of_list. split; [exact Hal |].
      split; [intros t Ht; lia |].
      intros t Ht. apply get_of_list_inside. lia. }
    { intros j r Hj (Rl & Rdone & Rrest). unfold row.
      rewrite Hng by lia. cbn [bind].
      rewrite !get_of_list_inside by (rewrite ?HNl; lia).
      cbn [truthy].
      destruct (Z.eqb_spec (nth j (NUM i) 0) 0) as [En | En];
        [| destruct (Z.eqb_spec (nth i ys 0) 0) as [Ey | Ey]];
        cbn [negb andb].
      - eexists. split; [reflexivity |]. split; [exact Rl |]. split.
        + intros t Ht. destruct (Nat.eq_dec t j) as [-> | Hne].
          * exists (nth j acc 0). split; [apply Rrest; lia |].
            split; [apply (proj1 (Forall_forall _ acc) Har), nth_In; lia |].
            rewrite En, Z.mul_0_l, Z.add_0_r. reflexivity.
          * apply Rdone. lia.
        + intros t Ht. apply Rrest. lia.
      - eexists. split; [reflexivity |]. split; [exact Rl |]. split.
        + intros t Ht. destruct (Nat.eq_dec t j) as [-> | Hne].
          * exists (nth j acc 0). split; [apply Rrest; lia |].
            split; [apply (proj1 (Forall_forall _ acc) Har), nth_In; lia |].
            unfold S. rewrite Ey, Z.mul_0_l, Z.mod_0_l by lia.
            rewrite Z.mul_0_r, Z.add_0_r. reflexivity.
          * apply Rdone. lia.
        + intros t Ht. apply Rrest. lia.
      - rewrite (rd_Some r j _ (Rrest j ltac:(lia))). cbn [bind].
        rewrite rd_of_list by (rewrite HNl; lia). cbn [bind].
        eexists. split; [reflexivity |].
        split; [rewrite length_set by lia; exact Rl |]. split.
        + intros t Ht. destruct (Nat.eq_dec t j) as [-> | Hne].
          * eexists. rewrite get_set_same. split; [reflexivity |].
            split; [apply mod_range, H0 |].
            rewrite mod_spec, Z.mod_mod by lia. reflexivity.
          * rewrite get_set_other by lia. apply Rdone. lia.
        + intros t Ht. rewrite get_set_other by lia. apply Rrest. lia. }
    destruct H as (Rl & Rdone & _).
    replace (0 + k)%nat with k in Rdone by lia.
    destruct (arr_filled s
      (fun t v => 0 <= v < p /\
         v mod p = (nth t acc 0 + nth t (NUM i) 0 * S i) mod p))
      as (acc' & -> & Hl' & Hacc').
    { rewrite Rl. exact Rdone. }
    rewrite Rl in Hl', Hacc'.
    eexists. split; [reflexivity |]. exists acc'.
    split; [reflexivity |]. split; [exact Hl' |]. split.
    - apply Forall_of_nth. intros j Hj. apply Hacc'. lia.
    - intros X. cbn [sumto].
      rewrite (peval_axpy p (S i) X H0 acc acc' (NUM i));
        [| lia | rewrite HNl; lia | intros j Hj; apply Hacc'; lia].
      rewrite <- Z.add_mod_idemp_l, Hav, Z.add_mod_idemp_l by lia.
      reflexivity. }
  destruct H as (L & -> & HLl & HLr & HLv). clear E.
  exists L. split; [reflexivity |]. split; [exact HLl |].
  intros m Hm. rewrite evalPolyAt_spec by assumption.
  do 2 f_equal. rewrite HLv.
  replace (0 + k)%nat with k by lia.
  rewrite (sumto_single p _ m H0 k Hm).
  - destruct (HW m Hm) as [_ HWm]. unfold S, D in *.
    rewrite Z.mul_mod_idemp_l in HWm by lia.
    rewrite Z.mul_mod_idemp_l by lia.
    replace (nth m ys 0 * nth m W 0 * peval (NUM m) (nth m xs 0))
      with (nth m ys 0 * (peval (NUM m) (nth m xs 0) * nth m W 0)) by ring.
    rewrite <- Z.mul_mod_idemp_r, HWm, Z.mul_1_r by lia.
    apply Z.mod_small.
    apply (proj1 (Forall_forall _ ys) Hys), nth_In. lia.
  - intros i Hi Hne.
    rewrite <- Z.mul_mod_idemp_r by lia.
    unfold NUM. rewrite (numerator_vanishes p Hp xs Hnd Hxs i m Hi Hm Hne).
    rewrite Z.mul_0_r. apply Z.mod_0_l. lia.
Qed.

Lemma interpolate_spec_witness :
  exists L, interpolate 7 (of_list [2; 3; 5]) (of_list [4; 2; 4])
              = Ok (of_list L) /\
    length L = length [2; 3; 5] /\
    forall i, (i < length [2; 3; 5])%nat ->
      evalPolyAt 7 (of_list L) (nth i [2; 3; 5] 0)
        = Ok (Some (nth i [4; 2; 4] 0)).
Proof.
  apply (interpolate_spec 7 [2; 3; 5] [4; 2; 4]).
  - apply primeb_sound. vm_compute. reflexivity.
  - repeat constructor; simpl; intuition lia.
  - repeat constructor; lia.
  - repeat constructor; lia.
  - reflexivity.
Defined.

(** ** Primitive roots of unity of order a power of two *)

Lemma odd_part (j : nat) :
  (0 < j)%nat -> exists a b, j = (2 ^ a * (2 * b + 1))%nat.
Proof.
  induction j as [j IH] using lt_wf_ind. intros Hj.
  destruct (Nat.Even_or_Odd j) as [[h Hh] | [h Hh]].
  - destruct (IH h ltac:(lia) ltac:(lia)) as (a & b & E).
    exists (S a), b. rewrite Nat.pow_succ_r', Hh, E. lia.
  - exists 0%nat, h. rewrite Hh. simpl. lia.
Qed.

Lemma pow_nat_add (u : Z) (a b : nat) :
  u ^ Z.of_nat (a + b) = u ^ Z.of_nat a * u ^ Z.of_nat b.
Proof. rewrite Nat2Z.inj_add, Z.pow_add_r by lia. reflexivity. Qed.

Lemma pow_nat_mul (u : Z) (a b : nat) :
  u ^ Z.of_nat (a * b) = (u ^ Z.of_nat a) ^ Z.of_nat b.
Proof. rewrite Nat2Z.inj_mul, Z.pow_mul_r by lia. reflexivity. Qed.

Lemma square_one_cases (p g : Z) :
  Z.prime p -> 0 <= g < p -> (g * g) mod p = 1 -> g = 1 \/ g = p - 1.
Proof.
  intros Hp Hg Hsq. pose proof (prime_gt_1 p Hp) as H1.
  assert (((g - 1) * (g + 1)) mod p = 0) as Hprod.
  { replace ((g - 1) * (g + 1)) with (g * g - 1) by ring.
    rewrite Zminus_mod, Hsq, (Z.mod_small 1) by lia. reflexivity. }
  destruct (Z.eq_dec ((g - 1) mod p) 0) as [E | E].
  - left. apply Z.mod_divide in E as [c Hc]; [| lia].
    assert (c = 0) by nia. lia.
  - right. apply (prime_cancel p Hp _ _ E) in Hprod.
    apply Z.mod_divide in Hprod as [c Hc]; [| lia].
    assert (c = 1) by nia. lia.
Qed.

Lemma minus_one_odd_power (p : Z) (b : nat) :
  2 < p -> (p - 1) ^ Z.of_nat (2 * b + 1) mod p = p - 1.
Proof.
  intros Hp.
  assert ((p - 1) ^ 2 mod p = 1) as Hsq.
  { replace ((p - 1) ^ 2) with (1 + (p - 2) * p) by ring.
    rewrite Z.mod_add, Z.mod_small; lia. }
  rewrite pow_nat_add, pow_nat_mul. change (Z.of_nat 2) with 2.
  change (Z.of_nat 1) with 1. rewrite Z.pow_1_r.
  rewrite <- Z.mul_mod_idemp_l, <- Z.mod_pow_l, Hsq by lia.
  rewrite Z.pow_1_l, (Z.mod_small 1 p) by lia.
  rewrite Z.mul_1_l. apply Z.mod_small. lia.
Qed.

(** The geometric sum. *)
Lemma geometric_sum (z : Z) (c : nat) :
  (z - 1) * sumto (fun j => z ^ Z.of_nat j) c = z ^ Z.of_nat c - 1.
Proof.
  induction c as [| c IH]; [cbn [sumto]; simpl; ring |].
  cbn [sumto]. rewrite Z.mul_add_distr_l, IH, Nat2Z.inj_succ, Z.pow_succ_r
    by lia.
  ring.
Qed.

Lemma mod_mul_congr (p a b b' : Z) :
  0 < p -> b mod p = b' mod p -> (a * b) mod p = (a * b') mod p.
Proof.
  intros Hp H.
  rewrite <- (Z.mul_mod_idemp_r a b), H, Z.mul_mod_idemp_r by lia.
  reflexivity.
Qed.

Lemma mod_add_congr (p a a' b b' : Z) :
  0 < p -> a mod p = a' mod p -> b mod p = b' mod p ->
  (a + b) mod p = (a' + b') mod p.
Proof.
  intros Hp Ha Hb.
  rewrite Z.add_mod, Ha, Hb, <- Z.add_mod by lia. reflexivity.
Qed.

Lemma mod_sub_congr (p a a' b b' : Z) :
  0 < p -> a mod p = a' mod p -> b mod p = b' mod p ->
  (a - b) mod p = (a' - b') mod p.
Proof.
  intros Hp Ha Hb.
  rewrite Zminus_mod, Ha, Hb, <- Zminus_mod by lia. reflexivity.
Qed.

Lemma sumto_ext_mod (p : Z) (f g : nat -> Z) (c : nat) :
  0 < p ->
  (forall j, (j < c)%nat -> f j mod p = g j mod p) ->
  sumto f c mod p = sumto g c mod p.
Proof.
  intros Hp. induction c as [| c IH]; intros H; [reflexivity |].
  cbn [sumto]. rewrite Z.add_mod, IH, H, <- Z.add_mod by (auto; lia).
  reflexivity.
Qed.

(** ** The fast Fourier transform *)

Lemma sumto_ext (f g : nat -> Z) (c : nat) :
  (forall j, (j < c)%nat -> f j = g j) -> sumto f c = sumto g c.
Proof.
  induction c as [| c IH]; intros H; [reflexivity |].
  cbn [sumto]. rewrite IH, H by (auto; lia). reflexivity.
Qed.

Lemma sumto_scale (a : Z) (f : nat -> Z) (c : nat) :
  a * sumto f c = sumto (fun j => a * f j) c.
Proof.
  induction c as [| c IH]; cbn [sumto]; [ring |].
  rewrite <- IH. ring.
Qed.

Lemma sumto_add (f g : nat -> Z) (c : nat) :
  sumto f c + sumto g c = sumto (fun j => f j + g j) c.
Proof.
  induction c as [| c IH]; cbn [sumto]; [ring |].
  rewrite <- IH. ring.
Qed.

Lemma sumto_parity (f : nat -> Z) (h : nat) :
  sumto f (2 * h) =
    sumto (fun j => f (2 * j)%nat) h + sumto (fun j => f (2 * j + 1)%nat) h.
Proof.
  induction h as [| h IH]; [reflexivity |].
  replace (2 * S h)%nat with (S (S (2 * h))) by lia.
  cbn [sumto]. rewrite IH.
  replace (S (2 * h)) with (2 * h + 1)%nat by lia. ring.
Qed.

Lemma sumto_swap (F : nat -> nat -> Z) (a b : nat) :
  sumto (fun j => sumto (fun l => F j l) b) a =
  sumto (fun l => sumto (fun j => F j l) a) b.
Proof.
  induction a as [| a IH].
  - cbn [sumto]. induction b as [| b IHb]; cbn [sumto]; [| rewrite <- IHb];
      reflexivity.
  - cbn [sumto]. rewrite IH, sumto_add. reflexivity.
Qed.

Lemma length_powers (p u : Z) (n : nat) : length (powers p u n) = n.
Proof. unfold powers. rewrite length_map, length_seq. reflexivity. Qed.

Lemma nth_powers (p u : Z) (n j : nat) :
  (j < n)%nat -> nth j (powers p u n) 0 = u ^ Z.of_nat j mod p.
Proof.
  intros Hj. unfold powers.
  exact (nth_map_seq (fun j => u ^ Z.of_nat j mod p) n j Hj).
Qed.

Lemma powers_snoc (p u : Z) (n : nat) :
  powers p u (S n) = powers p u n ++ [u ^ Z.of_nat n mod p].
Proof. unfold powers. rewrite seq_S, map_app. reflexivity. Qed.

Lemma fastFF_unfold (p : Z) (fuel : nat) (values roots : array)
  (depth offset : nat) :
  fastFF p fuel values roots depth offset =
  let step := (2 ^ depth)%nat in
  let resultLength := (length roots / step)%nat in
  if (resultLength <=? 4)%nat then
    for_up 4 0
      (fun i result =>
         v0 <- rd values offset ;;
         r0 <- rd roots 0 ;;
         v1 <- rd values (offset + step) ;;
         r1 <- rd roots (i * step) ;;
         v2 <- rd values (offset + 2 * step) ;;
         r2 <- rd roots ((i * 2) mod 4 * step) ;;
         v3 <- rd values (offset + 3 * step) ;;
         r3 <- rd roots ((i * 3) mod 4 * step) ;;
         Ok (set result i
               (mod_ p (v0 * r0 + v1 * r1 + v2 * r2 + v3 * r3))))
      (new_Array 4)
  else
    match fuel with
    | O => Throw OutOfFuel
    | S fuel' =>
        even <- fastFF p fuel' values roots (depth + 1) offset ;;
        odd <- fastFF p fuel' values roots (depth + 1) (offset + step) ;;
        let halfLength := (resultLength / 2)%nat in
        for_up halfLength 0
          (fun i result =>
             y <- rd odd i ;;
             r <- rd roots (i * step) ;;
             let yTimesRoot := y * r in
             x <- rd even i ;;
             let result := set result i (add p x yTimesRoot) in
             Ok (set result (i + halfLength) (sub p x yTimesRoot)))
          (new_Array resultLength)
    end.
Proof. destruct fuel; reflexivity. Qed.

Lemma isPowerOf2_pow2 (m : nat) : isPowerOf2 (2 ^ m) = true.
Proof.
  unfold isPowerOf2. pose proof (Nat.pow_nonzero 2 m ltac:(lia)) as H.
  apply andb_true_iff. split; [apply Nat.ltb_lt; lia |].
  apply Nat.eqb_eq.
  replace (2 ^ m - 1)%nat with (Nat.ones m)
    by (rewrite Nat.ones_equiv; lia).
  rewrite Nat.land_ones. apply Nat.Div0.mod_same.
Qed.

Lemma pow2_pos (d : nat) : (0 < 2 ^ d)%nat.
Proof. pose proof (Nat.pow_nonzero 2 d). lia. Qed.

Lemma pow2_half (m : nat) : (0 < m)%nat -> (2 ^ m / 2 = 2 ^ (m - 1))%nat.
Proof.
  intros Hm. replace m with (S (m - 1)) at 1 by lia.
  rewrite Nat.pow_succ_r', Nat.mul_comm, Nat.div_mul; lia.
Qed.

Lemma pow2_double (m : nat) : (0 < m)%nat -> (2 ^ m = 2 * (2 ^ m / 2))%nat.
Proof.
  intros Hm. rewrite pow2_half by exact Hm.
  replace m with (S (m - 1)) at 1 by lia. apply Nat.pow_succ_r'.
Qed.

Section Unity.

Variable p : Z.
Hypothesis p_prime : Z.prime p.
Variable u : Z.
Variable m : nat.
Hypothesis m_pos : (0 < m)%nat.
Hypothesis u_unity : u ^ Z.of_nat (2 ^ m) mod p = 1.
Hypothesis u_primitive : u ^ Z.of_nat (2 ^ m / 2) mod p <> 1.

Let p_gt_1 : 1 < p := prime_gt_1 p p_prime.
Let n : nat := (2 ^ m)%nat.

Lemma order_half : (n / 2 = 2 ^ (m - 1))%nat.
Proof. apply pow2_half, m_pos. Qed.

Lemma order_double : (n = 2 * (n / 2))%nat.
Proof. apply pow2_double, m_pos. Qed.

Lemma order_pos : (0 < n)%nat.
Proof. apply pow2_pos. Qed.

(** The power [n / 2] of a primitive root is [-1]. *)
Lemma half_turn : u ^ Z.of_nat (n / 2) mod p = p - 1.
Proof.
  destruct (square_one_cases p (u ^ Z.of_nat (n / 2) mod p)) as [E | E].
  - exact p_prime.
  - apply Z.mod_pos_bound. lia.
  - rewrite <- Z.mul_mod, <- pow_nat_add by lia.
    replace (n / 2 + n / 2)%nat with n by (pose proof order_double; lia).
    exact u_unity.
  - contradiction.
  - exact E.
Qed.

Lemma odd_modulus : 2 < p.
Proof.
  pose proof half_turn as H. pose proof u_primitive as Hn.
  fold n in Hn. rewrite H in Hn. lia.
Qed.

Lemma unity_multiple (q : nat) : u ^ Z.of_nat (n * q) mod p = 1.
Proof.
  rewrite pow_nat_mul, <- Z.mod_pow_l. fold n in u_unity.
  rewrite u_unity, Z.pow_1_l, Z.mod_small by lia. reflexivity.
Qed.

(** Exponents count modulo the order. *)
Lemma unity_exponent_mod (e : nat) :
  u ^ Z.of_nat e mod p = u ^ Z.of_nat (e mod n) mod p.
Proof.
  pose proof order_pos.
  rewrite (Nat.div_mod_eq e n) at 1.
  rewrite pow_nat_add, <- Z.mul_mod_idemp_l, unity_multiple by lia.
  rewrite Z.mul_1_l. reflexivity.
Qed.

Lemma unity_exponent_eq (e e' : nat) :
  (e mod n = e' mod n)%nat ->
  u ^ Z.of_nat e mod p = u ^ Z.of_nat e' mod p.
Proof.
  intros H. rewrite (unity_exponent_mod e), (unity_exponent_mod e'), H.
  reflexivity.
Qed.

(** The order of a primitive root is exactly [n]. *)
Lemma order_exact (j : nat) :
  (0 < j < n)%nat -> u ^ Z.of_nat j mod p <> 1.
Proof.
  intros Hj Hone.
  destruct (odd_part j ltac:(lia)) as (a & b & E).
  assert (a < m)%nat as Ha.
  { apply (Nat.pow_lt_mono_r_iff 2); [lia |].
    fold n. assert (0 < 2 ^ a)%nat by (pose proof (Nat.pow_nonzero 2 a); lia).
    nia. }
  assert (u ^ Z.of_nat (j * 2 ^ (m - 1 - a)) mod p = 1) as H1.
  { rewrite pow_nat_mul, <- Z.mod_pow_l, Hone, Z.pow_1_l, Z.mod_small by lia.
    reflexivity. }
  replace (j * 2 ^ (m - 1 - a))%nat with (n / 2 * (2 * b + 1))%nat in H1.
  - rewrite pow_nat_mul, <- Z.mod_pow_l, half_turn in H1.
    rewrite minus_one_odd_power in H1 by apply odd_modulus.
    pose proof odd_modulus. lia.
  - rewrite order_half, E.
    replace (m - 1)%nat with (a + (m - 1 - a))%nat at 1 by lia.
    rewrite Nat.pow_add_r. lia.
Qed.

(** The order divides [p - 1]; in particular it is below [p]. *)
Lemma order_below_modulus : Z.of_nat n < p.
Proof.
  pose proof order_pos as Hn. pose proof odd_modulus as Hodd.
  assert (u mod p <> 0) as Hu.
  { intros H0. pose proof u_unity as H1. fold n in H1.
    rewrite <- Z.mod_pow_l, H0, Z.pow_0_l, Z.mod_0_l in H1 by lia.
    discriminate. }
  pose proof (Z.fermat_nz p u p_prime Hu) as Hf.
  replace (p - 1) with (Z.of_nat (Z.to_nat (p - 1))) in Hf by lia.
  rewrite unity_exponent_mod in Hf.
  destruct (Nat.eq_dec (Z.to_nat (p - 1) mod n) 0) as [E | E].
  - apply Nat.Div0.mod_divides in E as [c Hc].
    assert (c <> 0)%nat by (intros ->; lia). nia.
  - exfalso. apply (order_exact (Z.to_nat (p - 1) mod n)); [| exact Hf].
    pose proof (Nat.mod_upper_bound (Z.to_nat (p - 1)) n). lia.
Qed.

Lemma order_unit : Z.of_nat n mod p <> 0.
Proof.
  pose proof order_below_modulus. pose proof order_pos.
  rewrite Z.mod_small; lia.
Qed.

(** Orthogonality: the powers of a root of unity other than [1] sum up
    to zero. *)
Lemma unity_sum_zero (e : nat) :
  (e mod n <> 0)%nat ->
  sumto (fun j => u ^ Z.of_nat (e * j)) n mod p = 0.
Proof.
  intros He.
  rewrite (sumto_ext_mod p _ (fun j => (u ^ Z.of_nat e) ^ Z.of_nat j))
    by (try lia; intros j _; rewrite pow_nat_mul; reflexivity).
  apply (prime_cancel p p_prime (u ^ Z.of_nat e - 1)).
  - intros H. apply (order_exact (e mod n)).
    + pose proof (Nat.mod_upper_bound e n). pose proof order_pos. lia.
    + rewrite <- unity_exponent_mod.
      rewrite Zminus_mod, (Z.mod_small 1) in H by lia.
      pose proof (Z.mod_pos_bound (u ^ Z.of_nat e) p ltac:(lia)) as B.
      apply Z.mod_divide in H as [c Hc]; [| lia].
      assert (c = 0) by nia. lia.
  - rewrite geometric_sum, <- pow_nat_mul, Nat.mul_comm.
    rewrite Zminus_mod, unity_multiple, (Z.mod_small 1) by lia.
    reflexivity.
Qed.

Lemma unity_sum_full (e : nat) :
  (e mod n = 0)%nat ->
  sumto (fun j => u ^ Z.of_nat (e * j)) n mod p = Z.of_nat n mod p.
Proof.
  intros He.
  rewrite (sumto_ext_mod p _ (fun _ => 1)).
  - f_equal. clear. induction n as [| c IH]; [reflexivity |].
    cbn [sumto]. rewrite IH. lia.
  - lia.
  - intros j _. rewrite (unity_exponent_eq (e * j) 0).
    + reflexivity.
    + rewrite Nat.Div0.mul_mod, He. reflexivity.
Qed.

(** The last entry of the cycle is the inverse root; it is primitive as
    well. *)
Lemma inverse_root_power (j : nat) :
  (u ^ Z.of_nat (n - 1) mod p) ^ Z.of_nat j mod p =
  u ^ Z.of_nat ((n - 1) * j) mod p.
Proof. rewrite Z.mod_pow_l, <- pow_nat_mul. reflexivity. Qed.

Lemma inverse_root_unity :
  (u ^ Z.of_nat (n - 1) mod p) ^ Z.of_nat n mod p = 1.
Proof.
  rewrite inverse_root_power, Nat.mul_comm. apply unity_multiple.
Qed.

Lemma inverse_root_primitive :
  (u ^ Z.of_nat (n - 1) mod p) ^ Z.of_nat (n / 2) mod p <> 1.
Proof.
  rewrite inverse_root_power, Nat.mul_comm, pow_nat_mul.
  rewrite <- Z.mod_pow_l, half_turn.
  replace (n - 1)%nat with (2 * (n / 2 - 1) + 1)%nat.
  - rewrite minus_one_odd_power by apply odd_modulus.
    pose proof odd_modulus. lia.
  - pose proof order_double as Hd. rewrite Hd at 2.
    assert (1 <= n / 2)%nat; [| lia].
    rewrite order_half. pose proof (pow2_pos (m - 1)). lia.
Qed.

Lemma inverse_root_reversal (j : nat) :
  (1 <= j < n)%nat ->
  get (of_list (powers p u n)) (n - j) =
    Some ((u ^ Z.of_nat (n - 1) mod p) ^ Z.of_nat j mod p).
Proof.
  intros Hj. rewrite get_of_list_inside by (rewrite length_powers; lia).
  rewrite nth_powers by lia. f_equal.
  rewrite inverse_root_power. apply unity_exponent_eq. fold n.
  replace ((n - 1) * j)%nat with ((n - j) + (j - 1) * n)%nat by nia.
  rewrite Nat.Div0.mod_add. reflexivity.
Qed.

(** *** The power cycle *)

Section Cycle.

Hypothesis u_reduced : 0 <= u < p.

Lemma cycle_loop_spec (fuel : nat) : forall j,
  (1 <= j <= n)%nat -> (n - j <= fuel)%nat ->
  cycle_loop p fuel u (u ^ Z.of_nat j mod p) (of_list (powers p u j)) =
    Ok (of_list (powers p u n)).
Proof.
  induction fuel as [| fuel IH]; intros j Hj Hf.
  - assert (j = n) by lia. subst j. cbn [cycle_loop].
    fold n in u_unity. rewrite u_unity. reflexivity.
  - cbn [cycle_loop].
    destruct (Z.eqb_spec (u ^ Z.of_nat j mod p) 1) as [E | E].
    + destruct (Nat.eq_dec j n) as [-> | Hne]; [reflexivity |].
      exfalso. apply (order_exact j); [lia | exact E].
    + assert (j <> n) as Hne.
      { intros ->. apply E. exact u_unity. }
      rewrite mul_spec, Z.mul_mod_idemp_l by lia.
      replace (u ^ Z.of_nat j * u) with (u ^ Z.of_nat (S j))
        by (rewrite Nat2Z.inj_succ, Z.pow_succ_r by lia; ring).
      replace (of_list (powers p u j) ++ [Some (u ^ Z.of_nat j mod p)])
        with (of_list (powers p u (S j)))
        by (rewrite powers_snoc; unfold of_list; apply map_app).
      apply IH; lia.
Qed.

(** [getPowerCycle] on a primitive root: its powers, in order. *)
Lemma getPowerCycle_spec : getPowerCycle p u = Ok (of_list (powers p u n)).
Proof.
  unfold getPowerCycle.
  pose proof order_below_modulus as Hb. fold n in Hb.
  pose proof order_pos as Hn.
  replace u with (u ^ Z.of_nat 1 mod p) at 2
    by (change (Z.of_nat 1) with 1; rewrite Z.pow_1_r; apply Z.mod_small;
        exact u_reduced).
  replace [Some 1] with (of_list (powers p u 1)).
  - apply cycle_loop_spec; [| lia].
    assert (2 <= n)%nat; [| lia].
    unfold n. replace m with (S (m - 1)) by lia.
    rewrite Nat.pow_succ_r'. pose proof (pow2_pos (m - 1)). lia.
  - unfold powers. cbn [seq map of_list]. change (Z.of_nat 0) with 0.
    rewrite Z.pow_0_r, Z.mod_small by lia. reflexivity.
Qed.

End Cycle.

(** *** Transforms over the power cycle of the root *)

Section Transform.

Variable vs : list Z.
Hypothesis vs_length : length vs = (2 ^ m)%nat.

Let p_pos : 0 < p := Z.lt_trans 0 1 p Z.lt_0_1 p_gt_1.

Lemma rd_powers (t : nat) :
  (t < n)%nat -> rd (of_list (powers p u n)) t = Ok (u ^ Z.of_nat t mod p).
Proof.
  intros Ht. rewrite rd_of_list by (rewrite length_powers; exact Ht).
  rewrite nth_powers by exact Ht. reflexivity.
Qed.

Lemma rd_values (t : nat) : (t < n)%nat -> rd (of_list vs) t = Ok (nth t vs 0).
Proof. intros Ht. apply rd_of_list. rewrite vs_length. exact Ht. Qed.

(** The two halves of a transform (decimation in time). *)
Lemma dft_even_odd (d o h i : nat) :
  dft u vs d o (2 * h) i =
    dft u vs (d + 1) o h i +
    u ^ Z.of_nat (i * 2 ^ d) * dft u vs (d + 1) (o + 2 ^ d) h i.
Proof.
  unfold dft. rewrite sumto_parity, sumto_scale. f_equal.
  - apply sumto_ext. intros j _.
    replace (d + 1)%nat with (S d) by lia. rewrite Nat.pow_succ_r'.
    f_equal; [f_equal; lia | f_equal; f_equal; lia].
  - apply sumto_ext. intros j _.
    replace (d + 1)%nat with (S d) by lia. rewrite Nat.pow_succ_r'.
    rewrite (Z.mul_comm (u ^ Z.of_nat (i * 2 ^ d)) (_ * _)).
    rewrite <- Z.mul_assoc, <- pow_nat_add.
    f_equal; [f_equal; lia | f_equal; f_equal; lia].
Qed.

Lemma dft_even_odd_shifted (d o h i : nat) :
  n = (2 * h * 2 ^ d)%nat ->
  dft u vs d o (2 * h) (i + h) mod p =
    (dft u vs (d + 1) o h i -
     u ^ Z.of_nat (i * 2 ^ d) * dft u vs (d + 1) (o + 2 ^ d) h i) mod p.
Proof.
  intros Hn.
  replace (dft u vs (d + 1) o h i -
           u ^ Z.of_nat (i * 2 ^ d) * dft u vs (d + 1) (o + 2 ^ d) h i)
    with (dft u vs (d + 1) o h i +
          (-1) * (u ^ Z.of_nat (i * 2 ^ d)
                  * dft u vs (d + 1) (o + 2 ^ d) h i)) by ring.
  unfold dft. rewrite sumto_parity, !sumto_scale, !sumto_add.
  apply (sumto_ext_mod p); [lia |]. intros j _.
  replace (d + 1)%nat with (S d) by lia. rewrite Nat.pow_succ_r'.
  rewrite Z.add_mod by lia. symmetry. rewrite Z.add_mod by lia.
  f_equal. f_equal.
  - replace (o + j * (2 * 2 ^ d))%nat with (o + 2 * j * 2 ^ d)%nat by lia.
    apply mod_mul_congr; [lia |].
    apply unity_exponent_eq.
    fold n. rewrite Hn.
    replace (2 ^ d * (i + h) * (2 * j))%nat
      with (2 * 2 ^ d * i * j + j * (2 * h * 2 ^ d))%nat by lia.
    rewrite Nat.Div0.mod_add. reflexivity.
  - replace (o + 2 ^ d + j * (2 * 2 ^ d))%nat
      with (o + (2 * j + 1) * 2 ^ d)%nat by lia.
    replace (-1 * (u ^ Z.of_nat (i * 2 ^ d) *
              (nth (o + (2 * j + 1) * 2 ^ d) vs 0 *
               u ^ Z.of_nat (2 * 2 ^ d * i * j))))
      with (nth (o + (2 * j + 1) * 2 ^ d) vs 0 *
            (u ^ Z.of_nat (i * 2 ^ d + 2 * 2 ^ d * i * j) * -1))
      by (rewrite pow_nat_add; ring).
    apply mod_mul_congr; [lia |].
    assert (n / 2 = h * 2 ^ d)%nat as Hh.
    { rewrite Hn.
      replace (2 * h * 2 ^ d)%nat with (h * 2 ^ d * 2)%nat by lia.
      apply Nat.div_mul. lia. }
    replace (2 ^ d * (i + h) * (2 * j + 1))%nat
      with ((i * 2 ^ d + 2 * 2 ^ d * i * j) + (n * j + n / 2))%nat
      by (rewrite Hh, Hn; lia).
    rewrite (pow_nat_add u (_ + _) (_ + _)).
    apply mod_mul_congr; [lia |].
    rewrite pow_nat_add, Z.mul_mod, unity_multiple, half_turn by lia.
    rewrite Z.mul_1_l.
    replace (p - 1) with (-1 + 1 * p) by ring.
    rewrite Z.mod_add by lia. reflexivity.
Qed.

Lemma rd_map_seq (f : nat -> Z) (c t : nat) :
  (t < c)%nat -> rd (of_list (map f (seq 0 c))) t = Ok (f t).
Proof.
  intros Ht. rewrite rd_of_list by (rewrite length_map, length_seq; lia).
  rewrite nth_map_seq by exact Ht. reflexivity.
Qed.

(** The entry of the power cycle that the four-point transform reads for
    the product [i * j]. *)
Lemma base_root (d i j : nat) :
  n = (4 * 2 ^ d)%nat ->
  u ^ Z.of_nat ((i * j) mod 4 * 2 ^ d) mod p =
  u ^ Z.of_nat (2 ^ d * i * j) mod p.
Proof.
  intros Hn. apply unity_exponent_eq. fold n. rewrite Hn.
  replace (2 ^ d * i * j)%nat with (i * j * 2 ^ d)%nat by lia.
  rewrite !Nat.Div0.mul_mod_distr_r, Nat.Div0.mod_mod. reflexivity.
Qed.

(** [fastFF] at depth [d] and offset [o] is the transform of the values
    at stride [2 ^ d] from [o] on, over the matching powers of the root. *)
Lemma fastFF_spec (e : nat) : forall fuel d o,
  (e <= fuel)%nat -> m = (e + 2 + d)%nat -> (o < 2 ^ d)%nat ->
  fastFF p fuel (of_list vs) (of_list (powers p u n)) d o =
    Ok (of_list (map (fun i => dft u vs d o (2 ^ (e + 2)) i mod p)
                   (seq 0 (2 ^ (e + 2))))).
Proof.
  induction e as [| e IH]; intros fuel d o Hfuel Hm Ho.
  - assert (n = 4 * 2 ^ d)%nat as Hn.
    { unfold n. rewrite Hm. replace (0 + 2 + d)%nat with (2 + d)%nat by lia.
      rewrite Nat.pow_add_r. reflexivity. }
    pose proof (pow2_pos d) as Hd.
    rewrite fastFF_unfold. cbv zeta.
    rewrite length_of_list, length_powers, Hn, Nat.div_mul by lia.
    change (4 <=? 4)%nat with true. cbv iota.
    change (2 ^ (0 + 2))%nat with 4%nat.
    rewrite <- Hn.
    for_up_with (fun (i : nat) (result : array) =>
      length result = 4%nat /\
      forall t, (t < i)%nat ->
        get result t = Some (dft u vs d o 4 t mod p)).
    + split; [reflexivity | intros t Ht; lia].
    + intros i result Hi [Hl Hg].
      rewrite !rd_values by lia. rewrite !rd_powers.
      2-5: try (pose proof (Nat.mod_upper_bound (i * 2) 4);
                pose proof (Nat.mod_upper_bound (i * 3) 4); nia).
      cbn [bind]. eexists. split; [reflexivity |].
      split; [rewrite length_set by lia; exact Hl |].
      intros t Ht. destruct (Nat.eq_dec t i) as [-> | Hne].
      * rewrite get_set_same. f_equal. rewrite mod_spec by lia.
        unfold dft. cbn [sumto].
        rewrite !(base_root d i _ Hn).
        replace (o + 0 * 2 ^ d)%nat with o by lia.
        replace (o + 1 * 2 ^ d)%nat with (o + 2 ^ d)%nat by lia.
        rewrite Z.add_0_l.
        replace (2 ^ d * i * 0)%nat with 0%nat by lia.
        replace (2 ^ d * i * 1)%nat with (i * 2 ^ d)%nat by lia.
        repeat apply mod_add_congr; try lia;
          rewrite Z.mul_mod_idemp_r by lia; reflexivity.
      * rewrite get_set_other by lia. apply Hg. lia.
    + destruct H as [Hl Hg]. f_equal.
      rewrite (arr_of_values s (fun i => dft u vs d o 4 i mod p)).
      * rewrite Hl. reflexivity.
      * intros j Hj. apply Hg. lia.
  - set (h := (2 ^ (e + 2))%nat).
    assert (2 ^ (S e + 2) = 2 * h)%nat as Hlen
      by (unfold h; apply Nat.pow_succ_r').
    assert (4 <= h)%nat as Hh4.
    { unfold h. rewrite Nat.pow_add_r. pose proof (pow2_pos e).
      change (2 ^ 2)%nat with 4%nat. lia. }
    assert (n = 2 * h * 2 ^ d)%nat as Hn.
    { unfold n. rewrite Hm, <- Hlen, <- Nat.pow_add_r. reflexivity. }
    pose proof (pow2_pos d) as Hd.
    rewrite fastFF_unfold. cbv zeta.
    rewrite length_of_list, length_powers, Hn, Nat.div_mul by lia.
    rewrite <- Hn.
    destruct (Nat.leb_spec (2 * h) 4) as [Hle | _]; [lia |].
    destruct fuel as [| fuel]; [lia |].
    rewrite (IH fuel (d + 1)%nat o) by
      (try lia; rewrite Nat.add_1_r, Nat.pow_succ_r'; lia).
    cbn [bind].
    rewrite (IH fuel (d + 1)%nat (o + 2 ^ d)%nat) by
      (try lia; rewrite Nat.add_1_r, Nat.pow_succ_r'; lia).
    cbn [bind]. fold h.
    replace (2 * h / 2)%nat with h
      by (rewrite Nat.mul_comm, Nat.div_mul; lia).
    rewrite Hlen.
    for_up_with (fun (i : nat) (result : array) =>
      length result = (2 * h)%nat /\
      forall t, (t < i)%nat ->
        get result t = Some (dft u vs d o (2 * h) t mod p) /\
        get result (t + h) = Some (dft u vs d o (2 * h) (t + h) mod p)).
    + split; [apply length_new_Array | intros t Ht; lia].
    + intros i result Hi [Hl Hg].
      rewrite !rd_map_seq by lia. rewrite rd_powers by nia.
      cbn [bind]. cbv zeta. eexists. split; [reflexivity |].
      split; [rewrite !length_set; rewrite ?length_set; lia |].
      intros t Ht. destruct (Nat.eq_dec t i) as [-> | Hne].
      * rewrite get_set_other, !get_set_same by lia.
        rewrite add_spec, sub_spec by lia. split; f_equal.
        -- rewrite dft_even_odd.
           apply mod_add_congr; [lia | apply Z.mod_mod; lia |].
           rewrite <- Z.mul_mod, Z.mul_comm by lia. reflexivity.
        -- rewrite (dft_even_odd_shifted d o h i Hn).
           apply mod_sub_congr; [lia | apply Z.mod_mod; lia |].
           rewrite <- Z.mul_mod, Z.mul_comm by lia. reflexivity.
      * rewrite !get_set_other by lia. apply Hg. lia.
    + destruct H as [Hl Hg]. f_equal.
      rewrite (arr_of_values s (fun i => dft u vs d o (2 * h) i mod p)).
      * rewrite Hl. reflexivity.
      * intros j Hj. rewrite Hl in Hj.
        destruct (Nat.lt_ge_cases j h) as [Hlt | Hge].
        -- apply Hg. lia.
        -- replace j with (j - h + h)%nat by lia. apply Hg. lia.
Qed.

(** The transform over the inverse root undoes the transform, up to the
    factor [n], which the inverse of the length removes. *)
Lemma inverse_transform (i : nat) :
  (i < n)%nat ->
  (dft (u ^ Z.of_nat (n - 1) mod p)
     (map (fun j => dft u vs 0 0 n j mod p) (seq 0 n)) 0 0 n i mod p
   * (Z.of_nat n ^ (p - 2) mod p)) mod p =
  nth i vs 0 mod p.
Proof.
  intros Hi.
  set (e := fun l : nat => (l + (n - 1) * i)%nat).
  assert (dft (u ^ Z.of_nat (n - 1) mod p)
            (map (fun j => dft u vs 0 0 n j mod p) (seq 0 n)) 0 0 n i mod p
          = (Z.of_nat n * nth i vs 0) mod p) as A.
  { unfold dft at 1.
    rewrite (sumto_ext_mod p _
               (fun j => sumto (fun l => nth l vs 0
                                         * u ^ Z.of_nat (e l * j)) n)
               n p_pos).
    2:{ intros j Hj.
        replace (0 + j * 2 ^ 0)%nat with j by (simpl; lia).
        rewrite nth_map_seq by exact Hj.
        rewrite Z.mul_mod, Z.mod_mod, inverse_root_power, <- Z.mul_mod
          by lia.
        f_equal. unfold dft. rewrite Z.mul_comm, sumto_scale.
        apply sumto_ext. intros l Hl.
        replace (0 + l * 2 ^ 0)%nat with l by (simpl; lia).
        unfold e.
        replace ((l + (n - 1) * i) * j)%nat
          with ((n - 1) * (2 ^ 0 * i * j) + 2 ^ 0 * j * l)%nat
          by (simpl; nia).
        rewrite pow_nat_add. ring. }
    rewrite sumto_swap.
    rewrite (sumto_single p _ i p_pos n Hi).
    - rewrite <- (sumto_scale (nth i vs 0)
                    (fun j => u ^ Z.of_nat (e i * j))).
      rewrite Z.mul_mod by lia. rewrite unity_sum_full.
      + rewrite <- Z.mul_mod, Z.mul_comm by lia. reflexivity.
      + unfold e.
        replace (i + (n - 1) * i)%nat with (i * n)%nat by nia.
        apply Nat.Div0.mod_mul.
    - intros l Hl Hne. cbv beta.
      rewrite <- (sumto_scale (nth l vs 0)
                    (fun j => u ^ Z.of_nat (e l * j))).
      rewrite Z.mul_mod by lia. rewrite unity_sum_zero.
      + rewrite Z.mul_0_r. apply Z.mod_0_l. lia.
      + unfold e. destruct (Nat.lt_ge_cases i l) as [Hlt | Hge].
        * replace (l + (n - 1) * i)%nat with ((l - i) + i * n)%nat by nia.
          rewrite Nat.Div0.mod_add, Nat.mod_small by lia. lia.
        * replace (l + (n - 1) * i)%nat
            with ((n + l - i) + (i - 1) * n)%nat by nia.
          rewrite Nat.Div0.mod_add, Nat.mod_small by lia. lia. }
  rewrite A, <- Z.mul_mod by lia.
  replace (Z.of_nat n * nth i vs 0 * Z.of_nat n ^ (p - 2))
    with (nth i vs 0 * Z.of_nat n ^ (p - 1)).
  - rewrite Z.mul_mod, (Z.fermat_nz p (Z.of_nat n) p_prime order_unit),
      Z.mul_1_r, Z.mod_mod by lia.
    reflexivity.
  - replace (p - 1) with (Z.succ (p - 2)) by lia.
    rewrite Z.pow_succ_r by lia. ring.
Qed.

(** *** The callers of [fastFF] *)

Hypothesis m_ge_2 : (2 <= m)%nat.

Lemma fastFF_top (roots : array) :
  roots = of_list (powers p u n) ->
  fastFF p (fastFF_fuel roots) (of_list vs) roots 0 0 =
    Ok (of_list (map (fun i => dft u vs 0 0 n i mod p) (seq 0 n))).
Proof.
  intros ->. unfold fastFF_fuel.
  rewrite length_of_list, length_powers. unfold n at 1.
  rewrite Nat.log2_pow2 by lia.
  rewrite (fastFF_spec (m - 2) m 0 0) by (simpl; lia).
  replace (m - 2 + 2)%nat with m by lia. reflexivity.
Qed.

(** [evalPolyAtRoots] pads the polynomial with zeros and transforms it. *)
Lemma evalPolyAtRoots_spec (q : list Z) :
  (length q <= n)%nat -> vs = q ++ repeat 0 (n - length q) ->
  evalPolyAtRoots p (of_list q) (of_list (powers p u n)) =
    Ok (of_list (map (fun i => dft u vs 0 0 n i mod p) (seq 0 n))).
Proof.
  intros Hq Hvs. unfold evalPolyAtRoots.
  rewrite !length_of_list, length_powers.
  destruct (Nat.ltb_spec n (length q)) as [H | _]; [lia |].
  unfold n at 1. rewrite isPowerOf2_pow2. cbn [negb]. fold n.
  destruct (Nat.ltb_spec (length q) n) as [Hlt | Hge].
  - for_up_with (fun (i : nat) (values : array) =>
      length values = n /\
      forall t, (t < i)%nat -> get values t = Some (nth t q 0)).
    + split; [apply length_new_Array | intros t Ht; lia].
    + intros i values Hi [Hl Hg]. eexists. split; [reflexivity |].
      split; [rewrite length_set_slot_inside by lia; exact Hl |].
      intros t Ht. destruct (Nat.eq_dec t i) as [-> | Hne].
      * rewrite get_set_slot_same. apply get_of_list_inside. lia.
      * rewrite get_set_slot_other by lia. apply Hg. lia.
    + destruct H as [Hl Hg]. rewrite Hl.
      for_up_with (fun (i : nat) (values : array) =>
        length values = n /\
        forall t, (t < i)%nat -> get values t = Some (nth t vs 0)).
      * split; [exact Hl |]. intros t Ht.
        rewrite Hg, Hvs, app_nth1 by lia. reflexivity.
      * intros i values Hi [Vl Vg]. eexists. split; [reflexivity |].
        split; [rewrite length_set by lia; exact Vl |].
        intros t Ht. destruct (Nat.eq_dec t i) as [-> | Hne].
        -- rewrite get_set_same, Hvs, app_nth2, nth_repeat by lia.
           reflexivity.
        -- rewrite get_set_other by lia. apply Vg. lia.
      * destruct H as [Vl Vg]. assert (s0 = of_list vs) as ->.
        { apply arr_ext; [rewrite length_of_list, vs_length; exact Vl |].
          intros j Hj. rewrite Vl in Hj. rewrite Vg by lia.
          rewrite get_of_list_inside by (rewrite vs_length; fold n; lia).
          reflexivity. }
        apply fastFF_top. reflexivity.
  - cbn [bind]. assert (vs = q) as <-.
    { rewrite Hvs. replace (n - length q)%nat with 0%nat by lia.
      apply app_nil_r. }
    apply fastFF_top. reflexivity.
Qed.

(** [interpolateRoots] on a cycle whose reversal is the power cycle of
    [u]: the transform over the powers of [u], scaled by the inverse of
    the length. *)
Lemma interpolateRoots_spec (rootsOfUnity : array) :
  length rootsOfUnity = n ->
  (forall j, (1 <= j < n)%nat ->
     get rootsOfUnity (n - j) = Some (u ^ Z.of_nat j mod p)) ->
  interpolateRoots p rootsOfUnity (of_list vs) =
    Ok (of_list
          (map (fun i => (dft u vs 0 0 n i mod p
                          * (Z.of_nat n ^ (p - 2) mod p)) mod p)
             (seq 0 n))).
Proof.
  intros Hl Hrev. unfold interpolateRoots.
  rewrite length_of_list, vs_length, Hl. fold n.
  rewrite Nat.eqb_refl. cbn [negb].
  unfold n at 1. rewrite isPowerOf2_pow2. cbn [negb]. fold n.
  rewrite (exp_nonneg p p_gt_1).
  2:{ lia. }
  2:{ intros [H _]. revert H. apply order_unit. }
  cbn [bind]. cbv zeta.
  for_down_with (fun (i : nat) (rr : array) =>
    length rr = n /\
    forall j, (j <= n - 1 - i)%nat ->
      get rr j = Some (u ^ Z.of_nat j mod p)).
  - pose proof order_pos as Hn.
    split; [rewrite length_set; rewrite length_new_Array; lia |].
    intros j Hj. assert (j = 0%nat) by lia. subst j.
    rewrite get_set_same. change (Z.of_nat 0) with 0.
    rewrite Z.pow_0_r, Z.mod_small by lia. reflexivity.
  - intros i rr Hi [Rl Rg]. eexists. split; [reflexivity |].
    split; [rewrite length_set_slot_inside by lia; exact Rl |].
    intros j Hj. destruct (Nat.eq_dec j (n - S i)) as [-> | Hne].
    + rewrite get_set_slot_same.
      replace (S i) with (n - (n - S i))%nat at 1 by lia.
      apply Hrev. lia.
    + rewrite get_set_slot_other by lia. apply Rg. lia.
  - destruct H as [Rl Rg].
    rewrite fastFF_top.
    2:{ apply arr_ext; [rewrite length_of_list, length_powers; exact Rl |].
        intros j Hj. rewrite Rl in Hj. rewrite Rg by lia.
        rewrite get_of_list_inside by (rewrite length_powers; lia).
        rewrite nth_powers by lia. reflexivity. }
    cbn [bind]. rewrite length_of_list, length_map, length_seq.
    set (F := fun i => dft u vs 0 0 n i mod p).
    set (c := Z.of_nat n ^ (p - 2) mod p).
    for_up_with (fun (i : nat) (result : array) =>
      length result = n /\
      (forall t, (t < i)%nat -> get result t = Some ((F t * c) mod p)) /\
      (forall t, (i <= t < n)%nat -> get result t = Some (F t))).
    + rewrite length_of_list, length_map, length_seq.
      split; [reflexivity |]. split; [intros t Ht; lia |].
      intros t Ht. rewrite get_of_list_inside
        by (rewrite length_map, length_seq; lia).
      rewrite nth_map_seq by lia. reflexivity.
    + intros i result Hi (Xl & Xdone & Xrest).
      rewrite (rd_Some _ i (F i)) by (apply Xrest; lia). cbn [bind].
      eexists. split; [reflexivity |].
      split; [rewrite length_set by lia; exact Xl |]. split.
      * intros t Ht. destruct (Nat.eq_dec t i) as [-> | Hne].
        -- rewrite get_set_same, mod_spec by lia. reflexivity.
        -- rewrite get_set_other by lia. apply Xdone. lia.
      * intros t Ht. rewrite get_set_other by lia. apply Xrest. lia.
    + destruct H as (Xl & Xdone & _). f_equal.
      rewrite (arr_of_values s0 (fun i => (F i * c) mod p)).
      * rewrite Xl. reflexivity.
      * intros j Hj. apply Xdone. lia.
Qed.

End Transform.

End Unity.

(** ** The round trip through the two transforms *)

Lemma padded_length (q : list Z) (n : nat) :
  (length q <= n)%nat -> length (q ++ repeat 0 (n - length q)) = n.
Proof. intros H. rewrite length_app, repeat_length. lia. Qed.

Lemma padded_reduced (p : Z) (q : list Z) (n i : nat) :
  0 < p -> Forall (fun c => 0 <= c < p) q ->
  0 <= nth i (q ++ repeat 0 (n - length q)) 0 < p.
Proof.
  intros Hp Hq. destruct (Nat.lt_ge_cases i (length q)) as [Hi | Hi].
  - rewrite app_nth1 by exact Hi.
    rewrite Forall_forall in Hq. apply Hq, nth_In, Hi.
  - rewrite app_nth2 by exact Hi.
    destruct (Nat.lt_ge_cases (i - length q) (n - length q)) as [Hj | Hj].
    + rewrite nth_repeat_lt by exact Hj. lia.
    + rewrite nth_overflow by (rewrite repeat_length; exact Hj). lia.
Qed.

(** For a prime modulus [p], a domain of [n = 2^m >= 4] points generated
    by a primitive [n]-th root of unity [w] and a polynomial [q] of at most
    [n] reduced coefficients, evaluating [q] over the power cycle of [w]
    with [evalPolyAtRoots] and interpolating the values with
    [interpolateRoots] returns [q] padded with zeros to the length [n]. *)
Theorem roundtrip_from_order_four (p w : Z) (m : nat) (q : list Z) :
  Z.prime p -> (2 <= m)%nat -> 0 <= w < p ->
  w ^ Z.of_nat (2 ^ m) mod p = 1 ->
  w ^ Z.of_nat (2 ^ m / 2) mod p <> 1 ->
  (length q <= 2 ^ m)%nat -> Forall (fun c => 0 <= c < p) q ->
  (roots <- getPowerCycle p w ;;
   ys <- evalPolyAtRoots p (of_list q) roots ;;
   interpolateRoots p roots ys) =
  Ok (of_list (q ++ repeat 0 (2 ^ m - length q))).
Proof.
  intros Hp Hm Hw H1 H2 Hlen Hq.
  assert (0 < m)%nat as Hm0 by lia.
  pose proof (prime_gt_1 p Hp) as Hp1.
  set (vs := q ++ repeat 0 (2 ^ m - length q)).
  assert (length vs = (2 ^ m)%nat) as Hvs
    by (apply padded_length; exact Hlen).
  rewrite (getPowerCycle_spec p Hp w m Hm0 H1 H2 Hw). cbn [bind].
  rewrite (evalPolyAtRoots_spec p Hp w m Hm0 H1 H2 vs Hvs Hm q Hlen eq_refl).
  cbn [bind].
  set (ys := map (fun i => dft w vs 0 0 (2 ^ m) i mod p) (seq 0 (2 ^ m))).
  assert (length ys = (2 ^ m)%nat) as Hys
    by (unfold ys; rewrite length_map, length_seq; reflexivity).
  rewrite (interpolateRoots_spec p Hp (w ^ Z.of_nat (2 ^ m - 1) mod p) m Hm0
             (inverse_root_unity p Hp w m Hm0 H1)
             (inverse_root_primitive p Hp w m Hm0 H1 H2)
             ys Hys Hm (of_list (powers p w (2 ^ m)))).
  - f_equal. f_equal.
    apply (nth_ext _ _ 0 0).
    + rewrite length_map, length_seq, Hvs. reflexivity.
    + intros i Hi. rewrite length_map, length_seq in Hi.
      rewrite nth_map_seq by exact Hi.
      unfold ys.
      rewrite (inverse_transform p Hp w m Hm0 H1 H2 vs Hvs i Hi).
      apply Z.mod_small. apply padded_reduced; [lia | exact Hq].
  - rewrite length_of_list. apply length_powers.
  - intros j Hj. apply (inverse_root_reversal p Hp w m Hm0 H1 j Hj).
Qed.

(** [roundtrip_from_order_four] at the modulus 17, the primitive fourth
    root of unity 4 and the polynomial 3 + 5 x + 7 x^2. *)
Lemma roundtrip_from_order_four_witness :
  (roots <- getPowerCycle 17 4 ;;
   ys <- evalPolyAtRoots 17 (of_list [3; 5; 7]) roots ;;
   interpolateRoots 17 roots ys) =
  Ok (of_list ([3; 5; 7] ++ repeat 0 (2 ^ 2 - length [3; 5; 7]))).
Proof.
  apply (roundtrip_from_order_four 17 4 2 [3; 5; 7]).
  - apply primeb_sound. vm_compute. reflexivity.
  - lia.
  - lia.
  - vm_compute. reflexivity.
  - vm_compute. discriminate.
  - simpl. lia.
  - repeat constructor; lia.
Defined.

(** * Further properties of the engine *)

(** ** The constructor *)

Lemma bitWidth_loop_spec (fuel : nat) : forall m bitWidth,
  1 <= m -> Z.log2 m <= Z.of_nat fuel ->
  bitWidth_loop fuel m bitWidth = Ok (bitWidth + Z.to_nat (Z.log2 m))%nat.
Proof.
  induction fuel as [| fuel IH]; intros m bw Hm Hf.
  - pose proof (Z.log2_nonneg m) as Hn.
    assert (Z.log2 m = 0) as H0 by lia.
    assert (m = 1) as ->.
    { destruct (Z.eq_dec m 1) as [| Hne]; [assumption |].
      assert (0 < Z.log2 m) by (apply Z.log2_pos; lia). lia. }
    simpl. rewrite Nat.add_0_r. reflexivity.
  - cbn [bitWidth_loop]. destruct (Z.eqb_spec m 1) as [-> | Hne].
    + simpl. rewrite Nat.add_0_r. reflexivity.
    + assert (0 < Z.log2 m) as Hl by (apply Z.log2_pos; lia).
      assert (Z.log2 (Z.shiftr m 1) = Z.log2 m - 1) as Hs
        by (rewrite Z.log2_shiftr by lia; lia).
      rewrite IH.
      * f_equal. rewrite Hs. lia.
      * rewrite Z.shiftr_div_pow2 by lia. change (2 ^ 1) with 2.
        apply Z.div_le_lower_bound; lia.
      * lia.
Qed.

(** The constructor sizes the elements right: for a modulus [p >= 1],
    [elementSize] is the number [k] of bytes with
    [256^(k-1) <= p < 256^k], so that every element of [[0, p)] fits in
    [k] bytes and [k] is the least such number. *)
Theorem elementSize_bounds (p : Z) :
  1 <= p ->
  exists k, elementSize p = Ok k /\
            (1 <= k)%nat /\
            256 ^ (Z.of_nat k - 1) <= p < 256 ^ Z.of_nat k.
Proof.
  intros Hp. unfold elementSize.
  pose proof (Z.log2_nonneg p) as Hn.
  rewrite bitWidth_loop_spec by lia. cbn [bind].
  set (l := Z.to_nat (Z.log2 p)).
  eexists. split; [reflexivity |].
  pose proof (Nat.div_mod_eq (1 + l + 7) 8) as E.
  pose proof (Nat.mod_upper_bound (1 + l + 7) 8 ltac:(lia)) as B.
  set (k := ((1 + l + 7) / 8)%nat) in *.
  split; [lia |].
  destruct (Z.log2_spec p ltac:(lia)) as [Hlo Hhi].
  change 256 with (2 ^ 8). rewrite <- !Z.pow_mul_r by lia.
  assert (Z.of_nat l = Z.log2 p) as El by (unfold l; lia).
  split.
  - apply Z.le_trans with (2 ^ Z.log2 p); [| exact Hlo].
    apply Z.pow_le_mono_r; lia.
  - apply Z.lt_le_trans with (2 ^ Z.succ (Z.log2 p)); [exact Hhi |].
    apply Z.pow_le_mono_r; lia.
Qed.

(** [elementSize_bounds] at the modulus [2^128 - 159]: sixteen bytes. *)
Lemma elementSize_bounds_witness :
  exists k, elementSize (2 ^ 128 - 159) = Ok k /\
            (1 <= k)%nat /\
            256 ^ (Z.of_nat k - 1) <= 2 ^ 128 - 159 < 256 ^ Z.of_nat k.
Proof.
  apply (elementSize_bounds (2 ^ 128 - 159)). vm_compute. discriminate.
Defined.

Lemma bitWidth_loop_diverges (p : Z) (fuel bitWidth : nat) :
  p <= 0 -> bitWidth_loop fuel p bitWidth = Throw OutOfFuel.
Proof.
  revert p bitWidth. induction fuel as [| fuel IH]; intros p bw Hp;
    cbn [bitWidth_loop]; destruct (Z.eqb_spec p 1) as [-> | _]; try lia.
  - reflexivity.
  - apply IH. rewrite Z.shiftr_div_pow2 by lia. change (2 ^ 1) with 2.
    assert (p / 2 < 1); [| lia].
    apply Z.div_lt_upper_bound; lia.
Qed.

(** On a modulus that is zero or negative the constructor does not
    return: the shifts keep the value away from 1, so that its loop
    never ends, whatever the number of turns it is given. *)
Theorem constructor_diverges (p : Z) :
  p <= 0 ->
  elementSize p = Throw OutOfFuel /\
  forall fuel bitWidth, bitWidth_loop fuel p bitWidth = Throw OutOfFuel.
Proof.
  intros Hp. split.
  - unfold elementSize. rewrite bitWidth_loop_diverges by exact Hp.
    reflexivity.
  - intros fuel bitWidth. apply bitWidth_loop_diverges, Hp.
Qed.

Lemma constructor_diverges_witness :
  elementSize (-5) = Throw OutOfFuel /\
  forall fuel bitWidth, bitWidth_loop fuel (-5) bitWidth = Throw OutOfFuel.
Proof. apply (constructor_diverges (-5)). lia. Defined.

(** ** Laws of the arithmetic *)

Lemma prime_coprime (p y : Z) : Z.prime p -> y mod p <> 0 -> Z.gcd p y = 1.
Proof.
  intros Hp Hy. pose proof (prime_gt_1 p Hp) as H1.
  rewrite <- Z.gcd_mod_r.
  apply prime_coprime_reduced; [exact Hp |].
  pose proof (Z.mod_pos_bound y p ltac:(lia)). lia.
Qed.

(** What [inv] returns on an integer that the modulus does not divide. *)
Lemma inv_unit (p y : Z) :
  Z.prime p -> y mod p <> 0 ->
  exists iy, inv p y = Ok iy /\ 0 <= iy < p /\ (y * iy) mod p = 1.
Proof.
  intros Hp Hy. pose proof (prime_gt_1 p Hp) as H1.
  destruct (inv_total p ltac:(lia) y) as (iy & E & R).
  exists iy. split; [exact E | split; [exact R |]].
  apply (inv_correct p ltac:(lia) y iy H1); [| exact E].
  apply prime_coprime; assumption.
Qed.

(** [inv] is an involution on the field: the inverse of the inverse of a
    field element is the element. *)
Theorem inv_involutive (p x : Z) :
  Z.prime p -> 0 <= x < p -> (y <- inv p x ;; inv p y) = Ok x.
Proof.
  intros Hp Hx. pose proof (prime_gt_1 p Hp) as H1.
  destruct (Z.eq_dec x 0) as [-> | Hnz]; [reflexivity |].
  destruct (inv_unit p x Hp) as (y & E & R & Hy).
  - rewrite Z.mod_small by lia. exact Hnz.
  - rewrite E. cbn [bind].
    apply (inv_inverse_of p Hp y x R). right.
    split; [exact Hx |]. rewrite Z.mul_comm. exact Hy.
Qed.

Lemma inv_involutive_witness : (y <- inv 17 5 ;; inv 17 y) = Ok 5.
Proof.
  apply (inv_involutive 17 5).
  - apply primeb_sound. vm_compute. reflexivity.
  - lia.
Defined.

(** [div] undoes [mul] and [mul] undoes [div], for every integer [x] and
    every [y] the prime modulus does not divide. *)
Theorem mul_div_round_trip (p x y : Z) :
  Z.prime p -> y mod p <> 0 ->
  div p (mul p x y) y = Ok (x mod p) /\
  (q <- div p x y ;; Ok (mul p q y)) = Ok (x mod p).
Proof.
  intros Hp Hy. pose proof (prime_gt_1 p Hp) as H1.
  assert (0 < p) as H0 by lia.
  destruct (inv_unit p y Hp Hy) as (iy & E & R & Hi).
  unfold div. rewrite E. cbn [bind]. rewrite !mul_spec by exact H0.
  split; f_equal.
  - rewrite Z.mul_mod_idemp_l by lia.
    replace (x * y * iy) with (x * (y * iy)) by ring.
    rewrite <- Z.mul_mod_idemp_r, Hi, Z.mul_1_r by lia. reflexivity.
  - rewrite Z.mul_mod_idemp_l by lia.
    replace (x * iy * y) with (x * (y * iy)) by ring.
    rewrite <- Z.mul_mod_idemp_r, Hi, Z.mul_1_r by lia. reflexivity.
Qed.

Lemma mul_div_round_trip_witness :
  div 17 (mul 17 (-4) 20) 20 = Ok (-4 mod 17) /\
  (q <- div 17 (-4) 20 ;; Ok (mul 17 q 20)) = Ok (-4 mod 17).
Proof.
  apply (mul_div_round_trip 17 (-4) 20).
  - apply primeb_sound. vm_compute. reflexivity.
  - vm_compute. discriminate.
Defined.

(** [inv] does not reduce its argument before it tests it for zero: on a
    nonzero multiple of the modulus it returns 1, where it returns 0 on
    0; the product of such an argument and its "inverse" is 0, and
    [div] by it is a multiplication by 1. *)
Theorem inv_multiple_of_modulus (p a x : Z) :
  1 < p -> a <> 0 -> a mod p = 0 ->
  inv p a = Ok 1 /\ inv p 0 = Ok 0 /\ div p x a = Ok (x mod p).
Proof.
  intros Hp Ha Hz. assert (0 < p) as H0 by lia.
  assert (inv p a = Ok 1) as E.
  { unfold inv. destruct (Z.eqb_spec a 0) as [| _]; [contradiction |].
    rewrite mod_spec, Hz by exact H0.
    rewrite inv_loop_exit by lia. cbn [bind].
    rewrite mod_small by lia. reflexivity. }
  split; [exact E | split; [reflexivity |]].
  unfold div. rewrite E. cbn [bind].
  rewrite mul_spec, Z.mul_1_r by exact H0. reflexivity.
Qed.

Lemma inv_multiple_of_modulus_witness :
  inv 17 34 = Ok 1 /\ inv 17 0 = Ok 0 /\ div 17 5 34 = Ok (5 mod 17).
Proof.
  apply (inv_multiple_of_modulus 17 34 5); [lia | lia | reflexivity].
Defined.

Lemma pow_nonzero_mod (p b : Z) :
  Z.prime p -> b mod p <> 0 -> forall e, 0 <= e -> b ^ e mod p <> 0.
Proof.
  intros Hp Hb. pose proof (prime_gt_1 p Hp) as H1.
  apply natlike_ind.
  - rewrite Z.pow_0_r, Z.mod_small by lia. lia.
  - intros e He IH. rewrite Z.pow_succ_r by exact He.
    apply prime_mul_nonzero; assumption.
Qed.

Lemma inv_mod (p b : Z) :
  0 < p -> b mod p <> 0 -> inv p (b mod p) = inv p b.
Proof.
  intros Hp Hb. unfold inv.
  destruct (Z.eqb_spec (b mod p) 0) as [| _]; [contradiction |].
  destruct (Z.eqb_spec b 0) as [-> | _].
  - rewrite Z.mod_0_l in Hb by lia. contradiction.
  - rewrite !mod_spec, Z.mod_mod by lia. reflexivity.
Qed.

(** [exp] turns sums and products of exponents into products and
    iterated powers: for a base the prime modulus does not divide and
    exponents [e1, e2 >= 0], [exp(b, e1 + e2)] is
    [mul(exp(b, e1), exp(b, e2))] and [exp(b, e1 * e2)] is
    [exp(exp(b, e1), e2)]. *)
Theorem exp_exponent_laws (p b e1 e2 : Z) :
  Z.prime p -> b mod p <> 0 -> 0 <= e1 -> 0 <= e2 ->
  (r1 <- exp p b e1 ;; r2 <- exp p b e2 ;; Ok (mul p r1 r2))
    = exp p b (e1 + e2) /\
  (r1 <- exp p b e1 ;; exp p r1 e2) = exp p b (e1 * e2).
Proof.
  intros Hp Hb H1 H2. pose proof (prime_gt_1 p Hp) as Hp1.
  assert (0 < p) as H0 by lia.
  rewrite !(exp_nonneg p Hp1 b) by (try nia; tauto). cbn [bind].
  split.
  - rewrite mul_spec, <- Z.mul_mod, Z.pow_add_r by lia. reflexivity.
  - rewrite (exp_nonneg p Hp1) by
      (try lia; rewrite Z.mod_mod by lia;
       pose proof (pow_nonzero_mod p b Hp Hb e1 H1); tauto).
    rewrite Z.mod_pow_l, Z.pow_mul_r by lia. reflexivity.
Qed.

Lemma exp_exponent_laws_witness :
  (r1 <- exp 17 3 5 ;; r2 <- exp 17 3 7 ;; Ok (mul 17 r1 r2))
    = exp 17 3 (5 + 7) /\
  (r1 <- exp 17 3 5 ;; exp 17 r1 7) = exp 17 3 (5 * 7).
Proof.
  apply (exp_exponent_laws 17 3 5 7).
  - apply primeb_sound. vm_compute. reflexivity.
  - vm_compute. discriminate.
  - lia.
  - lia.
Defined.

(** Three ways to the inverse: for a base [b] the prime modulus [p] does
    not divide, [exp(b, -1)] and [exp(b, p - 2)] return what [inv(b)]
    returns, and [exp(b, p - 1)] returns 1. *)
Theorem exp_inverse (p b : Z) :
  Z.prime p -> b mod p <> 0 ->
  exp p b (-1) = inv p b /\
  exp p b (p - 2) = inv p b /\
  exp p b (p - 1) = Ok 1.
Proof.
  intros Hp Hb. pose proof (prime_gt_1 p Hp) as Hp1.
  assert (0 < p) as H0 by lia.
  destruct (inv_unit p b Hp Hb) as (ib & E & R & Hi).
  pose proof (Z.fermat_nz p b Hp Hb) as F.
  split; [| split].
  - destruct (exp_negative p Hp1 b (-1) ltac:(lia)) as (ib' & E' & R' & Ex).
    rewrite inv_mod in E' by assumption.
    rewrite Ex, E', Z.pow_1_r, Z.mod_small by (try exact R'; lia).
    reflexivity.
  - rewrite (exp_nonneg p Hp1) by (try lia; tauto). rewrite E. f_equal.
    apply (inverse_unique p Hp b).
    + apply Z.mod_pos_bound. exact H0.
    + exact R.
    + rewrite Z.mul_mod_idemp_r by lia.
      replace (b * b ^ (p - 2)) with (b ^ (p - 1)); [exact F |].
      replace (p - 1) with (Z.succ (p - 2)) by lia.
      rewrite Z.pow_succ_r by lia. reflexivity.
    + exact Hi.
  - rewrite (exp_nonneg p Hp1) by (try lia; tauto). rewrite F. reflexivity.
Qed.

Lemma exp_inverse_witness :
  exp 17 5 (-1) = inv 17 5 /\
  exp 17 5 (17 - 2) = inv 17 5 /\
  exp 17 5 (17 - 1) = Ok 1.
Proof.
  apply (exp_inverse 17 5).
  - apply primeb_sound. vm_compute. reflexivity.
  - vm_compute. discriminate.
Defined.

(** ** Vectors *)

Lemma for_up_split {S : Type} (body : nat -> S -> res S) :
  forall c1 c2 lo s,
    for_up (c1 + c2) lo body s =
      (s' <- for_up c1 lo body s ;; for_up c2 (lo + c1) body s').
Proof.
  induction c1 as [| c1 IH]; intros c2 lo s.
  - simpl. rewrite Nat.add_0_r. reflexivity.
  - simpl. destruct (body lo s) as [s1 | e]; simpl; [| reflexivity].
    rewrite IH, Nat.add_succ_r. reflexivity.
Qed.

(** A loop whose body returns in the turns before [lo + k] and raises in
    that turn raises. *)
Lemma for_up_raises_at {S : Type} (body : nat -> S -> res S)
  (count lo k : nat) (s : S) (e : exn) :
  (k < count)%nat ->
  (forall i s, (lo <= i < lo + k)%nat -> exists s', body i s = Ok s') ->
  (forall s, body (lo + k)%nat s = Throw e) ->
  for_up count lo body s = Throw e.
Proof.
  intros Hk Hok Hthrow.
  replace count with (k + Datatypes.S (count - k - 1))%nat by lia.
  rewrite for_up_split.
  destruct (for_up_rule (fun _ _ => True) body k lo s I) as (s' & E & _).
  - intros i s0 Hi _. destruct (Hok i s0 Hi) as (s1 & E1). eauto.
  - rewrite E. cbn [bind]. apply for_up_raises_first, Hthrow.
Qed.

Lemma map_seq_const {A : Type} (c : A) (n : nat) : forall lo,
  map (fun _ => c) (seq lo n) = repeat c n.
Proof.
  induction n as [| n IH]; intros lo; [reflexivity |].
  simpl. rewrite IH. reflexivity.
Qed.

(** The private loops behind the elementwise operations. *)
Lemma vectorElementsOp_values (op : ArithmeticOperation) (a b : array)
  (f : nat -> Z) :
  (forall i, (i < length a)%nat -> op (get a i) (get b i) = Ok (f i)) ->
  vectorElementsOp op a b = Ok (of_list (map f (seq 0 (length a)))).
Proof.
  intros Hop. unfold vectorElementsOp.
  for_up_with (fun (i : nat) (result : array) =>
    length result = length a /\
    forall j, (j < i)%nat -> get result j = Some (f j)).
  - split; [apply length_new_Array | intros j Hj; lia].
  - intros i result Hi [Hl Hg]. rewrite Hop by lia. cbn [bind].
    eexists. split; [reflexivity |].
    split; [rewrite length_set by lia; exact Hl |].
    intros j Hj. destruct (Nat.eq_dec j i) as [-> | Hne].
    + apply get_set_same.
    + rewrite get_set_other by lia. apply Hg. lia.
  - destruct H as [Hl Hg]. f_equal.
    rewrite (arr_of_values s f).
    + rewrite Hl. reflexivity.
    + intros j Hj. apply Hg. lia.
Qed.

Lemma vectorScalarOp_values (op : ArithmeticOperation) (a : array) (b : Z)
  (f : nat -> Z) :
  (forall i, (i < length a)%nat -> op (get a i) (Some b) = Ok (f i)) ->
  vectorScalarOp op a b = Ok (of_list (map f (seq 0 (length a)))).
Proof.
  intros Hop. unfold vectorScalarOp.
  for_up_with (fun (i : nat) (result : array) =>
    length result = length a /\
    forall j, (j < i)%nat -> get result j = Some (f j)).
  - split; [apply length_new_Array | intros j Hj; lia].
  - intros i result Hi [Hl Hg]. rewrite Hop by lia. cbn [bind].
    eexists. split; [reflexivity |].
    split; [rewrite length_set by lia; exact Hl |].
    intros j Hj. destruct (Nat.eq_dec j i) as [-> | Hne].
    + apply get_set_same.
    + rewrite get_set_other by lia. apply Hg. lia.
  - destruct H as [Hl Hg]. f_equal.
    rewrite (arr_of_values s f).
    + rewrite Hl. reflexivity.
    + intros j Hj. apply Hg. lia.
Qed.

Lemma vectorElementsOp_raises (op : ArithmeticOperation) (a b : array)
  (k : nat) (e : exn) :
  (k < length a)%nat ->
  (forall i, (i < k)%nat -> exists v, op (get a i) (get b i) = Ok v) ->
  op (get a k) (get b k) = Throw e ->
  vectorElementsOp op a b = Throw e.
Proof.
  intros Hk Hok Hthrow. unfold vectorElementsOp.
  apply (for_up_raises_at _ (length a) 0 k); [exact Hk | |].
  - intros i s Hi. destruct (Hok i ltac:(lia)) as (v & E).
    rewrite E. cbn [bind]. eauto.
  - intros s. cbn [Nat.add]. rewrite Hthrow. reflexivity.
Qed.

(** The elementwise sum, difference and product of two vectors have the
    length of the first vector, and their [i]-th entry is the sum, the
    difference and the product of the [i]-th entries, reduced; entries of
    the second vector beyond the length of the first are ignored. *)
Theorem elementwise_vectors (p : Z) (a b : list Z) :
  0 < p -> (length a <= length b)%nat ->
  addVectorElements p (of_list a) (Vector (of_list b)) =
    Ok (of_list (map (fun i => (nth i a 0 + nth i b 0) mod p)
                   (seq 0 (length a)))) /\
  subVectorElements p (of_list a) (Vector (of_list b)) =
    Ok (of_list (map (fun i => (nth i a 0 - nth i b 0) mod p)
                   (seq 0 (length a)))) /\
  mulVectorElements p (of_list a) (Vector (of_list b)) =
    Ok (of_list (map (fun i => (nth i a 0 * nth i b 0) mod p)
                   (seq 0 (length a)))).
Proof.
  intros Hp Hl. cbn [addVectorElements subVectorElements mulVectorElements].
  split; [| split].
  - rewrite (vectorElementsOp_values _ _ _
               (fun i => (nth i a 0 + nth i b 0) mod p)).
    + rewrite length_of_list. reflexivity.
    + intros i Hi. rewrite length_of_list in Hi.
      rewrite !get_of_list_inside by lia. cbn [op_add operand bind].
      rewrite add_spec by exact Hp. reflexivity.
  - rewrite (vectorElementsOp_values _ _ _
               (fun i => (nth i a 0 - nth i b 0) mod p)).
    + rewrite length_of_list. reflexivity.
    + intros i Hi. rewrite length_of_list in Hi.
      rewrite !get_of_list_inside by lia. cbn [op_sub operand bind].
      rewrite sub_spec by exact Hp. reflexivity.
  - rewrite (vectorElementsOp_values _ _ _
               (fun i => (nth i a 0 * nth i b 0) mod p)).
    + rewrite length_of_list. reflexivity.
    + intros i Hi. rewrite length_of_list in Hi.
      rewrite !get_of_list_inside by lia. cbn [op_mul operand bind].
      rewrite mul_spec by exact Hp. reflexivity.
Qed.

Lemma elementwise_vectors_witness :
  addVectorElements 7 (of_list [2; 6]) (Vector (of_list [3; 4; 5])) =
    Ok (of_list (map (fun i => (nth i [2; 6] 0 + nth i [3; 4; 5] 0) mod 7)
                   (seq 0 (length [2; 6])))) /\
  subVectorElements 7 (of_list [2; 6]) (Vector (of_list [3; 4; 5])) =
    Ok (of_list (map (fun i => (nth i [2; 6] 0 - nth i [3; 4; 5] 0) mod 7)
                   (seq 0 (length [2; 6])))) /\
  mulVectorElements 7 (of_list [2; 6]) (Vector (of_list [3; 4; 5])) =
    Ok (of_list (map (fun i => (nth i [2; 6] 0 * nth i [3; 4; 5] 0) mod 7)
                   (seq 0 (length [2; 6])))).
Proof. apply (elementwise_vectors 7 [2; 6] [3; 4; 5]); simpl; lia. Defined.

(** The elementwise quotient: for a prime modulus the [i]-th entry [w] of
    [divVectorElements(a, b)] is reduced and satisfies [w * b[i] = a[i]]
    in the field when the modulus does not divide [b[i]]; where [b[i]] is
    0 the entry is 0 and no error is raised.  Division of a vector by the
    scalar 0 returns the zero vector. *)
Theorem divVectorElements_values (p : Z) (a b : list Z) :
  Z.prime p -> (length a <= length b)%nat ->
  (exists w,
     divVectorElements p (of_list a) (Vector (of_list b)) = Ok (of_list w) /\
     length w = length a /\
     forall i, (i < length a)%nat ->
       0 <= nth i w 0 < p /\
       (nth i b 0 = 0 -> nth i w 0 = 0) /\
       (nth i b 0 mod p <> 0 ->
        (nth i w 0 * nth i b 0) mod p = nth i a 0 mod p)) /\
  divVectorElements p (of_list a) (Scalar 0) =
    Ok (of_list (repeat 0 (length a))).
Proof.
  intros Hp Hl. pose proof (prime_gt_1 p Hp) as Hp1.
  assert (0 < p) as H0 by lia.
  cbn [divVectorElements]. split.
  - set (f := fun i =>
               match inv p (nth i b 0) with
               | Ok iy => mul p (nth i a 0) iy
               | Throw _ => 0
               end).
    exists (map f (seq 0 (length a))).
    split; [| split].
    + rewrite (vectorElementsOp_values _ _ _ f).
      * rewrite length_of_list. reflexivity.
      * intros i Hi. rewrite length_of_list in Hi.
        rewrite !get_of_list_inside by lia. cbn [op_div operand bind].
        unfold f. destruct (inv_total p H0 (nth i b 0)) as (iy & E & _).
        rewrite E. reflexivity.
    + rewrite length_map, length_seq. reflexivity.
    + intros i Hi. rewrite nth_map_seq by exact Hi. unfold f.
      split; [| split].
      * destruct (inv p (nth i b 0)); [apply mod_range; exact H0 | lia].
      * intros ->. cbn [inv Z.eqb bind].
        rewrite mul_spec, Z.mul_0_r by exact H0. apply Z.mod_0_l. lia.
      * intros Hb. destruct (inv_unit p _ Hp Hb) as (iy & E & _ & Hi').
        rewrite E, mul_spec, Z.mul_mod_idemp_l by lia.
        replace (nth i a 0 * iy * nth i b 0)
          with (nth i a 0 * (nth i b 0 * iy)) by ring.
        rewrite <- Z.mul_mod_idemp_r, Hi', Z.mul_1_r by lia. reflexivity.
  - cbn [inv Z.eqb bind].
    rewrite (vectorScalarOp_values _ _ _ (fun _ => 0)).
    + rewrite length_of_list, map_seq_const. reflexivity.
    + intros i Hi. rewrite length_of_list in Hi.
      rewrite get_of_list_inside by lia. cbn [op_mul operand bind].
      rewrite mul_spec, Z.mul_0_r by exact H0. reflexivity.
Qed.

Lemma divVectorElements_values_witness :
  (exists w,
     divVectorElements 7 (of_list [2; 6]) (Vector (of_list [3; 0])) =
       Ok (of_list w) /\
     length w = length [2; 6] /\
     forall i, (i < length [2; 6]%Z)%nat ->
       0 <= nth i w 0 < 7 /\
       (nth i [3; 0] 0 = 0 -> nth i w 0 = 0) /\
       (nth i [3; 0] 0 mod 7 <> 0 ->
        (nth i w 0 * nth i [3; 0] 0) mod 7 = nth i [2; 6] 0 mod 7)) /\
  divVectorElements 7 (of_list [2; 6]) (Scalar 0) =
    Ok (of_list (repeat 0 (length [2; 6]))).
Proof.
  apply (divVectorElements_values 7 [2; 6] [3; 0]).
  - apply primeb_sound. vm_compute. reflexivity.
  - simpl. lia.
Defined.

(** A first vector longer than the second makes the elementwise sum,
    difference, product and quotient and [combineVectors] raise the
    [TypeError] of a bigint operator that meets [undefined]; none of them
    reports a dimension mismatch. *)
Theorem longer_first_vector_raises (p : Z) (a b : list Z) :
  0 < p -> (length b < length a)%nat ->
  addVectorElements p (of_list a) (Vector (of_list b)) = Throw mixed_types /\
  subVectorElements p (of_list a) (Vector (of_list b)) = Throw mixed_types /\
  mulVectorElements p (of_list a) (Vector (of_list b)) = Throw mixed_types /\
  divVectorElements p (of_list a) (Vector (of_list b)) = Throw mixed_types /\
  combineVectors p (of_list a) (of_list b) = Throw mixed_types.
Proof.
  intros Hp Hl.
  cbn [addVectorElements subVectorElements mulVectorElements
       divVectorElements].
  assert (get (of_list b) (length b) = None) as Hb
    by (apply get_beyond; rewrite length_of_list; lia).
  assert (forall i, (i < length b)%nat ->
            get (of_list a) i = Some (nth i a 0) /\
            get (of_list b) i = Some (nth i b 0)) as Hin
    by (intros i Hi; split; apply get_of_list_inside; lia).
  assert (get (of_list a) (length b) = Some (nth (length b) a 0)) as Ha
    by (apply get_of_list_inside; lia).
  repeat split.
  - apply (vectorElementsOp_raises _ _ _ (length b));
      [rewrite length_of_list; exact Hl | |].
    + intros i Hi. destruct (Hin i Hi) as [-> ->]. cbn. eauto.
    + rewrite Ha, Hb. reflexivity.
  - apply (vectorElementsOp_raises _ _ _ (length b));
      [rewrite length_of_list; exact Hl | |].
    + intros i Hi. destruct (Hin i Hi) as [-> ->]. cbn. eauto.
    + rewrite Ha, Hb. reflexivity.
  - apply (vectorElementsOp_raises _ _ _ (length b));
      [rewrite length_of_list; exact Hl | |].
    + intros i Hi. destruct (Hin i Hi) as [-> ->]. cbn. eauto.
    + rewrite Ha, Hb. reflexivity.
  - apply (vectorElementsOp_raises _ _ _ (length b));
      [rewrite length_of_list; exact Hl | |].
    + intros i Hi. destruct (Hin i Hi) as [-> ->].
      cbn [op_div operand bind].
      destruct (inv_total p Hp (nth i b 0)) as (iy & E & _).
      rewrite E. cbn [bind]. eauto.
    + rewrite Ha, Hb. reflexivity.
  - unfold combineVectors.
    apply (for_up_raises_at _ _ 0 (length b));
      [rewrite length_of_list; exact Hl | |].
    + intros i s Hi. unfold rd.
      destruct (Hin i ltac:(lia)) as [-> ->]. cbn. eauto.
    + intros s. cbn [Nat.add]. unfold rd. rewrite Ha, Hb. reflexivity.
Qed.

Lemma longer_first_vector_raises_witness :
  addVectorElements 7 (of_list [3; 4]) (Vector (of_list [2]))
    = Throw mixed_types /\
  subVectorElements 7 (of_list [3; 4]) (Vector (of_list [2]))
    = Throw mixed_types /\
  mulVectorElements 7 (of_list [3; 4]) (Vector (of_list [2]))
    = Throw mixed_types /\
  divVectorElements 7 (of_list [3; 4]) (Vector (of_list [2]))
    = Throw mixed_types /\
  combineVectors 7 (of_list [3; 4]) (of_list [2]) = Throw mixed_types.
Proof. apply (longer_first_vector_raises 7 [3; 4] [2]); simpl; lia. Defined.

(** [combineVectors] is the inner product: for a first vector no longer
    than the second it returns the sum of the products of the entries,
    reduced. *)
Theorem combineVectors_inner_product (p : Z) (a b : list Z) :
  0 < p -> (length a <= length b)%nat ->
  combineVectors p (of_list a) (of_list b) =
    Ok (sumto (fun i => nth i a 0 * nth i b 0) (length a) mod p).
Proof.
  intros Hp Hl. unfold combineVectors. rewrite length_of_list.
  for_up_with (fun (i : nat) (result : Z) =>
    result = sumto (fun i => nth i a 0 * nth i b 0) i mod p).
  - cbn [sumto]. rewrite Z.mod_0_l by lia. reflexivity.
  - intros i s Hi ->. rewrite !rd_of_list by lia. cbn [bind].
    eexists. split; [reflexivity |].
    cbn [sumto]. rewrite mod_spec, Z.add_mod_idemp_l by lia. reflexivity.
  - subst s. reflexivity.
Qed.

Lemma combineVectors_inner_product_witness :
  combineVectors 7 (of_list [2; 6]) (of_list [3; 4; 5]) =
    Ok (sumto (fun i => nth i [2; 6] 0 * nth i [3; 4; 5] 0)
          (length [2; 6]) mod 7).
Proof.
  apply (combineVectors_inner_product 7 [2; 6] [3; 4; 5]); simpl; lia.
Defined.

(** ** Polynomials: scaling, zero operands, leading coefficients *)

Lemma for_up_ext {S : Type} (body body' : nat -> S -> res S) :
  (forall i s, body i s = body' i s) ->
  forall count lo s, for_up count lo body s = for_up count lo body' s.
Proof.
  intros H. induction count as [| c IH]; intros lo s; [reflexivity |].
  simpl. rewrite H. destruct (body' lo s); simpl; auto.
Qed.

Lemma map_seq_nth (g : Z -> Z) (a : list Z) :
  map (fun i => g (nth i a 0)) (seq 0 (length a)) = map g a.
Proof.
  apply (nth_ext _ _ (g 0) (g 0)).
  - rewrite !length_map, length_seq. reflexivity.
  - intros n Hn. rewrite length_map, length_seq in Hn.
    rewrite (map_nth g a 0 n).
    pose proof (map_nth (fun i => g (nth i a 0)) (seq 0 (length a))
                  (length a) n) as M.
    cbv beta in M. rewrite (nth_overflow a (n := length a)) in M by lia.
    rewrite M, seq_nth by exact Hn. reflexivity.
Qed.

(** [mulPolyByConstant] and the product of a vector by a scalar are one
    function: on every array, holes included, they return the same
    result or raise the same error; on a list of integers the result is
    the list of the products, reduced. *)
Theorem mulPolyByConstant_scalar (p c : Z) (a : array) (l : list Z) :
  0 < p ->
  mulPolyByConstant p a c = mulVectorElements p a (Scalar c) /\
  mulPolyByConstant p (of_list l) c =
    Ok (of_list (map (fun x => (x * c) mod p) l)).
Proof.
  intros Hp.
  assert (forall a : array,
            mulPolyByConstant p a c = mulVectorElements p a (Scalar c)) as E.
  { intros a'. cbn [mulVectorElements].
    unfold mulPolyByConstant, vectorScalarOp.
    apply for_up_ext. intros i s. unfold rd, op_mul.
    destruct (get a' i); reflexivity. }
  split; [apply E |].
  rewrite E. cbn [mulVectorElements].
  rewrite (vectorScalarOp_values _ _ _ (fun i => (nth i l 0 * c) mod p)).
  - rewrite length_of_list, (map_seq_nth (fun x => (x * c) mod p)).
    reflexivity.
  - intros i Hi. rewrite length_of_list in Hi.
    rewrite get_of_list_inside by exact Hi. cbn [op_mul operand bind].
    rewrite mul_spec by exact Hp. reflexivity.
Qed.

Lemma mulPolyByConstant_scalar_witness :
  mulPolyByConstant 7 [Some 3; None] 5 =
    mulVectorElements 7 [Some 3; None] (Scalar 5) /\
  mulPolyByConstant 7 (of_list [3; 4]) 5 =
    Ok (of_list (map (fun x => (x * 5) mod 7) [3; 4])).
Proof.
  apply (mulPolyByConstant_scalar 7 5 [Some 3; None] [3; 4]). lia.
Defined.

Lemma lastNonZeroIndex_below_spec (values : array) (n : nat) :
  match lastNonZeroIndex_below values n with
  | Some i =>
      (i < n)%nat /\ get values i <> Some 0 /\
      forall j, (i < j < n)%nat -> get values j = Some 0
  | None => forall j, (j < n)%nat -> get values j = Some 0
  end.
Proof.
  induction n as [| n IH]; cbn [lastNonZeroIndex_below].
  - intros j Hj. lia.
  - destruct (get values n) as [[| z | z] |] eqn:E.
    + destruct (lastNonZeroIndex_below values n) as [i |].
      * destruct IH as (Hi & Hnz & Hz). split; [lia | split; [exact Hnz |]].
        intros j Hj. destruct (Nat.eq_dec j n) as [-> | Hne];
          [exact E | apply Hz; lia].
      * intros j Hj. destruct (Nat.eq_dec j n) as [-> | Hne];
          [exact E | apply IH; lia].
    + split; [lia | split; [rewrite E; discriminate | intros j Hj; lia]].
    + split; [lia | split; [rewrite E; discriminate | intros j Hj; lia]].
    + split; [lia | split; [rewrite E; discriminate | intros j Hj; lia]].
Qed.

(** [lastNonZeroIndex] returns the index of the last slot that is not
    [0n], a hole counting as such a slot, and [undefined] when every
    slot is [0n]; the empty array is among the latter. *)
Lemma lastNonZeroIndex_spec (values : array) :
  match lastNonZeroIndex values with
  | Some i =>
      (i < length values)%nat /\ get values i <> Some 0 /\
      forall j, (i < j < length values)%nat -> get values j = Some 0
  | None => forall j, (j < length values)%nat -> get values j = Some 0
  end.
Proof. unfold lastNonZeroIndex. apply lastNonZeroIndex_below_spec. Qed.

Lemma lastNonZeroIndex_zeros (l : list Z) :
  Forall (fun z => z = 0) l -> lastNonZeroIndex (of_list l) = None.
Proof.
  intros Hz. pose proof (lastNonZeroIndex_below_spec (of_list l)
                           (length (of_list l))) as H.
  unfold lastNonZeroIndex.
  destruct (lastNonZeroIndex_below (of_list l) (length (of_list l)))
    as [i |]; [| reflexivity].
  destruct H as (Hi & Hnz & _). rewrite length_of_list in Hi.
  exfalso. apply Hnz. rewrite get_of_list_inside by exact Hi. f_equal.
  rewrite Forall_forall in Hz. apply Hz, nth_In, Hi.
Qed.

(** [divPolys] with a dividend or a divisor whose coefficients are all
    zero, the empty polynomial included, raises the [RangeError] of
    [new Array(NaN)]: the zero polynomial divided by a polynomial is not
    the zero polynomial, and division by the zero polynomial is not
    reported as such. *)
Theorem divPolys_zero_operand (p : Z) (a b : list Z) :
  (length b <= length a)%nat ->
  Forall (fun z => z = 0) a \/ Forall (fun z => z = 0) b ->
  divPolys p (of_list a) (of_list b) = Throw invalid_length.
Proof.
  intros Hl Hz. unfold divPolys. rewrite !length_of_list.
  destruct (Nat.ltb_spec (length a) (length b)) as [H | _]; [lia |].
  destruct Hz as [Hz | Hz]; rewrite (lastNonZeroIndex_zeros _ Hz).
  - reflexivity.
  - destruct (lastNonZeroIndex (of_list a)); reflexivity.
Qed.

Lemma divPolys_zero_operand_witness :
  divPolys 7 (of_list [0; 0]) (of_list [3; 1]) = Throw invalid_length.
Proof.
  apply (divPolys_zero_operand 7 [0; 0] [3; 1]).
  - simpl. lia.
  - left. repeat constructor.
Defined.

Lemma vanishing_reduced (p : Z) (xs : list Z) :
  1 < p -> Forall (fun z => 0 <= z < p) (vanishing p xs).
Proof.
  intros Hp. induction xs as [| x xs IH] using rev_ind.
  - repeat constructor; lia.
  - rewrite vanishing_snoc. unfold mul_linear. apply Forall_of_nth.
    intros j Hj. rewrite shift_sub_length in Hj. rewrite shift_sub_nth.
    destruct (Nat.ltb_spec j (length (vanishing p xs))) as [Hlt | Hge].
    + apply Z.mod_pos_bound. lia.
    + pose proof (vanishing_length p xs) as Hlen.
      destruct j as [| j]; [lia |]. cbn [nth].
      rewrite Forall_forall in IH. apply IH, nth_In. lia.
Qed.

(** [zpoly] returns the monic polynomial of degree [xs.length] that
    vanishes at every point of [xs]: its last coefficient is 1 and
    [evalPolyAt] gives 0 at each of the points. *)
Theorem zpoly_vanishes (p : Z) (xs : list Z) :
  1 < p ->
  exists z, zpoly p (of_list xs) = Ok (of_list z) /\
            length z = S (length xs) /\
            last z 0 = 1 /\
            forall x, In x xs -> evalPolyAt p (of_list z) x = Ok (Some 0).
Proof.
  intros Hp. exists (vanishing p xs).
  split; [apply zpoly_spec; lia |].
  split; [apply vanishing_length |].
  split; [apply vanishing_last |].
  intros x Hx.
  rewrite evalPolyAt_spec by (try exact Hp; apply vanishing_reduced, Hp).
  rewrite vanishing_peval, vprod_root by (try exact Hx; lia).
  reflexivity.
Qed.

Lemma zpoly_vanishes_witness :
  exists z, zpoly 17 (of_list [2; 5; 11]) = Ok (of_list z) /\
            length z = S (length [2; 5; 11]) /\
            last z 0 = 1 /\
            forall x, In x [2; 5; 11] ->
              evalPolyAt 17 (of_list z) x = Ok (Some 0).
Proof. apply (zpoly_vanishes 17 [2; 5; 11]). lia. Defined.

Lemma evalPolyAt_horner (p x : Z) (c : list Z) :
  1 < p -> length c <> 1%nat ->
  evalPolyAt p (of_list c) x = Ok (Some (peval c x mod p)).
Proof.
  intros Hp Hc.
  destruct c as [| c0 [| c1 [| c2 [| c3 [| c4 [| c5 c]]]]]].
  - reflexivity.
  - contradiction.
  - cbn [evalPolyAt of_list map length rd get nth operand bind peval].
    rewrite mod_spec by lia. do 2 f_equal. f_equal. ring.
  - cbn [evalPolyAt of_list map length rd get nth operand bind peval].
    rewrite mod_spec by lia. do 2 f_equal. f_equal. ring.
  - cbn [evalPolyAt of_list map length rd get nth operand bind peval].
    rewrite mod_spec by lia. do 2 f_equal. f_equal. ring.
  - cbn [evalPolyAt of_list map length rd get nth operand bind peval].
    rewrite mod_spec by lia. do 2 f_equal. f_equal. ring.
  - set (l := c0 :: c1 :: c2 :: c3 :: c4 :: c5 :: c).
    change (evalPolyAt p (of_list l) x)
      with (y <- evalPolyAt_loop p (of_list l) x ;; Ok (Some y)).
    rewrite evalPolyAt_loop_spec by exact Hp. reflexivity.
Qed.

(** [evalPolyAt] on arbitrary integer coefficients and an arbitrary
    integer point: the unrolled cases of the lengths 2 to 5 and the loop
    of the longer polynomials all return the value of the polynomial,
    reduced into [[0, p)]; the case of length 1 returns the coefficient
    as it is, which is not reduced when the coefficient is not. *)
Theorem evalPolyAt_value (p x z : Z) (c : list Z) :
  1 < p ->
  (length c <> 1%nat ->
   exists y, evalPolyAt p (of_list c) x = Ok (Some y) /\
             0 <= y < p /\ y = peval c x mod p) /\
  evalPolyAt p (of_list [z]) x = Ok (Some z) /\
  evalPolyAt p (of_list [z; 0]) x = Ok (Some (z mod p)).
Proof.
  intros Hp. split; [| split].
  - intros Hc. exists (peval c x mod p).
    split; [apply evalPolyAt_horner; assumption |].
    split; [apply Z.mod_pos_bound; lia | reflexivity].
  - reflexivity.
  - rewrite evalPolyAt_horner by (try exact Hp; discriminate).
    cbn [peval]. do 3 f_equal. ring.
Qed.

Lemma evalPolyAt_value_witness :
  (length [20; -3; 40] <> 1%nat ->
   exists y, evalPolyAt 17 (of_list [20; -3; 40]) 100 = Ok (Some y) /\
             0 <= y < 17 /\ y = peval [20; -3; 40] 100 mod 17) /\
  evalPolyAt 17 (of_list [20]) 100 = Ok (Some 20) /\
  evalPolyAt 17 (of_list [20; 0]) 100 = Ok (Some (20 mod 17)).
Proof. apply (evalPolyAt_value 17 100 20 [20; -3; 40]). lia. Defined.

(** ** Roots of unity and power cycles *)

Lemma exp_value (p b e r : Z) :
  1 < p -> 0 <= e -> exp p b e = Ok r -> r = b ^ e mod p.
Proof.
  intros Hp He E.
  destruct (Z.eq_dec (b mod p) 0) as [Hb | Hb];
    [destruct (Z.eq_dec e 0) as [Hz | Hz] |].
  - rewrite (exp_both_zero p Hp) in E by assumption. discriminate.
  - rewrite (exp_nonneg p Hp) in E by (try exact He; tauto). congruence.
  - rewrite (exp_nonneg p Hp) in E by (try exact He; tauto). congruence.
Qed.

Lemma root_search_sound (p : Z) (order : nat) (fuel : nat) :
  1 < p -> forall i g,
  root_search p fuel order i = Ok g ->
  0 <= g < p /\
  g ^ Z.of_nat order mod p = 1 /\
  g ^ (Z.of_nat order / 2) mod p <> 1.
Proof.
  intros Hp. induction fuel as [| fuel IH]; intros i g E;
    cbn [root_search] in E; destruct (i <? p); try discriminate.
  apply bind_inv in E as (g0 & Eg & E).
  apply bind_inv in E as (e1 & E1 & E).
  destruct (Z.eqb_spec e1 1) as [-> | _]; [| exact (IH _ _ E)].
  apply bind_inv in E as (e2 & E2 & E).
  destruct (Z.eqb_spec e2 1) as [-> | Hne]; cbn [negb] in E;
    [exact (IH _ _ E) |].
  injection E as <-.
  split; [exact (exp_range p Hp _ _ _ Eg) |].
  split.
  - symmetry. apply (exp_value p g0 _ 1 Hp); [lia | exact E1].
  - rewrite Z.quot_div_nonneg in E2 by lia.
    rewrite <- (exp_value p g0 _ e2 Hp); [exact Hne | | exact E2].
    apply Z.div_pos; lia.
Qed.

(** Whatever [getRootOfUnity] returns is a primitive root of unity of the
    order asked for: a field element [g] with [g^order = 1] and
    [g^(order/2) <> 1]. *)
Theorem getRootOfUnity_sound (p g : Z) (order : nat) :
  1 < p -> getRootOfUnity p order = Ok g ->
  0 <= g < p /\
  g ^ Z.of_nat order mod p = 1 /\
  g ^ (Z.of_nat order / 2) mod p <> 1.
Proof.
  intros Hp E. unfold getRootOfUnity in E.
  destruct (isPowerOf2 order); cbn [negb] in E; [| discriminate].
  exact (root_search_sound p order _ Hp _ _ E).
Qed.

Lemma getRootOfUnity_sound_witness :
  0 <= 13 < 17 /\
  13 ^ Z.of_nat 4 mod 17 = 1 /\
  13 ^ (Z.of_nat 4 / 2) mod 17 <> 1.
Proof.
  apply (getRootOfUnity_sound 17 13 4); [lia | vm_compute; reflexivity].
Defined.

Lemma cycle_loop_sound (p u : Z) (fuel : nat) :
  1 < p -> forall j r,
  (1 <= j)%nat ->
  (forall t, (0 < t < j)%nat -> u ^ Z.of_nat t mod p <> 1) ->
  cycle_loop p fuel u (u ^ Z.of_nat j mod p) (of_list (powers p u j)) = Ok r ->
  (1 <= length r)%nat /\
  r = of_list (powers p u (length r)) /\
  u ^ Z.of_nat (length r) mod p = 1 /\
  forall t, (0 < t < length r)%nat -> u ^ Z.of_nat t mod p <> 1.
Proof.
  intros Hp. induction fuel as [| fuel IH]; intros j r Hj Hmin E;
    cbn [cycle_loop] in E;
    destruct (Z.eqb_spec (u ^ Z.of_nat j mod p) 1) as [H1 | H1];
    try discriminate.
  - injection E as <-. rewrite length_of_list, length_powers. auto.
  - injection E as <-. rewrite length_of_list, length_powers. auto.
  - rewrite mul_spec, Z.mul_mod_idemp_l in E by lia.
    replace (u ^ Z.of_nat j * u) with (u ^ Z.of_nat (S j)) in E
      by (rewrite Nat2Z.inj_succ, Z.pow_succ_r by lia; ring).
    replace (of_list (powers p u j) ++ [Some (u ^ Z.of_nat j mod p)])
      with (of_list (powers p u (S j))) in E
      by (rewrite powers_snoc; unfold of_list; apply map_app).
    apply (IH (S j) r); [lia | | exact E].
    intros t Ht. destruct (Nat.eq_dec t j) as [-> | Hne];
      [exact H1 | apply Hmin; lia].
Qed.

(** Whatever [getPowerCycle] returns on a field element [u] is the list
    of the powers of [u] up to its multiplicative order: the length [n] of
    the result is the least positive exponent with [u^n = 1], and the
    entry of index [j] is [u^j]. *)
Theorem getPowerCycle_sound (p u : Z) (r : array) :
  1 < p -> 0 <= u < p -> getPowerCycle p u = Ok r ->
  (1 <= length r)%nat /\
  r = of_list (powers p u (length r)) /\
  u ^ Z.of_nat (length r) mod p = 1 /\
  forall t, (0 < t < length r)%nat -> u ^ Z.of_nat t mod p <> 1.
Proof.
  intros Hp Hu E. unfold getPowerCycle in E.
  apply (cycle_loop_sound p u (S (Z.to_nat p)) Hp 1 r); [lia | |].
  - intros t Ht. lia.
  - change (Z.of_nat 1) with 1. rewrite Z.pow_1_r, Z.mod_small by exact Hu.
    unfold powers. cbn [seq map of_list]. change (Z.of_nat 0) with 0.
    rewrite Z.pow_0_r, Z.mod_small by lia. exact E.
Qed.

Lemma getPowerCycle_sound_witness :
  (1 <= length (of_list [1; 4; 16; 13]%Z))%nat /\
  of_list [1; 4; 16; 13] =
    of_list (powers 17 4 (length (of_list [1; 4; 16; 13]))) /\
  4 ^ Z.of_nat (length (of_list [1; 4; 16; 13])) mod 17 = 1 /\
  forall t, (0 < t < length (of_list [1; 4; 16; 13]%Z))%nat ->
    4 ^ Z.of_nat t mod 17 <> 1.
Proof.
  apply (getPowerCycle_sound 17 4 (of_list [1; 4; 16; 13]));
    [lia | lia | vm_compute; reflexivity].
Defined.

(** [getPowerCycle(0n)] never returns: the value stays 0 and the loop
    goes on pushing it. *)
Lemma getPowerCycle_zero_diverges (p : Z) (fuel : nat) (result : array) :
  0 < p -> cycle_loop p fuel 0 0 result = Throw OutOfFuel.
Proof.
  intros Hp. revert result.
  induction fuel as [| fuel IH]; intros result; cbn [cycle_loop Z.eqb].
  - reflexivity.
  - rewrite mul_spec by exact Hp. cbn [Z.mul]. rewrite Z.mod_0_l by lia.
    apply IH.
Qed.

Lemma getPowerCycle_zero_diverges_witness :
  cycle_loop 17 1000 0 0 [Some 1] = Throw OutOfFuel.
Proof. apply (getPowerCycle_zero_diverges 17 1000 [Some 1]). lia. Defined.

(** ** Matrices *)

(** A loop that fills the slots of a fresh array one after the other. *)
Lemma for_up_fill {A : Type} (n : nat) (body : nat -> arr A -> res (arr A))
  (f : nat -> A) :
  (forall j r, (j < n)%nat -> body j r = Ok (set r j (f j))) ->
  for_up n 0 body (new_Array n) = Ok (of_list (map f (seq 0 n))).
Proof.
  intros Hbody.
  for_up_with (fun (i : nat) (r : arr A) =>
    length r = n /\ forall j, (j < i)%nat -> get r j = Some (f j)).
  - split; [apply length_new_Array | intros j Hj; lia].
  - intros i r Hi [Hl Hg]. rewrite Hbody by lia.
    eexists. split; [reflexivity |].
    split; [rewrite length_set by lia; exact Hl |].
    intros j Hj. destruct (Nat.eq_dec j i) as [-> | Hne].
    + apply get_set_same.
    + rewrite get_set_other by lia. apply Hg. lia.
  - destruct H as [Hl Hg]. f_equal.
    rewrite (arr_of_values s f).
    + rewrite Hl. reflexivity.
    + intros j Hj. apply Hg. lia.
Qed.

Lemma length_of_rows (rows : list (list Z)) :
  length (of_rows rows) = length rows.
Proof. unfold of_rows. rewrite length_of_list, length_map. reflexivity. Qed.

Lemma row_of_rows (rows : list (list Z)) (i : nat) :
  (i < length rows)%nat ->
  row (of_rows rows) i = Ok (of_list (nth i rows [])).
Proof.
  intros Hi. unfold row, of_rows.
  rewrite get_of_list, nth_error_map, (nth_error_nth' rows [] Hi).
  reflexivity.
Qed.

Lemma rd_entry (rows : list (list Z)) (i j : nat) :
  (j < length (nth i rows []))%nat ->
  rd (of_list (nth i rows [])) j = Ok (entry rows i j).
Proof. intros Hj. apply rd_of_list, Hj. Qed.

Lemma of_rows_map (n : nat) (g : nat -> list Z) :
  of_list (map (fun i => of_list (g i)) (seq 0 n)) =
  of_rows (map g (seq 0 n)).
Proof. unfold of_rows. rewrite map_map. reflexivity. Qed.

Lemma row_length (rows : list (list Z)) (m i : nat) :
  (forall r, In r rows -> length r = m) ->
  (i < length rows)%nat -> length (nth i rows []) = m.
Proof. intros H Hi. apply H, nth_In, Hi. Qed.

(** The sum that one cell of a product takes. *)
Lemma cell_loop (p : Z) (m : nat) (x y : nat -> Z)
  (body : nat -> Z -> res Z) :
  0 < p ->
  (forall k s, (k < m)%nat -> body k s = Ok (add p s (mul p (x k) (y k)))) ->
  for_up m 0 body 0 = Ok (sumto (fun k => x k * y k) m mod p).
Proof.
  intros Hp Hbody.
  for_up_with (fun (k : nat) (s : Z) =>
    s = sumto (fun k => x k * y k) k mod p).
  - reflexivity.
  - intros k s Hk ->. rewrite Hbody by lia.
    eexists. split; [reflexivity |]. cbn [sumto].
    rewrite add_spec, mul_spec, Z.add_mod_idemp_l, Z.add_mod_idemp_r
      by lia.
    reflexivity.
  - subst s. reflexivity.
Qed.

(** [mulMatrixes] on an [n x m] matrix and an [m x q] matrix, [n] and [m]
    at least 1: the [n x q] matrix whose entry of row [i] and column [j]
    is the sum over [k] of [a[i][k] * b[k][j]], reduced. *)
Theorem mulMatrixes_entries (p : Z) (a b : list (list Z)) (m q : nat) :
  0 < p -> (1 <= length a)%nat -> (1 <= m)%nat ->
  (forall r, In r a -> length r = m) ->
  length b = m ->
  (forall r, In r b -> length r = q) ->
  mulMatrixes p (of_rows a) (of_rows b) =
    Ok (of_rows
          (map (fun i =>
                  map (fun j =>
                         sumto (fun k => entry a i k * entry b k j) m mod p)
                    (seq 0 q))
             (seq 0 (length a)))).
Proof.
  intros Hp Hn Hm Ha Hb Hq. unfold mulMatrixes. cbv zeta.
  rewrite !row_of_rows by lia. cbn [bind].
  rewrite !length_of_list, length_of_rows.
  rewrite (row_length a m 0 Ha) by lia.
  rewrite (row_length b q 0 Hq) by lia.
  rewrite <- of_rows_map.
  apply for_up_fill. intros i result Hi.
  rewrite (for_up_fill q _
             (fun j => sumto (fun k => entry a i k * entry b k j) m mod p)).
  - reflexivity.
  - intros j r Hj.
    rewrite (cell_loop p m (fun k => entry a i k) (fun k => entry b k j)).
    + reflexivity.
    + exact Hp.
    + intros k s Hk. rewrite !row_of_rows by lia. cbn [bind].
      rewrite !rd_entry
        by (rewrite ?(row_length a m i Ha), ?(row_length b q k Hq); lia).
      reflexivity.
Qed.

Lemma mulMatrixes_entries_witness :
  mulMatrixes 7 (of_rows [[1; 2]; [3; 4]; [5; 6]])
    (of_rows [[1; 0; 2]; [3; 1; 1]]) =
    Ok (of_rows
          (map (fun i =>
                  map (fun j =>
                         sumto (fun k => entry [[1; 2]; [3; 4]; [5; 6]] i k
                                         * entry [[1; 0; 2]; [3; 1; 1]] k j)
                           2 mod 7)
                    (seq 0 3))
             (seq 0 (length [[1; 2]; [3; 4]; [5; 6]])))).
Proof.
  apply (mulMatrixes_entries 7 [[1; 2]; [3; 4]; [5; 6]]
           [[1; 0; 2]; [3; 1; 1]] 2 3); try (simpl; lia).
  - intros r [<- | [<- | [<- | []]]]; reflexivity.
  - intros r [<- | [<- | []]]; reflexivity.
Defined.

(** [mulMatrixByVector] on a matrix whose rows are at least as long as
    the vector: the vector whose [i]-th entry is the sum over [j] of
    [m[i][j] * v[j]], reduced; the columns beyond the length of the
    vector are ignored. *)
Theorem mulMatrixByVector_entries (p : Z) (m : list (list Z)) (v : list Z) :
  0 < p ->
  (forall r, In r m -> (length v <= length r)%nat) ->
  mulMatrixByVector p (of_rows m) (of_list v) =
    Ok (of_list
          (map (fun i =>
                  sumto (fun j => entry m i j * nth j v 0) (length v) mod p)
             (seq 0 (length m)))).
Proof.
  intros Hp Hm. unfold mulMatrixByVector.
  rewrite length_of_rows, length_of_list.
  apply for_up_fill. intros i result Hi.
  rewrite (cell_loop p (length v) (fun j => entry m i j)
             (fun j => nth j v 0)).
  - reflexivity.
  - exact Hp.
  - intros j s Hj. rewrite row_of_rows by exact Hi. cbn [bind].
    assert (length v <= length (nth i m []))%nat
      by (apply Hm, nth_In, Hi).
    rewrite rd_entry, rd_of_list by lia. reflexivity.
Qed.

Lemma mulMatrixByVector_entries_witness :
  mulMatrixByVector 7 (of_rows [[1; 2; 9]; [3; 4; 9]]) (of_list [5; 6]) =
    Ok (of_list
          (map (fun i =>
                  sumto (fun j => entry [[1; 2; 9]; [3; 4; 9]] i j
                                  * nth j [5; 6] 0)
                    (length [5; 6]) mod 7)
             (seq 0 (length [[1; 2; 9]; [3; 4; 9]])))).
Proof.
  apply (mulMatrixByVector_entries 7 [[1; 2; 9]; [3; 4; 9]] [5; 6]); [lia |].
  intros r [<- | [<- | []]]; simpl; lia.
Defined.

Lemma matrixElementsOp_values (op : ArithmeticOperation)
  (a b : list (list Z)) (f : nat -> nat -> Z) :
  (length a <= length b)%nat ->
  (forall i j, (i < length a)%nat -> (j < length (nth i a []))%nat ->
     op (Some (entry a i j)) (get (of_list (nth i b [])) j) = Ok (f i j)) ->
  matrixElementsOp op (of_rows a) (of_rows b) =
    Ok (of_rows (map (fun i => map (f i) (seq 0 (length (nth i a []))))
                   (seq 0 (length a)))).
Proof.
  intros Hl Hop. unfold matrixElementsOp. rewrite length_of_rows.
  rewrite <- of_rows_map.
  apply for_up_fill. intros i result Hi.
  rewrite row_of_rows by exact Hi. cbn [bind]. rewrite length_of_list.
  rewrite (for_up_fill _ _ (f i)).
  - reflexivity.
  - intros j r Hj. rewrite row_of_rows by lia. cbn [bind].
    rewrite get_of_list_inside by exact Hj.
    change (nth j (nth i a []) 0) with (entry a i j).
    rewrite Hop by assumption. reflexivity.
Qed.

(** The elementwise sum, difference and product of two matrices, the
    second of which has at least the rows and the columns of the first:
    the result has the shape of the first matrix and its entries are the
    sums, differences and products of the entries, reduced. *)
Theorem elementwise_matrices (p : Z) (a b : list (list Z)) :
  0 < p -> (length a <= length b)%nat ->
  (forall i, (i < length a)%nat ->
     (length (nth i a []) <= length (nth i b []))%nat) ->
  addMatrixElements p (of_rows a) (Matrix (of_rows b)) =
    Ok (of_rows
          (map (fun i => map (fun j => (entry a i j + entry b i j) mod p)
                           (seq 0 (length (nth i a []))))
             (seq 0 (length a)))) /\
  subMatrixElements p (of_rows a) (Matrix (of_rows b)) =
    Ok (of_rows
          (map (fun i => map (fun j => (entry a i j - entry b i j) mod p)
                           (seq 0 (length (nth i a []))))
             (seq 0 (length a)))) /\
  mulMatrixElements p (of_rows a) (Matrix (of_rows b)) =
    Ok (of_rows
          (map (fun i => map (fun j => (entry a i j * entry b i j) mod p)
                           (seq 0 (length (nth i a []))))
             (seq 0 (length a)))).
Proof.
  intros Hp Hl Hc.
  cbn [addMatrixElements subMatrixElements mulMatrixElements].
  split; [| split]; apply matrixElementsOp_values; try exact Hl;
    intros i j Hi Hj;
    (rewrite get_of_list_inside by (specialize (Hc i Hi); lia));
    change (nth j (nth i b []) 0) with (entry b i j);
    cbn [op_add op_sub op_mul operand bind];
    rewrite ?add_spec, ?sub_spec, ?mul_spec by exact Hp; reflexivity.
Qed.

Lemma elementwise_matrices_witness :
  addMatrixElements 7 (of_rows [[1; 2]; [3]])
    (Matrix (of_rows [[4; 5]; [6; 0]])) =
    Ok (of_rows
          (map (fun i => map (fun j => (entry [[1; 2]; [3]] i j
                                        + entry [[4; 5]; [6; 0]] i j) mod 7)
                           (seq 0 (length (nth i [[1; 2]; [3]] []))))
             (seq 0 (length [[1; 2]; [3]])))) /\
  subMatrixElements 7 (of_rows [[1; 2]; [3]])
    (Matrix (of_rows [[4; 5]; [6; 0]])) =
    Ok (of_rows
          (map (fun i => map (fun j => (entry [[1; 2]; [3]] i j
                                        - entry [[4; 5]; [6; 0]] i j) mod 7)
                           (seq 0 (length (nth i [[1; 2]; [3]] []))))
             (seq 0 (length [[1; 2]; [3]])))) /\
  mulMatrixElements 7 (of_rows [[1; 2]; [3]])
    (Matrix (of_rows [[4; 5]; [6; 0]])) =
    Ok (of_rows
          (map (fun i => map (fun j => (entry [[1; 2]; [3]] i j
                                        * entry [[4; 5]; [6; 0]] i j) mod 7)
                           (seq 0 (length (nth i [[1; 2]; [3]] []))))
             (seq 0 (length [[1; 2]; [3]])))).
Proof.
  apply (elementwise_matrices 7 [[1; 2]; [3]] [[4; 5]; [6; 0]]);
    [lia | simpl; lia |].
  intros [| [| i]] Hi; simpl in *; lia.
Defined.

(** *** Batch inversion of a matrix *)

Lemma offset_succ (rows : list (list Z)) (i : nat) :
  (i < length rows)%nat ->
  offset rows (S i) = (offset rows i + length (nth i rows []))%nat.
Proof.
  intros Hi. unfold offset. rewrite (firstn_snoc []) by exact Hi.
  rewrite concat_app, length_app. cbn [concat]. rewrite app_nil_r.
  reflexivity.
Qed.

Lemma concat_split (rows : list (list Z)) (i : nat) :
  (i < length rows)%nat ->
  concat rows =
    concat (firstn i rows) ++ nth i rows [] ++ concat (skipn (S i) rows).
Proof.
  intros Hi. rewrite <- (firstn_skipn i rows) at 1.
  rewrite concat_app, (skipn_cons_nth [] rows i Hi). reflexivity.
Qed.

Lemma offset_bound (rows : list (list Z)) (i : nat) :
  (i < length rows)%nat ->
  (offset rows i + length (nth i rows []) <= length (concat rows))%nat.
Proof.
  intros Hi. rewrite (concat_split rows i Hi).
  rewrite !length_app. unfold offset. lia.
Qed.

Lemma nth_concat (rows : list (list Z)) (i j : nat) :
  (i < length rows)%nat -> (j < length (nth i rows []))%nat ->
  nth (offset rows i + j) (concat rows) 0 = entry rows i j.
Proof.
  intros Hi Hj. rewrite (concat_split rows i Hi). unfold offset.
  rewrite app_nth2_plus, app_nth1 by exact Hj. reflexivity.
Qed.

(** A matrix whose rows are filled is the image of a list of rows. *)
Lemma matrix_filled (M : matrix) (len : nat -> nat)
  (R : nat -> nat -> Z -> Prop) :
  (forall i, (i < length M)%nat ->
     exists r, get M i = Some r /\ length r = len i /\
       forall j, (j < len i)%nat -> exists w, get r j = Some w /\ R i j w) ->
  exists w, M = of_rows w /\ length w = length M /\
    forall i, (i < length M)%nat ->
      length (nth i w []) = len i /\
      forall j, (j < len i)%nat -> R i j (entry w i j).
Proof.
  intros H.
  set (unslot := fun o : option Z => match o with Some w => w | None => 0 end).
  set (unrow := fun o : option array =>
                  match o with Some r => map unslot r | None => [] end).
  assert (forall i, (i < length M)%nat ->
            exists r, get M i = Some r /\ nth i (map unrow M) [] = map unslot r)
    as Hrow.
  { intros i Hi. destruct (H i Hi) as (r & E & _). exists r.
    split; [exact E |].
    pose proof (map_nth unrow M None i) as Mn. cbv beta in Mn.
    change (unrow None) with (@nil Z) in Mn. rewrite Mn.
    unfold get in E. rewrite E. reflexivity. }
  exists (map unrow M). split; [| split].
  - apply arr_ext; [rewrite length_of_rows, length_map; reflexivity |].
    intros i Hi. destruct (H i Hi) as (r & E & Hl & Hs).
    destruct (Hrow i Hi) as (r' & E' & Hn).
    rewrite E in E'. injection E' as <-.
    assert (i < length (map unrow M))%nat as Hi'
      by (rewrite length_map; exact Hi).
    rewrite E. unfold of_rows.
    rewrite get_of_list, nth_error_map,
      (nth_error_nth' (map unrow M) [] Hi'), Hn.
    cbn [option_map]. f_equal.
    apply arr_ext; [rewrite length_of_list, length_map; reflexivity |].
    intros j Hj. rewrite Hl in Hj. destruct (Hs j Hj) as (w & Ew & _).
    rewrite Ew, get_of_list, nth_error_map.
    unfold get in Ew.
    rewrite (nth_error_nth' r None) by (rewrite Hl; exact Hj).
    rewrite Ew. reflexivity.
  - apply length_map.
  - intros i Hi. destruct (H i Hi) as (r & E & Hl & Hs).
    destruct (Hrow i Hi) as (r' & E' & Hn).
    rewrite E in E'. injection E' as <-.
    split; [rewrite Hn, length_map; exact Hl |].
    intros j Hj. destruct (Hs j Hj) as (w & Ew & Hr).
    unfold entry. rewrite Hn.
    pose proof (map_nth unslot r None j) as Mn. cbv beta in Mn.
    change (unslot None) with 0 in Mn. rewrite Mn.
    unfold get in Ew. rewrite Ew. exact Hr.
Qed.

Section MatrixInversion.

Variable p : Z.
Hypothesis p_prime : Z.prime p.
Variable rows : list (list Z).
Hypothesis rows_reduced :
  forall r, In r rows -> Forall (fun x => 0 <= x < p) r.

Let p_gt_1 : 1 < p := prime_gt_1 p p_prime.
Let p_pos : 0 < p := Z.lt_trans 0 1 p Z.lt_0_1 p_gt_1.
Let flat : list Z := concat rows.
Let n : nat := length rows.

(** What the second pass leaves in the cell of row [i] and column [j]. *)
Let left_in_cell (i j : nat) (w : Z) : Prop :=
  0 <= w < p /\
  (entry rows i j = 0 -> w = 0) /\
  (entry rows i j <> 0 ->
   (w * prefix p flat (offset rows i + j)) mod p = 1).

Lemma flat_reduced : Forall (fun x => 0 <= x < p) flat.
Proof.
  apply Forall_concat, Forall_forall. exact rows_reduced.
Qed.

Lemma entry_reduced (i j : nat) :
  (i < n)%nat -> (j < length (nth i rows []))%nat ->
  0 <= entry rows i j < p.
Proof.
  intros Hi Hj.
  apply (proj1 (Forall_forall _ _) (rows_reduced _ (nth_In rows [] Hi))).
  apply nth_In, Hj.
Qed.

Lemma prefix_step (i j : nat) :
  (i < n)%nat -> (j < length (nth i rows []))%nat ->
  prefix p flat (S (offset rows i + j)) =
    (prefix p flat (offset rows i + j) * nz (entry rows i j)) mod p.
Proof.
  intros Hi Hj. pose proof (offset_bound rows i Hi) as Hb.
  rewrite prefix_succ by (unfold flat; lia).
  unfold flat. rewrite nth_concat by assumption. reflexivity.
Qed.

Lemma invMatrixElements_slots :
  exists out, invMatrixElements p (of_rows rows) = Ok out /\
    length out = n /\
    forall i, (i < n)%nat ->
      exists r, get out i = Some r /\
        length r = length (nth i rows []) /\
        forall j, (j < length (nth i rows []))%nat ->
          exists w, get r j = Some w /\ left_in_cell i j w.
Proof.
  unfold invMatrixElements. cbv zeta. rewrite length_of_rows. fold n.
  for_up_with (fun (i : nat) (s : matrix * Z) =>
    length (fst s) = n /\
    (forall i', (i' < i)%nat ->
       exists r, get (fst s) i' = Some r /\
                 length r = length (nth i' rows [])) /\
    snd s = prefix p flat (offset rows i)).
  - cbn [fst snd]. split; [apply length_new_Array |].
    split; [intros i' Hi'; lia | reflexivity].
  - intros i s Hi (Hl & Hr & Hs). cbn [Nat.add] in Hi.
    rewrite row_of_rows by (fold n; lia). cbn [bind].
    rewrite length_of_list.
    for_up_with (fun (j : nat) (t : array * Z) =>
      length (fst t) = length (nth i rows []) /\
      snd t = prefix p flat (offset rows i + j)).
    + cbn [fst snd]. split; [apply length_new_Array |].
      rewrite Nat.add_0_r. exact Hs.
    + intros j t Hj (Tl & Ts). cbn [Nat.add] in Hj.
      eexists. split; [reflexivity |]. cbn [fst snd].
      split; [rewrite length_set by lia; exact Tl |].
      rewrite mod_spec, or_one_slot, Ts by (try exact p_pos; lia).
      rewrite Nat.add_succ_r, prefix_step by lia. reflexivity.
    + destruct H as (Tl & Ts). cbn [Nat.add] in Ts.
      eexists. split; [reflexivity |]. cbn [fst snd].
      split; [rewrite length_set by lia; exact Hl |]. split.
      * intros i' Hi'. destruct (Nat.eq_dec i' i) as [-> | Hne].
        -- rewrite get_set_same. eauto.
        -- rewrite get_set_other by lia. apply Hr. lia.
      * rewrite offset_succ by (fold n; lia). exact Ts.
  - destruct H as (Hl & Hr & Hs). cbn [Nat.add] in Hr, Hs.
    assert (offset rows n = length flat) as Hall
      by (unfold offset, n, flat; rewrite firstn_all; reflexivity).
    assert (forall k, (k <= length flat)%nat -> 0 < prefix p flat k < p)
      as Hunit by (apply (prefix_unit p p_prime), flat_reduced).
    destruct (inv_total p p_pos (snd s)) as (inv0 & E0 & R0).
    rewrite E0. cbn [bind].
    assert ((prefix p flat (offset rows n) * inv0) mod p = 1) as I0.
    { rewrite <- Hs. apply (inv_correct p p_pos _ _ p_gt_1); [| exact E0].
      rewrite Hs. apply prime_coprime_reduced; [exact p_prime |].
      apply Hunit. lia. }
    for_down_with (fun (i : nat) (s : matrix * Z) =>
      length (fst s) = n /\
      (forall i', (i' < n)%nat ->
         exists r, get (fst s) i' = Some r /\
                   length r = length (nth i' rows [])) /\
      (forall i', (i <= i' < n)%nat ->
         exists r, get (fst s) i' = Some r /\
           length r = length (nth i' rows []) /\
           forall j, (j < length (nth i' rows []))%nat ->
             exists w, get r j = Some w /\ left_in_cell i' j w) /\
      0 <= snd s < p /\
      (prefix p flat (offset rows i) * snd s) mod p = 1).
    + cbn [fst snd]. split; [exact Hl |]. split; [exact Hr |].
      split; [intros i' Hi'; lia |]. split; assumption.
    + intros i t Hi (Tl & Tall & Tdone & Tr & Ti).
      rewrite row_of_rows by (fold n; lia). cbn [bind].
      destruct (Tall i Hi) as (rRow & Er & Lr).
      unfold row at 1. rewrite Er. cbn [bind]. rewrite length_of_list.
      rewrite offset_succ in Ti by (fold n; lia).
      for_down_with (fun (j : nat) (u : array * Z) =>
        length (fst u) = length (nth i rows []) /\
        (forall j', (j <= j' < length (nth i rows []))%nat ->
           exists w, get (fst u) j' = Some w /\ left_in_cell i j' w) /\
        0 <= snd u < p /\
        (prefix p flat (offset rows i + j) * snd u) mod p = 1).
      * cbn [fst snd]. split; [exact Lr |].
        split; [intros j' Hj'; lia |]. split; assumption.
      * intros j u Hj (Ul & Udone & Ur & Ui).
        pose proof (entry_reduced i j Hi Hj) as Hx.
        pose proof (offset_bound rows i Hi) as Hb.
        assert (0 < prefix p flat (offset rows i + j) < p) as Hpj
          by (apply Hunit; unfold flat; lia).
        rewrite Nat.add_succ_r, prefix_step in Ui by assumption.
        rewrite Z.mul_mod_idemp_l in Ui by lia.
        rewrite truthy_slot, or_one_slot, rd_of_list by exact Hj.
        change (nth j (nth i rows []) 0) with (entry rows i j).
        unfold nz in *.
        destruct (Z.eqb_spec (entry rows i j) 0) as [Ez | Enz];
          cbn [negb bind];
          (eexists; split; [reflexivity |]); cbn [fst snd];
          (split; [rewrite length_set by lia; exact Ul |]).
        -- split; [| split; [apply mod_range, p_pos |]].
           ++ intros j' Hj'. destruct (Nat.eq_dec j j') as [<- | Hne].
              ** rewrite get_set_same. eexists. split; [reflexivity |].
                 split; [rewrite mod_small; lia |].
                 split; [intros _; apply mod_small; lia | contradiction].
              ** rewrite get_set_other by exact Hne. apply Udone. lia.
           ++ rewrite mul_spec, Z.mul_mod_idemp_r by lia.
              etransitivity; [| exact Ui]. f_equal. ring.
        -- split; [| split; [apply mod_range, p_pos |]].
           ++ intros j' Hj'. destruct (Nat.eq_dec j j') as [<- | Hne].
              ** rewrite get_set_same. eexists. split; [reflexivity |].
                 split; [apply mod_range, p_pos |].
                 split; [intros Ez; contradiction |]. intros _.
                 rewrite mod_spec, Z.mul_mod_idemp_l by lia.
                 etransitivity; [| exact Ui]. f_equal. ring.
              ** rewrite get_set_other by exact Hne. apply Udone. lia.
           ++ rewrite mul_spec, Z.mul_mod_idemp_r by lia.
              etransitivity; [| exact Ui]. f_equal. ring.
      * destruct H as (Ul & Udone & Ur & Ui). rewrite Nat.add_0_r in Ui.
        eexists. split; [reflexivity |]. cbn [fst snd].
        split; [rewrite length_set by lia; exact Tl |].
        split; [| split; [| split; assumption]].
        -- intros i' Hi'. destruct (Nat.eq_dec i' i) as [-> | Hne].
           ++ rewrite get_set_same. eauto.
           ++ rewrite get_set_other by lia. apply Tall. exact Hi'.
        -- intros i' Hi'. destruct (Nat.eq_dec i' i) as [-> | Hne].
           ++ rewrite get_set_same. eexists. split; [reflexivity |].
              split; [exact Ul |]. intros j Hj. apply Udone. lia.
           ++ rewrite get_set_other by lia. apply Tdone. lia.
    + destruct H as (Tl & _ & Tdone & _).
      eexists. split; [reflexivity |]. split; [exact Tl |].
      intros i Hi. apply Tdone. lia.
Qed.

End MatrixInversion.

(** [invMatrixElements] does not invert the entries.  For a prime modulus
    and a matrix of field elements it returns a matrix of the same shape
    in which a zero entry gives 0 and a nonzero entry gives the inverse
    of the product of the nonzero entries that come before it, row after
    row: the second pass multiplies the running inverse by the entry of
    the source, where [invVectorElements] multiplies it by the running
    product.  So a nonzero first entry always gives 1. *)
Theorem invMatrixElements_entries (p : Z) (rows : list (list Z)) :
  Z.prime p ->
  (forall r, In r rows -> Forall (fun x => 0 <= x < p) r) ->
  exists w, invMatrixElements p (of_rows rows) = Ok (of_rows w) /\
    length w = length rows /\
    (forall i, (i < length rows)%nat ->
       length (nth i w []) = length (nth i rows []) /\
       forall j, (j < length (nth i rows []))%nat ->
         0 <= entry w i j < p /\
         (entry rows i j = 0 -> entry w i j = 0) /\
         (entry rows i j <> 0 ->
          (entry w i j * prefix p (concat rows) (offset rows i + j)) mod p
            = 1)) /\
    (forall rest x xs, rows = (x :: xs) :: rest -> x <> 0 ->
       entry w 0 0 = 1).
Proof.
  intros Hp Hr. pose proof (prime_gt_1 p Hp) as Hp1.
  destruct (invMatrixElements_slots p Hp rows Hr) as (out & E & Hl & Hs).
  destruct (matrix_filled out (fun i => length (nth i rows []))
              (fun i j w =>
                 0 <= w < p /\
                 (entry rows i j = 0 -> w = 0) /\
                 (entry rows i j <> 0 ->
                  (w * prefix p (concat rows) (offset rows i + j)) mod p = 1)))
    as (w & -> & Hlw & Hw).
  { rewrite Hl. exact Hs. }
  exists w. split; [exact E |]. split; [congruence |]. split.
  - intros i Hi. apply Hw. rewrite Hl. exact Hi.
  - intros rest x xs -> Hx.
    destruct (Hw 0%nat) as [_ H0]; [rewrite Hl; cbn; lia |].
    destruct (H0 0%nat) as (Hb & _ & Hnz); [cbn; lia |].
    specialize (Hnz Hx). cbn in Hnz.
    rewrite Z.mul_1_r, Z.mod_small in Hnz by exact Hb. exact Hnz.
Qed.

Lemma invMatrixElements_entries_witness :
  exists w, invMatrixElements 7 (of_rows [[2; 3]; [0; 5]]) = Ok (of_rows w) /\
    length w = length [[2; 3]; [0; 5]] /\
    (forall i, (i < length [[2; 3]; [0; 5]]%Z)%nat ->
       length (nth i w []) = length (nth i [[2; 3]; [0; 5]] []) /\
       forall j, (j < length (nth i [[2; 3]; [0; 5]]%Z []))%nat ->
         0 <= entry w i j < 7 /\
         (entry [[2; 3]; [0; 5]] i j = 0 -> entry w i j = 0) /\
         (entry [[2; 3]; [0; 5]] i j <> 0 ->
          (entry w i j
           * prefix 7 (concat [[2; 3]; [0; 5]])
               (offset [[2; 3]; [0; 5]] i + j)) mod 7 = 1)) /\
    (forall rest x xs, [[2; 3]; [0; 5]] = (x :: xs) :: rest -> x <> 0 ->
       entry w 0 0 = 1).
Proof.
  apply (invMatrixElements_entries 7 [[2; 3]; [0; 5]]).
  - apply primeb_sound. vm_compute. reflexivity.
  - intros r [<- | [<- | []]]; repeat constructor; lia.
Defined.

(** ** Sums, differences and products of polynomials *)

Lemma coefficient_of_list (a : list Z) (i : nat) :
  coefficient (of_list a) i = Ok (nth i a 0).
Proof.
  unfold coefficient. rewrite length_of_list.
  destruct (Nat.ltb_spec i (length a)) as [Hi | Hi].
  - apply rd_of_list, Hi.
  - rewrite nth_overflow by exact Hi. reflexivity.
Qed.

Lemma nth_pad (c : list Z) (k j : nat) :
  nth j (c ++ repeat 0 k) 0 = nth j c 0.
Proof.
  destruct (Nat.lt_ge_cases j (length c)) as [Hj | Hj].
  - apply app_nth1, Hj.
  - rewrite app_nth2, (nth_overflow c) by exact Hj.
    destruct (Nat.lt_ge_cases (j - length c) k) as [Hk | Hk].
    + apply nth_repeat_lt, Hk.
    + apply nth_overflow. rewrite repeat_length. exact Hk.
Qed.

Lemma peval_pad (c : list Z) (k : nat) (X : Z) :
  peval (c ++ repeat 0 k) X = peval c X.
Proof. rewrite peval_app, peval_zeros. ring. Qed.

Lemma addPolys_values (p : Z) (a b : list Z) :
  0 < p ->
  addPolys p (of_list a) (of_list b) =
    Ok (of_list (map (fun i => (nth i a 0 + nth i b 0) mod p)
                   (seq 0 (Nat.max (length a) (length b))))).
Proof.
  intros Hp. unfold addPolys. cbv zeta. rewrite !length_of_list.
  apply for_up_fill. intros j r Hj.
  rewrite !coefficient_of_list. cbn [bind].
  rewrite mod_spec by exact Hp. reflexivity.
Qed.

Lemma subPolys_values (p : Z) (a b : list Z) :
  0 < p ->
  subPolys p (of_list a) (of_list b) =
    Ok (of_list (map (fun i => (nth i a 0 - nth i b 0) mod p)
                   (seq 0 (Nat.max (length a) (length b))))).
Proof.
  intros Hp. unfold subPolys. cbv zeta. rewrite !length_of_list.
  apply for_up_fill. intros j r Hj.
  rewrite !coefficient_of_list. cbn [bind].
  rewrite mod_spec by exact Hp. reflexivity.
Qed.

Lemma map_seq_reduced (p : Z) (f : nat -> Z) (n : nat) :
  0 < p -> Forall (fun z => 0 <= z < p) (map (fun i => f i mod p) (seq 0 n)).
Proof.
  intros Hp. apply Forall_forall. intros z Hz.
  apply in_map_iff in Hz as (i & <- & _). apply Z.mod_pos_bound, Hp.
Qed.

Lemma peval_combination (p s X : Z) (a b : list Z) :
  0 < p ->
  peval (map (fun i => (nth i a 0 + nth i b 0 * s) mod p)
           (seq 0 (Nat.max (length a) (length b)))) X mod p =
  (peval a X + s * peval b X) mod p.
Proof.
  intros Hp. set (n := Nat.max (length a) (length b)).
  rewrite <- (peval_pad a (n - length a) X), <- (peval_pad b (n - length b) X).
  apply peval_axpy; [exact Hp | | |].
  - rewrite length_map, length_seq, length_app, repeat_length. lia.
  - rewrite !length_app, !repeat_length. lia.
  - intros j Hj. rewrite length_app, repeat_length in Hj.
    rewrite nth_map_seq, !nth_pad, Z.mod_mod by lia. reflexivity.
Qed.

(** [addPolys] and [subPolys] are the sum and the difference of
    polynomials: the result has the length of the longer operand, and at
    every point its value is the sum, or the difference, of the values
    of the operands. *)
Theorem addPolys_subPolys_evaluation (p x : Z) (a b : list Z) :
  1 < p ->
  Forall (fun z => 0 <= z < p) a -> Forall (fun z => 0 <= z < p) b ->
  exists s d va vb,
    addPolys p (of_list a) (of_list b) = Ok (of_list s) /\
    subPolys p (of_list a) (of_list b) = Ok (of_list d) /\
    length s = Nat.max (length a) (length b) /\
    length d = Nat.max (length a) (length b) /\
    evalPolyAt p (of_list a) x = Ok (Some va) /\
    evalPolyAt p (of_list b) x = Ok (Some vb) /\
    evalPolyAt p (of_list s) x = Ok (Some (add p va vb)) /\
    evalPolyAt p (of_list d) x = Ok (Some (sub p va vb)).
Proof.
  intros Hp Ha Hb. assert (0 < p) as H0 by lia.
  eexists. eexists. exists (peval a x mod p), (peval b x mod p).
  split; [apply addPolys_values, H0 |].
  split; [apply subPolys_values, H0 |].
  split; [rewrite length_map, length_seq; reflexivity |].
  split; [rewrite length_map, length_seq; reflexivity |].
  split; [apply evalPolyAt_spec; assumption |].
  split; [apply evalPolyAt_spec; assumption |].
  split.
  - rewrite evalPolyAt_spec by (try exact Hp; apply map_seq_reduced, H0).
    do 2 f_equal. rewrite add_spec, <- Z.add_mod by lia.
    replace (peval a x + peval b x) with (peval a x + 1 * peval b x) by ring.
    rewrite <- (peval_combination p 1 x a b H0).
    f_equal. f_equal. apply map_ext. intros i.
    rewrite Z.mul_1_r. reflexivity.
  - rewrite evalPolyAt_spec by (try exact Hp; apply map_seq_reduced, H0).
    do 2 f_equal. rewrite sub_spec, <- Zminus_mod by lia.
    replace (peval a x - peval b x) with (peval a x + -1 * peval b x) by ring.
    rewrite <- (peval_combination p (-1) x a b H0).
    f_equal. f_equal. apply map_ext. intros i. f_equal. ring.
Qed.

Lemma addPolys_subPolys_evaluation_witness :
  exists s d va vb,
    addPolys 7 (of_list [1; 2]) (of_list [3; 4; 5]) = Ok (of_list s) /\
    subPolys 7 (of_list [1; 2]) (of_list [3; 4; 5]) = Ok (of_list d) /\
    length s = Nat.max (length [1; 2]) (length [3; 4; 5]) /\
    length d = Nat.max (length [1; 2]) (length [3; 4; 5]) /\
    evalPolyAt 7 (of_list [1; 2]) 3 = Ok (Some va) /\
    evalPolyAt 7 (of_list [3; 4; 5]) 3 = Ok (Some vb) /\
    evalPolyAt 7 (of_list s) 3 = Ok (Some (add 7 va vb)) /\
    evalPolyAt 7 (of_list d) 3 = Ok (Some (sub 7 va vb)).
Proof.
  apply (addPolys_subPolys_evaluation 7 3 [1; 2] [3; 4; 5]);
    [lia | repeat constructor; lia | repeat constructor; lia].
Defined.

Lemma coefficients_of_list (c : list Z) : coefficients (of_list c) = c.
Proof.
  unfold coefficients, of_list. rewrite map_map. apply map_id.
Qed.

Lemma nth_coefficients (r : array) (k : nat) :
  nth k (coefficients r) 0 =
    match get r k with Some v => v | None => 0 end.
Proof.
  unfold coefficients, get.
  exact (map_nth (fun o => match o with Some v => v | None => 0 end) r None k).
Qed.

Lemma slot_or_zero (r : array) (k : nat) :
  (if truthy (get r k) then rd r k else Ok 0) =
    Ok (nth k (coefficients r) 0).
Proof.
  rewrite nth_coefficients. unfold rd.
  destruct (get r k) as [[| v | v] |]; reflexivity.
Qed.

Lemma peval_set (X v : Z) (r : array) : forall k,
  (k < length r)%nat ->
  peval (coefficients (set r k v)) X =
    peval (coefficients r) X
    + (v - nth k (coefficients r) 0) * X ^ Z.of_nat k.
Proof.
  induction r as [| h t IH]; intros k Hk; [simpl in Hk; lia |].
  destruct k as [| k].
  - cbn [set set_slot coefficients map peval nth]. change (Z.of_nat 0) with 0.
    rewrite Z.pow_0_r. ring.
  - cbn [length] in Hk. specialize (IH k ltac:(lia)).
    unfold set in *. cbn [set_slot coefficients map peval nth].
    fold (coefficients t). fold (coefficients (set_slot t k (Some v))).
    rewrite IH, Nat2Z.inj_succ, Z.pow_succ_r by lia. ring.
Qed.

Lemma peval_firstn_succ (c : list Z) (i : nat) (X : Z) :
  (i < length c)%nat ->
  peval (firstn (S i) c) X =
    peval (firstn i c) X + nth i c 0 * X ^ Z.of_nat i.
Proof.
  intros Hi. rewrite (firstn_snoc 0) by exact Hi.
  rewrite peval_app, length_firstn. cbn [peval].
  replace (Nat.min i (length c)) with i by lia. ring.
Qed.

Lemma mulPolys_slots (p : Z) (a b : list Z) :
  0 < p -> (1 <= length a)%nat -> (1 <= length b)%nat ->
  exists r, mulPolys p (of_list a) (of_list b) = Ok r /\
    length r = (length a + length b - 1)%nat /\
    (forall k, (k < length a + length b - 1)%nat ->
       exists v, get r k = Some v /\ 0 <= v < p) /\
    forall X, peval (coefficients r) X mod p = (peval a X * peval b X) mod p.
Proof.
  intros Hp Ha Hb. unfold mulPolys. rewrite !length_of_list.
  destruct (Nat.eqb_spec (length a + length b) 0) as [H0 | _]; [lia |].
  set (N := (length a + length b - 1)%nat).
  for_up_with (fun (i : nat) (r : array) =>
    length r = N /\
    (forall k v, get r k = Some v -> 0 <= v < p) /\
    (forall i' j', (i' < i)%nat -> (j' < length b)%nat ->
       get r (i' + j') <> None) /\
    forall X, peval (coefficients r) X mod p =
              (peval (firstn i a) X * peval b X) mod p).
  - split; [apply length_new_Array |]. split; [| split].
    + intros k v E. rewrite get_new_Array in E. discriminate.
    + intros i' j' Hi'. lia.
    + intros X. cbn [firstn peval]. unfold coefficients, new_Array.
      rewrite map_repeat, peval_zeros. reflexivity.
  - intros i r Hi (Hl & Hred & Hfill & Hval). cbn [Nat.add] in Hi.
    for_up_with (fun (j : nat) (r : array) =>
      length r = N /\
      (forall k v, get r k = Some v -> 0 <= v < p) /\
      (forall i' j', (i' < i /\ j' < length b \/ i' = i /\ j' < j)%nat ->
         get r (i' + j') <> None) /\
      forall X, peval (coefficients r) X mod p =
                (peval (firstn i a) X * peval b X
                 + nth i a 0 * X ^ Z.of_nat i * peval (firstn j b) X) mod p).
    + split; [exact Hl |]. split; [exact Hred |]. split.
      * intros i' j' [[H1 H2] | [_ H2]]; [apply Hfill; assumption | lia].
      * intros X. cbn [firstn peval]. rewrite Hval. f_equal. ring.
    + intros j t Hj (Tl & Tred & Tfill & Tval). cbn [Nat.add] in Hj.
      rewrite slot_or_zero. cbn [bind].
      rewrite !rd_of_list by lia. cbn [bind].
      eexists. split; [reflexivity |].
      split; [rewrite length_set by (unfold N in *; lia); exact Tl |].
      split; [| split].
      * intros k v E. destruct (Nat.eq_dec k (i + j)) as [-> | Hne].
        -- rewrite get_set_same in E. injection E as <-.
           apply mod_range, Hp.
        -- rewrite get_set_other in E by lia. exact (Tred k v E).
      * intros i' j' Hc.
        destruct (Nat.eq_dec (i' + j') (i + j)) as [-> | Hne].
        -- rewrite get_set_same. discriminate.
        -- rewrite get_set_other by lia. apply Tfill.
           destruct Hc as [Hc | [-> Hc]]; [left; exact Hc |].
           right. split; [reflexivity | lia].
      * intros X. rewrite peval_set by (unfold N in *; lia).
        rewrite peval_firstn_succ by lia.
        rewrite mod_spec by exact Hp.
        set (c := nth (i + j) (coefficients t) 0).
        set (ab := nth i a 0 * nth j b 0).
        assert (((c + ab) mod p - c) mod p = ab mod p) as Hd.
        { rewrite Zminus_mod_idemp_l. f_equal. ring. }
        rewrite Z.add_mod, (Z.mul_mod (_ - c)), Hd, <- Z.mul_mod,
          Tval, <- Z.add_mod by lia.
        f_equal. unfold ab. rewrite Nat2Z.inj_add, Z.pow_add_r by lia. ring.
    + destruct H as (Tl & Tred & Tfill & Tval). cbn [Nat.add] in Tfill, Tval.
      eexists. split; [reflexivity |].
      split; [exact Tl |]. split; [exact Tred |]. split.
      * intros i' j' Hi' Hj'. apply Tfill.
        destruct (Nat.eq_dec i' i) as [-> | Hne]; [right | left]; lia.
      * intros X. rewrite Tval, firstn_all, peval_firstn_succ by lia.
        f_equal. ring.
  - destruct H as (Hl & Hred & Hfill & Hval). cbn [Nat.add] in Hfill, Hval.
    eexists. split; [reflexivity |]. split; [exact Hl |]. split.
    + intros k Hk.
      assert (get s k <> None) as Hn.
      { destruct (Nat.lt_ge_cases k (length a)) as [Hlt | Hge].
        - replace k with (k + 0)%nat by lia. apply Hfill; lia.
        - replace k with ((length a - 1) + (k - (length a - 1)))%nat by lia.
          apply Hfill; unfold N in *; lia. }
      destruct (get s k) as [v |] eqn:Ek; [| contradiction].
      exists v. split; [reflexivity | exact (Hred k v Ek)].
    + intros X. rewrite Hval, firstn_all. reflexivity.
Qed.

(** [mulPolys] is the product of polynomials: for two nonempty
    polynomials the result has [a.length + b.length - 1] coefficients and
    at every point its value is the product of the values of the
    operands. *)
Theorem mulPolys_evaluation (p x : Z) (a b : list Z) :
  1 < p -> (1 <= length a)%nat -> (1 <= length b)%nat ->
  Forall (fun z => 0 <= z < p) a -> Forall (fun z => 0 <= z < p) b ->
  exists c va vb,
    mulPolys p (of_list a) (of_list b) = Ok (of_list c) /\
    length c = (length a + length b - 1)%nat /\
    evalPolyAt p (of_list a) x = Ok (Some va) /\
    evalPolyAt p (of_list b) x = Ok (Some vb) /\
    evalPolyAt p (of_list c) x = Ok (Some (mul p va vb)).
Proof.
  intros Hp Hla Hlb Ha Hb. assert (0 < p) as H0 by lia.
  destruct (mulPolys_slots p a b H0 Hla Hlb) as (r & E & Hl & Hs & Hv).
  destruct (arr_filled r (fun _ v => 0 <= v < p)) as (c & -> & Hlc & Hc).
  { rewrite Hl. exact Hs. }
  rewrite coefficients_of_list in Hv.
  exists c, (peval a x mod p), (peval b x mod p).
  split; [exact E |]. split; [congruence |].
  split; [apply evalPolyAt_spec; assumption |].
  split; [apply evalPolyAt_spec; assumption |].
  rewrite evalPolyAt_spec.
  - rewrite Hv, mul_spec, <- Z.mul_mod by lia. reflexivity.
  - exact Hp.
  - apply Forall_of_nth. intros j Hj. apply Hc. congruence.
Qed.

Lemma mulPolys_evaluation_witness :
  exists c va vb,
    mulPolys 7 (of_list [1; 2]) (of_list [3; 4; 5]) = Ok (of_list c) /\
    length c = (length [1; 2]%Z + length [3; 4; 5]%Z - 1)%nat /\
    evalPolyAt 7 (of_list [1; 2]) 3 = Ok (Some va) /\
    evalPolyAt 7 (of_list [3; 4; 5]) 3 = Ok (Some vb) /\
    evalPolyAt 7 (of_list c) 3 = Ok (Some (mul 7 va vb)).
Proof.
  apply (mulPolys_evaluation 7 3 [1; 2] [3; 4; 5]);
    [lia | simpl; lia | simpl; lia
     | repeat constructor; lia | repeat constructor; lia].
Defined.

(** ** Division of polynomials *)

Lemma peval_firstn_tail (b : list Z) (k : nat) (X : Z) :
  (forall t, (k <= t < length b)%nat -> nth t b 0 = 0) ->
  peval (firstn k b) X = peval b X.
Proof.
  intros Hz. rewrite <- (firstn_skipn k b) at 2.
  replace (skipn k b) with (repeat 0 (length b - k)).
  - symmetry. apply peval_pad.
  - apply (nth_ext _ _ 0 0).
    + rewrite repeat_length, length_skipn. reflexivity.
    + intros t Ht. rewrite repeat_length in Ht.
      rewrite nth_repeat_lt, nth_skipn by exact Ht.
      symmetry. apply Hz. lia.
Qed.

Lemma coefficients_new_Array (n : nat) (X : Z) :
  peval (coefficients (new_Array n)) X = 0.
Proof.
  unfold coefficients, new_Array. rewrite map_repeat. apply peval_zeros.
Qed.

Lemma coefficient_at (A : array) (k : nat) (v : Z) :
  get A k = Some v -> nth k (coefficients A) 0 = v.
Proof. intros E. rewrite nth_coefficients, E. reflexivity. Qed.

Section Division.

Variable p : Z.
Hypothesis p_prime : Z.prime p.
Variables a b : list Z.
Hypothesis b_reduced : Forall (fun z => 0 <= z < p) b.
Variables apos bpos : nat.
Hypothesis a_top : lastNonZeroIndex (of_list a) = Some apos.
Hypothesis b_top : lastNonZeroIndex (of_list b) = Some bpos.
Hypothesis degrees : (bpos <= apos)%nat.

Let p_gt_1 : 1 < p := prime_gt_1 p p_prime.
Let p_pos : 0 < p := Z.lt_trans 0 1 p Z.lt_0_1 p_gt_1.
Let count : nat := (apos + 1 - bpos)%nat.

Lemma a_top_spec :
  (apos < length a)%nat /\
  forall t, (apos < t < length a)%nat -> get (of_list a) t = Some 0.
Proof.
  pose proof (lastNonZeroIndex_spec (of_list a)) as H.
  rewrite a_top, length_of_list in H. tauto.
Qed.

Lemma b_top_spec :
  (bpos < length b)%nat /\ 0 < nth bpos b 0 < p /\
  forall t, (bpos < t < length b)%nat -> nth t b 0 = 0.
Proof.
  pose proof (lastNonZeroIndex_spec (of_list b)) as H.
  rewrite b_top, length_of_list in H. destruct H as (Hb & Hnz & Hz).
  split; [exact Hb |]. split.
  - rewrite get_of_list_inside in Hnz by exact Hb.
    assert (0 <= nth bpos b 0 < p)
      by (apply (proj1 (Forall_forall _ b) b_reduced), nth_In, Hb).
    assert (nth bpos b 0 <> 0) by congruence. lia.
  - intros t Ht. specialize (Hz t Ht).
    rewrite get_of_list_inside in Hz by lia. congruence.
Qed.

Lemma divisor_value (X : Z) : peval (firstn (S bpos) b) X = peval b X.
Proof.
  apply peval_firstn_tail. intros t Ht.
  apply (proj2 (proj2 b_top_spec)). lia.
Qed.

(** One turn of the outer loop: the multiple [quot * X^diff * b] is taken
    from the running dividend. *)
Lemma divPolys_inner (A : array) (d : nat) (x iy : Z) :
  (d < count)%nat ->
  length A = length a ->
  (forall t, (t < length a)%nat -> get A t <> None) ->
  (forall t, (bpos + d < t < length a)%nat -> get A t = Some 0) ->
  get A (bpos + d) = Some x ->
  (nth bpos b 0 * iy) mod p = 1 ->
  exists A',
    for_down (S bpos)
      (fun i a0 =>
         ai <- rd a0 (d + i) ;;
         bi <- rd (of_list b) i ;;
         Ok (set a0 (d + i) (mod_ p (ai - bi * mul p x iy))))
      A = Ok A' /\
    length A' = length a /\
    (forall t, (t < length a)%nat -> get A' t <> None) /\
    (forall t, (bpos + d <= t < length a)%nat -> get A' t = Some 0) /\
    forall X, peval (coefficients A') X mod p =
              (peval (coefficients A) X
               - mul p x iy * X ^ Z.of_nat d * peval b X) mod p.
Proof.
  intros Hd Hl Hfill Hz Hx Hi.
  destruct a_top_spec as (Ha & _). destruct b_top_spec as (Hb & Hy & _).
  set (quot := mul p x iy).
  for_down_with (fun (i : nat) (A' : array) =>
    length A' = length a /\
    (forall t, (t < length a)%nat -> get A' t <> None) /\
    (forall t, (bpos + d < t < length a)%nat -> get A' t = Some 0) /\
    ((bpos < i)%nat -> get A' (bpos + d) = Some x) /\
    ((i <= bpos)%nat -> get A' (bpos + d) = Some 0) /\
    forall X, peval (coefficients A') X mod p =
              (peval (coefficients A) X
               - quot * X ^ Z.of_nat d
                 * (peval (firstn (S bpos) b) X - peval (firstn i b) X))
              mod p).
  - split; [exact Hl |]. split; [exact Hfill |]. split; [exact Hz |].
    split; [intros _; exact Hx |]. split; [intros H; lia |].
    intros X. f_equal. ring.
  - intros i A' Hi' (Rl & Rfill & Rz & Rx & R0 & Rval).
    unfold count in Hd.
    destruct (get A' (d + i)) as [ai |] eqn:Eai;
      [| exfalso; apply (Rfill (d + i)%nat); [lia | exact Eai]].
    rewrite (rd_Some _ _ _ Eai), rd_of_list by lia. cbn [bind].
    eexists. split; [reflexivity |].
    split; [rewrite length_set by lia; exact Rl |].
    split; [| split; [| split; [| split]]].
    + intros t Ht. destruct (Nat.eq_dec t (d + i)) as [-> | Hne].
      * rewrite get_set_same. discriminate.
      * rewrite get_set_other by lia. apply Rfill, Ht.
    + intros t Ht. rewrite get_set_other by lia. apply Rz, Ht.
    + intros H. lia.
    + intros _. destruct (Nat.eq_dec i bpos) as [-> | Hne].
      * replace (d + bpos)%nat with (bpos + d)%nat in * by lia.
        rewrite get_set_same. f_equal.
        rewrite Rx in Eai by lia. injection Eai as <-.
        rewrite mod_spec by exact p_pos. unfold quot.
        rewrite mul_spec by exact p_pos.
        rewrite Zminus_mod, Z.mul_mod_idemp_r by lia.
        replace (nth bpos b 0 * (x * iy)) with (x * (nth bpos b 0 * iy))
          by ring.
        rewrite <- Z.mul_mod_idemp_r, Hi, Z.mul_1_r, <- Zminus_mod by lia.
        rewrite Z.sub_diag. apply Z.mod_0_l. lia.
      * rewrite get_set_other by lia. apply R0. lia.
    + intros X. rewrite peval_set by lia.
      rewrite (coefficient_at _ _ _ Eai).
      rewrite mod_spec by exact p_pos.
      set (bq := nth i b 0 * quot).
      assert (((ai - bq) mod p - ai) mod p = (- bq) mod p) as Hdiff.
      { rewrite Zminus_mod_idemp_l. f_equal. ring. }
      rewrite Z.add_mod, (Z.mul_mod (_ - ai)), Hdiff, <- Z.mul_mod,
        Rval, <- Z.add_mod by lia.
      rewrite (peval_firstn_succ b i X) by lia.
      f_equal. unfold bq. rewrite Nat2Z.inj_add, Z.pow_add_r by lia. ring.
  - destruct H as (Rl & Rfill & Rz & _ & R0 & Rval).
    eexists. split; [reflexivity |].
    split; [exact Rl |]. split; [exact Rfill |]. split.
    + intros t Ht. destruct (Nat.eq_dec t (bpos + d)) as [-> | Hne].
      * apply R0. lia.
      * apply Rz. lia.
    + intros X. rewrite Rval, divisor_value. cbn [firstn peval].
      f_equal. ring.
Qed.

Lemma divPolys_slots :
  (length b <= length a)%nat ->
  exists Q A,
    divPolys p (of_list a) (of_list b) = Ok Q /\
    length Q = count /\
    (forall t, (t < count)%nat -> exists v, get Q t = Some v /\ 0 <= v < p) /\
    length A = length a /\
    (forall t, (bpos <= t < length a)%nat -> get A t = Some 0) /\
    forall X, peval a X mod p =
              (peval (coefficients Q) X * peval b X
               + peval (coefficients A) X) mod p.
Proof.
  intros Hlen.
  destruct a_top_spec as (Ha & Haz). destruct b_top_spec as (Hb & Hy & Hbz).
  unfold divPolys. rewrite !length_of_list, a_top, b_top.
  destruct (Nat.ltb_spec (length a) (length b)) as [H | _]; [lia |].
  destruct (Nat.ltb_spec (apos + 1) bpos) as [H | _]; [lia |].
  fold count.
  destruct (inv_unit p (nth bpos b 0) p_prime) as (iy & Ei & Ri & Hi).
  { rewrite Z.mod_small; lia. }
  for_down_with (fun (d : nat) (s : array * array) =>
    length (fst s) = length a /\
    (forall t, (t < length a)%nat -> get (fst s) t <> None) /\
    (forall t, (bpos + d <= t < length a)%nat -> get (fst s) t = Some 0) /\
    length (snd s) = count /\
    (forall t, (t < d)%nat -> get (snd s) t = None) /\
    (forall t, (d <= t < count)%nat ->
       exists v, get (snd s) t = Some v /\ 0 <= v < p) /\
    forall X, peval a X mod p =
              (peval (coefficients (snd s)) X * peval b X
               + peval (coefficients (fst s)) X) mod p).
  - cbn [fst snd]. split; [apply length_of_list |].
    split; [| split; [| split; [| split; [| split]]]].
    + intros t Ht. rewrite get_of_list_inside by exact Ht. discriminate.
    + intros t Ht. apply Haz. unfold count in Ht. lia.
    + apply length_new_Array.
    + intros t Ht. apply get_new_Array.
    + intros t Ht. lia.
    + intros X. rewrite coefficients_new_Array, coefficients_of_list.
      f_equal; ring.
  - intros d s Hd (Sl & Sfill & Sz & Ql & Qhole & Qdone & Sval).
    rewrite rd_of_list by exact Hb. cbn [bind]. rewrite Ei. cbn [bind].
    assert (bpos + d < length a)%nat as Hin by (unfold count in Hd; lia).
    destruct (get (fst s) (bpos + d)) as [x |] eqn:Ex;
      [| exfalso; apply (Sfill (bpos + d)%nat); [exact Hin | exact Ex]].
    rewrite (rd_Some _ _ _ Ex). cbn [bind].
    destruct (divPolys_inner (fst s) d x iy Hd Sl Sfill) as
      (A' & EA & Al & Afill & Az & Aval); try assumption.
    { intros t Ht. apply Sz. lia. }
    rewrite EA. cbn [bind].
    eexists. split; [reflexivity |]. cbn [fst snd].
    split; [exact Al |]. split; [exact Afill |]. split; [exact Az |].
    split; [rewrite length_set by lia; exact Ql |].
    split; [| split].
    + intros t Ht. rewrite get_set_other by lia. apply Qhole. lia.
    + intros t Ht. destruct (Nat.eq_dec t d) as [-> | Hne].
      * rewrite get_set_same. eexists. split; [reflexivity |].
        apply mod_range, p_pos.
      * rewrite get_set_other by lia. apply Qdone. lia.
    + intros X. rewrite peval_set by lia.
      rewrite nth_coefficients, (Qhole d) by lia.
      rewrite Sval.
      rewrite (Z.add_mod (_ * peval b X) (peval (coefficients A') X)),
        Aval, <- Z.add_mod by lia.
      f_equal. ring.
  - destruct H as (Sl & _ & Sz & Ql & _ & Qdone & Sval). cbn [fst snd] in *.
    exists (snd s), (fst s). split; [reflexivity |].
    split; [exact Ql |]. split; [intros t Ht; apply Qdone; lia |].
    split; [exact Sl |]. split; [| exact Sval].
    intros t Ht. apply Sz. lia.
Qed.

End Division.

(** [divPolys] is the division with remainder.  For a prime modulus, a
    dividend [a] of degree [apos] and a divisor [b] of degree
    [bpos <= apos] with reduced coefficients, no longer than [a], it
    returns the quotient [q], of [apos - bpos + 1] reduced coefficients:
    there is a remainder [r] of degree below [bpos] with
    [a = q * b + r] at every point. *)
Theorem divPolys_division (p : Z) (a b : list Z) (apos bpos : nat) :
  Z.prime p ->
  Forall (fun z => 0 <= z < p) b ->
  lastNonZeroIndex (of_list a) = Some apos ->
  lastNonZeroIndex (of_list b) = Some bpos ->
  (bpos <= apos)%nat ->
  (length b <= length a)%nat ->
  exists q r,
    divPolys p (of_list a) (of_list b) = Ok (of_list q) /\
    length q = (apos - bpos + 1)%nat /\
    Forall (fun z => 0 <= z < p) q /\
    length r = length a /\
    (forall t, (bpos <= t)%nat -> nth t r 0 = 0) /\
    forall X, peval a X mod p = (peval q X * peval b X + peval r X) mod p.
Proof.
  intros Hp Hb Ha_top Hb_top Hdeg Hlen.
  destruct (divPolys_slots p Hp a b Hb apos bpos Ha_top Hb_top Hdeg Hlen)
    as (Q & A & E & Ql & Qs & Al & Az & Hval).
  destruct (arr_filled Q (fun _ v => 0 <= v < p)) as (q & -> & Hlq & Hq).
  { rewrite Ql. exact Qs. }
  rewrite coefficients_of_list in Hval.
  exists q, (coefficients A).
  split; [exact E |].
  split; [rewrite Hlq, Ql; lia |].
  split; [apply Forall_of_nth; intros j Hj; apply Hq; congruence |].
  split; [unfold coefficients; rewrite length_map; exact Al |].
  split; [| exact Hval].
  intros t Ht. destruct (Nat.lt_ge_cases t (length a)) as [Hlt | Hge].
  - apply coefficient_at, Az. lia.
  - apply nth_overflow. unfold coefficients. rewrite length_map. lia.
Qed.

Lemma divPolys_division_witness :
  exists q r,
    divPolys 7 (of_list [6; 5; 1]) (of_list [2; 1]) = Ok (of_list q) /\
    length q = (2 - 1 + 1)%nat /\
    Forall (fun z => 0 <= z < 7) q /\
    length r = length [6; 5; 1] /\
    (forall t, (1 <= t)%nat -> nth t r 0 = 0) /\
    forall X, peval [6; 5; 1] X mod 7
              = (peval q X * peval [2; 1] X + peval r X) mod 7.
Proof.
  apply (divPolys_division 7 [6; 5; 1] [2; 1] 2 1).
  - apply primeb_sound. vm_compute. reflexivity.
  - repeat constructor; lia.
  - reflexivity.
  - reflexivity.
  - lia.
  - simpl. lia.
Defined.

(** ** Interpolation of a batch of cubics *)

Lemma peval_cubic (u v w X : Z) :
  peval (cubic u v w) X = (X - u) * (X - v) * (X - w).
Proof. cbn [cubic peval]. ring. Qed.

Lemma evalPolyAt_four (p a0 a1 a2 a3 x : Z) :
  1 < p ->
  evalPolyAt p (of_list [a0; a1; a2; a3]) x =
    Ok (Some (peval [a0; a1; a2; a3] x mod p)).
Proof. intros Hp. apply evalPolyAt_horner; [exact Hp | discriminate]. Qed.

Lemma quad_index (t : nat) :
  t = (t / 4 * 4 + t mod 4)%nat /\ (t mod 4 < 4)%nat.
Proof.
  pose proof (Nat.div_mod_eq t 4). pose proof (Nat.mod_upper_bound t 4).
  lia.
Qed.

Lemma quad_div (i k : nat) : (k < 4)%nat -> ((i * 4 + k) / 4 = i)%nat.
Proof.
  intros Hk. rewrite Nat.add_comm, Nat.div_add, Nat.div_small by lia. lia.
Qed.

Lemma quad_mod (i k : nat) : (k < 4)%nat -> ((i * 4 + k) mod 4 = k)%nat.
Proof.
  intros Hk. rewrite Nat.add_comm, Nat.Div0.mod_add, Nat.mod_small by lia.
  reflexivity.
Qed.

Section QuarticBatch.

Variable p : Z.
Hypothesis p_prime : Z.prime p.
Variables xss yss : list (list Z).
Hypothesis same_number : length yss = length xss.
Hypothesis xs_four : forall r, In r xss -> length r = 4%nat.
Hypothesis xs_distinct : forall r, In r xss -> NoDup r.
Hypothesis xs_reduced : forall r, In r xss -> Forall (fun x => 0 <= x < p) r.
Hypothesis ys_four : forall r, In r yss -> length r = 4%nat.

Let p_gt_1 : 1 < p := prime_gt_1 p p_prime.
Let p_pos : 0 < p := Z.lt_trans 0 1 p Z.lt_0_1 p_gt_1.
Let n : nat := length xss.

(** The numerator of the point [k] of the set [i]. *)
Let eqs (i k : nat) : list Z :=
  match k with
  | 0%nat => cubic (entry xss i 1) (entry xss i 2) (entry xss i 3)
  | 1%nat => cubic (entry xss i 0) (entry xss i 2) (entry xss i 3)
  | 2%nat => cubic (entry xss i 0) (entry xss i 1) (entry xss i 3)
  | _ => cubic (entry xss i 0) (entry xss i 1) (entry xss i 2)
  end.

Let den (i k : nat) : Z := peval (eqs i k) (entry xss i k) mod p.

Lemma x_reduced (i k : nat) :
  (i < n)%nat -> (k < 4)%nat -> 0 <= entry xss i k < p.
Proof.
  intros Hi Hk. pose proof (nth_In xss [] Hi) as Hin.
  apply (proj1 (Forall_forall _ _) (xs_reduced _ Hin)).
  apply nth_In. rewrite (xs_four _ Hin). exact Hk.
Qed.

Lemma x_distinct (i k m : nat) :
  (i < n)%nat -> (k < 4)%nat -> (m < 4)%nat -> k <> m ->
  (entry xss i k - entry xss i m) mod p <> 0.
Proof.
  intros Hi Hk Hm Hne. pose proof (nth_In xss [] Hi) as Hin.
  apply (distinct_residues p p_prime); try (apply x_reduced; assumption).
  intros E. apply Hne. symmetry.
  apply (proj1 (NoDup_nth (nth i xss []) 0) (xs_distinct _ Hin));
    rewrite ?(xs_four _ Hin); assumption.
Qed.

Lemma den_nonzero (i k : nat) :
  (i < n)%nat -> (k < 4)%nat -> 0 < den i k < p.
Proof.
  intros Hi Hk. unfold den.
  pose proof (Z.mod_pos_bound (peval (eqs i k) (entry xss i k)) p p_pos).
  assert (peval (eqs i k) (entry xss i k) mod p <> 0); [| lia].
  destruct k as [| [| [| [| k]]]]; [| | | | lia]; cbv beta iota delta [eqs];
    rewrite peval_cubic;
    repeat apply (prime_mul_nonzero p p_prime);
    apply x_distinct; (exact Hi || lia).
Qed.

Lemma first_pass :
  exists s,
    for_up n 0
      (fun i (s : arr (option array * array * array * array * array)
                  * array) =>
         xs <- row (of_rows xss) i ;;
         let ys := get (of_rows yss) i in
         x0 <- rd xs 0 ;;
         x1 <- rd xs 1 ;;
         x2 <- rd xs 2 ;;
         x3 <- rd xs 3 ;;
         let x01 := x0 * x1 in
         let x02 := x0 * x2 in
         let x03 := x0 * x3 in
         let x12 := x1 * x2 in
         let x13 := x1 * x3 in
         let x23 := x2 * x3 in
         let eq0 :=
           of_list [- x12 * x3; x12 + x13 + x23; - x1 - x2 - x3; 1] in
         let eq1 :=
           of_list [- x02 * x3; x02 + x03 + x23; - x0 - x2 - x3; 1] in
         let eq2 :=
           of_list [- x01 * x3; x01 + x03 + x13; - x0 - x1 - x3; 1] in
         let eq3 :=
           of_list [- x01 * x2; x01 + x02 + x12; - x0 - x1 - x2; 1] in
         e0 <- evalPolyAt p eq0 x0 ;;
         e1 <- evalPolyAt p eq1 x1 ;;
         e2 <- evalPolyAt p eq2 x2 ;;
         e3 <- evalPolyAt p eq3 x3 ;;
         let inverseTargets := set_slot (snd s) (i * 4 + 0) e0 in
         let inverseTargets := set_slot inverseTargets (i * 4 + 1) e1 in
         let inverseTargets := set_slot inverseTargets (i * 4 + 2) e2 in
         let inverseTargets := set_slot inverseTargets (i * 4 + 3) e3 in
         Ok (set (fst s) i (ys, eq0, eq1, eq2, eq3), inverseTargets))
      (new_Array n, new_Array (n * 4)) = Ok s /\
    length (fst s) = n /\
    (forall i, (i < n)%nat ->
       get (fst s) i =
         Some (Some (of_list (nth i yss [])),
               of_list (eqs i 0), of_list (eqs i 1),
               of_list (eqs i 2), of_list (eqs i 3))) /\
    snd s = of_list (map (fun t => den (t / 4) (t mod 4)) (seq 0 (n * 4))).
Proof.
  for_up_with (fun (i : nat)
                   (s : arr (option array * array * array * array * array)
                        * array) =>
    length (fst s) = n /\
    length (snd s) = (n * 4)%nat /\
    (forall i', (i' < i)%nat ->
       get (fst s) i' =
         Some (Some (of_list (nth i' yss [])),
               of_list (eqs i' 0), of_list (eqs i' 1),
               of_list (eqs i' 2), of_list (eqs i' 3))) /\
    forall i' k, (i' < i)%nat -> (k < 4)%nat ->
      get (snd s) (i' * 4 + k) = Some (den i' k)).
  - cbn [fst snd]. rewrite !length_new_Array.
    split; [reflexivity |]. split; [reflexivity |].
    split; intros; lia.
  - intros i s Hi (Dl & Tl & Dg & Tg). cbn [Nat.add] in Hi.
    pose proof (nth_In xss [] (proj2 Hi)) as Hin.
    rewrite row_of_rows by (fold n; lia). cbn [bind].
    rewrite !rd_entry by (rewrite (xs_four _ Hin); lia). cbn [bind].
    cbv zeta. rewrite !evalPolyAt_four by exact p_gt_1. cbn [bind].
    eexists. split; [reflexivity |]. cbn [fst snd].
    split; [rewrite length_set by lia; exact Dl |].
    split; [rewrite !length_set_slot, Tl; lia |].
    split.
    + intros i' Hi'. destruct (Nat.eq_dec i' i) as [-> | Hne].
      * rewrite get_set_same. unfold of_rows.
        rewrite get_of_list, nth_error_map,
          (nth_error_nth' yss []) by (rewrite same_number; fold n; lia).
        reflexivity.
      * rewrite get_set_other by lia. apply Dg. lia.
    + intros i' k Hi' Hk. destruct (Nat.eq_dec i' i) as [-> | Hne].
      * destruct k as [| [| [| [| k]]]]; [| | | | lia];
          rewrite ?get_set_slot_other by lia;
          rewrite get_set_slot_same; reflexivity.
      * rewrite !get_set_slot_other by lia. apply Tg; lia.
  - destruct H as (Dl & Tl & Dg & Tg). cbn [Nat.add] in Dg, Tg.
    exists s. split; [reflexivity |]. split; [exact Dl |].
    split; [exact Dg |].
    rewrite (arr_of_values (snd s) (fun t => den (t / 4) (t mod 4))).
    + rewrite Tl. reflexivity.
    + intros t Ht. rewrite Tl in Ht.
      destruct (quad_index t) as [Et Hm]. rewrite Et at 1.
      apply Tg; [| exact Hm].
      apply Nat.Div0.div_lt_upper_bound. lia.
Qed.

(** The coefficient of degree [c] of the [i]-th result, before its
    reduction, from the scaled ordinates [Y0], ..., [Y3]. *)
Let mix (i c : nat) (Y0 Y1 Y2 Y3 : Z) : Z :=
  nth c (eqs i 0) 0 * Y0 + nth c (eqs i 1) 0 * Y1
  + nth c (eqs i 2) 0 * Y2 + nth c (eqs i 3) 0 * Y3.

Lemma mix_value (i : nat) (Y0 Y1 Y2 Y3 X : Z) :
  peval [mix i 0 Y0 Y1 Y2 Y3; mix i 1 Y0 Y1 Y2 Y3;
         mix i 2 Y0 Y1 Y2 Y3; mix i 3 Y0 Y1 Y2 Y3] X =
  Y0 * peval (eqs i 0) X + Y1 * peval (eqs i 1) X
  + Y2 * peval (eqs i 2) X + Y3 * peval (eqs i 3) X.
Proof. cbv beta iota delta [mix eqs cubic nth peval]. ring. Qed.

Lemma mix_at_point (i k : nat) (y0 y1 y2 y3 v0 v1 v2 v3 : Z) :
  (k < 4)%nat ->
  (den i 0 * v0) mod p = 1 -> (den i 1 * v1) mod p = 1 ->
  (den i 2 * v2) mod p = 1 -> (den i 3 * v3) mod p = 1 ->
  peval [mix i 0 (y0 * v0) (y1 * v1) (y2 * v2) (y3 * v3);
         mix i 1 (y0 * v0) (y1 * v1) (y2 * v2) (y3 * v3);
         mix i 2 (y0 * v0) (y1 * v1) (y2 * v2) (y3 * v3);
         mix i 3 (y0 * v0) (y1 * v1) (y2 * v2) (y3 * v3)]
    (entry xss i k) mod p =
  nth k [y0; y1; y2; y3] 0 mod p.
Proof.
  intros Hk H0 H1 H2 H3. rewrite mix_value.
  unfold den in H0, H1, H2, H3.
  rewrite Z.mul_mod_idemp_l in H0, H1, H2, H3 by lia.
  destruct k as [| [| [| [| k]]]]; [| | | | lia]; cbn [nth].
  - replace (_ + _ + _ + _)
      with (y0 * (peval (eqs i 0) (entry xss i 0) * v0))
      by (cbv beta iota delta [eqs]; rewrite !peval_cubic; ring).
    rewrite <- Z.mul_mod_idemp_r, H0, Z.mul_1_r by lia. reflexivity.
  - replace (_ + _ + _ + _)
      with (y1 * (peval (eqs i 1) (entry xss i 1) * v1))
      by (cbv beta iota delta [eqs]; rewrite !peval_cubic; ring).
    rewrite <- Z.mul_mod_idemp_r, H1, Z.mul_1_r by lia. reflexivity.
  - replace (_ + _ + _ + _)
      with (y2 * (peval (eqs i 2) (entry xss i 2) * v2))
      by (cbv beta iota delta [eqs]; rewrite !peval_cubic; ring).
    rewrite <- Z.mul_mod_idemp_r, H2, Z.mul_1_r by lia. reflexivity.
  - replace (_ + _ + _ + _)
      with (y3 * (peval (eqs i 3) (entry xss i 3) * v3))
      by (cbv beta iota delta [eqs]; rewrite !peval_cubic; ring).
    rewrite <- Z.mul_mod_idemp_r, H3, Z.mul_1_r by lia. reflexivity.
Qed.

Lemma eqs_read (i k c : nat) :
  (c < 4)%nat -> rd (of_list (eqs i k)) c = Ok (nth c (eqs i k) 0).
Proof.
  intros Hc. apply rd_of_list.
  destruct k as [| [| [| k]]]; exact Hc.
Qed.

Lemma interpolateQuarticBatch_rows :
  exists w,
    interpolateQuarticBatch p (of_rows xss) (of_rows yss) = Ok (of_rows w) /\
    length w = n /\
    forall i, (i < n)%nat ->
      length (nth i w []) = 4%nat /\
      forall k, (k < 4)%nat ->
        evalPolyAt p (of_list (nth i w [])) (entry xss i k) =
          Ok (Some (entry yss i k mod p)).
Proof.
  unfold interpolateQuarticBatch. cbv zeta. rewrite length_of_rows. fold n.
  destruct first_pass as (s & E & Dl & Dg & Ts).
  match goal with
  | |- context [for_up ?c ?lo ?body ?init] =>
      replace (for_up c lo body init) with (Ok s) by (symmetry; exact E)
  end.
  cbn [bind]. rewrite Ts. clear E.
  set (T := map (fun t => den (t / 4) (t mod 4)) (seq 0 (n * 4))).
  assert (length T = (n * 4)%nat) as Tl
    by (unfold T; rewrite length_map, length_seq; reflexivity).
  assert (forall i k, (i < n)%nat -> (k < 4)%nat ->
            nth (i * 4 + k) T 0 = den i k) as Tn.
  { intros i k Hi Hk. unfold T. rewrite nth_map_seq by lia.
    rewrite quad_div, quad_mod by exact Hk. reflexivity. }
  destruct (invVectorElements_slots p p_prime T) as (out & -> & Ol & Os).
  { apply Forall_of_nth. intros j Hj. unfold T.
    rewrite nth_map_seq by lia. apply Z.mod_pos_bound, p_pos. }
  cbn [bind]. rewrite Dl.
  set (v := fun i k => nth (i * 4 + k) (coefficients out) 0).
  assert (forall i k, (i < n)%nat -> (k < 4)%nat ->
            get out (i * 4 + k) = Some (v i k) /\
            (den i k * v i k) mod p = 1) as Hv.
  { intros i k Hi Hk.
    destruct (Os (i * 4 + k)%nat) as (w & E & Hw); [lia |].
    unfold v. rewrite (coefficient_at _ _ _ E). split; [exact E |].
    rewrite Tn in Hw by assumption.
    pose proof (den_nonzero i k Hi Hk).
    destruct Hw as [[Hz _] | [_ Hw]]; [lia | exact Hw]. }
  set (g := fun i =>
              map (fun c => mod_ p (mix i c (entry yss i 0 * v i 0%nat)
                                      (entry yss i 1 * v i 1%nat)
                                      (entry yss i 2 * v i 2%nat)
                                      (entry yss i 3 * v i 3%nat)))
                (seq 0 4)).
  exists (map g (seq 0 n)).
  split; [| split].
  - rewrite <- of_rows_map. apply for_up_fill. intros i result Hi.
    rewrite Dg by exact Hi. cbv beta iota.
    assert (In (nth i yss []) yss) as Hin
      by (apply nth_In; rewrite same_number; exact Hi).
    rewrite !rd_entry by (rewrite (ys_four _ Hin); lia).
    destruct (Hv i 0%nat Hi ltac:(lia)) as [E0 _].
    destruct (Hv i 1%nat Hi ltac:(lia)) as [E1 _].
    destruct (Hv i 2%nat Hi ltac:(lia)) as [E2 _].
    destruct (Hv i 3%nat Hi ltac:(lia)) as [E3 _].
    rewrite (rd_Some _ _ _ E0), (rd_Some _ _ _ E1), (rd_Some _ _ _ E2),
      (rd_Some _ _ _ E3).
    rewrite !eqs_read by lia. rewrite !bind_ret.
    unfold g. cbn [seq map]. reflexivity.
  - rewrite length_map, length_seq. reflexivity.
  - intros i Hi.
    assert (nth i (map g (seq 0 n)) [] = g i) as ->.
    { pose proof (map_nth g (seq 0 n) 0%nat i) as M.
      rewrite seq_nth in M by exact Hi.
      rewrite (nth_indep _ [] (g 0%nat))
        by (rewrite length_map, length_seq; exact Hi).
      exact M. }
    split; [reflexivity |].
    intros k Hk. unfold g. cbn [seq map].
    rewrite evalPolyAt_four by exact p_gt_1. do 2 f_equal.
    rewrite !mod_spec by exact p_pos.
    etransitivity;
      [apply (peval_map_mod p [_; _; _; _] (entry xss i k) p_pos) |].
    rewrite (mix_at_point i k) by
      (try exact Hk; apply Hv; (exact Hi || lia)).
    destruct k as [| [| [| [| k]]]]; [| | | | lia]; reflexivity.
Qed.

End QuarticBatch.

(** [interpolateQuarticBatch] interpolates every set of the batch.  For a
    prime modulus, as many sets of ordinates as sets of abscissas, and in
    every set four field elements, the abscissas pairwise distinct, the
    [i]-th result is a polynomial of four reduced coefficients that takes
    the ordinate [ySets[i][k]] at the abscissa [xSets[i][k]], for each
    of the four [k]. *)
Theorem interpolateQuarticBatch_spec (p : Z) (xss yss : list (list Z)) :
  Z.prime p ->
  length yss = length xss ->
  (forall r, In r xss ->
     length r = 4%nat /\ NoDup r /\ Forall (fun x => 0 <= x < p) r) ->
  (forall r, In r yss ->
     length r = 4%nat /\ Forall (fun y => 0 <= y < p) r) ->
  exists w,
    interpolateQuarticBatch p (of_rows xss) (of_rows yss) = Ok (of_rows w) /\
    length w = length xss /\
    forall i, (i < length xss)%nat ->
      length (nth i w []) = 4%nat /\
      forall k, (k < 4)%nat ->
        evalPolyAt p (of_list (nth i w [])) (entry xss i k) =
          Ok (Some (entry yss i k)).
Proof.
  intros Hp Hn Hx Hy.
  destruct (interpolateQuarticBatch_rows p Hp xss yss Hn)
    as (w & E & Hl & Hw); try (intros r Hr; apply (Hx r Hr));
    try (intros r Hr; apply (Hy r Hr)).
  exists w. split; [exact E |]. split; [exact Hl |].
  intros i Hi. destruct (Hw i Hi) as [H4 Hv]. split; [exact H4 |].
  intros k Hk. rewrite (Hv k Hk). do 2 f_equal.
  apply Z.mod_small.
  assert (In (nth i yss []) yss) as Hin
    by (apply nth_In; rewrite Hn; exact Hi).
  destruct (Hy _ Hin) as [Hlen Hred].
  apply (proj1 (Forall_forall _ _) Hred), nth_In.
  rewrite Hlen. exact Hk.
Qed.

Lemma interpolateQuarticBatch_spec_witness :
  exists w,
    interpolateQuarticBatch 17 (of_rows [[1; 2; 3; 4]; [5; 6; 7; 8]])
      (of_rows [[10; 11; 3; 4]; [0; 1; 2; 3]]) = Ok (of_rows w) /\
    length w = length [[1; 2; 3; 4]; [5; 6; 7; 8]] /\
    forall i, (i < length [[1; 2; 3; 4]; [5; 6; 7; 8]]%Z)%nat ->
      length (nth i w []) = 4%nat /\
      forall k, (k < 4)%nat ->
        evalPolyAt 17 (of_list (nth i w []))
          (entry [[1; 2; 3; 4]; [5; 6; 7; 8]] i k) =
          Ok (Some (entry [[10; 11; 3; 4]; [0; 1; 2; 3]] i k)).
Proof.
  apply (interpolateQuarticBatch_spec 17 [[1; 2; 3; 4]; [5; 6; 7; 8]]
           [[10; 11; 3; 4]; [0; 1; 2; 3]]).
  - apply primeb_sound. vm_compute. reflexivity.
  - reflexivity.
  - intros r [<- | [<- | []]];
      (split; [reflexivity |]);
      (split; [repeat constructor; simpl; lia | repeat constructor; lia]).
  - intros r [<- | [<- | []]];
      (split; [reflexivity | repeat constructor; lia]).
Defined.

(** ** The fast transform and the evaluation at a point *)

Lemma sumto_extend (f : nat -> Z) (l : nat) : forall n,
  (l <= n)%nat -> (forall j, (l <= j < n)%nat -> f j = 0) ->
  sumto f n = sumto f l.
Proof.
  induction n as [| n IH]; intros Hl Hz.
  - assert (l = 0%nat) by lia. subst l. reflexivity.
  - destruct (Nat.eq_dec l (S n)) as [-> | Hne]; [reflexivity |].
    cbn [sumto]. rewrite IH, Hz by (try lia; intros j Hj; apply Hz; lia).
    ring.
Qed.

Lemma peval_as_sum (c : list Z) (X : Z) :
  peval c X = sumto (fun j => nth j c 0 * X ^ Z.of_nat j) (length c).
Proof.
  induction c as [| z c IH] using rev_ind; [reflexivity |].
  rewrite peval_app, length_app, Nat.add_comm. cbn [length Nat.add sumto peval].
  rewrite app_nth2, Nat.sub_diag, IH by lia. cbn [nth].
  rewrite (sumto_ext (fun j => nth j (c ++ [z]) 0 * X ^ Z.of_nat j)
             (fun j => nth j c 0 * X ^ Z.of_nat j)).
  - ring.
  - intros j Hj. rewrite app_nth1 by exact Hj. reflexivity.
Qed.

(** The fast transform agrees with the evaluation point by point: for a
    prime modulus, a primitive root of unity [w] of order [n = 2^m >= 4]
    and a polynomial [q] of at most [n] reduced coefficients,
    [evalPolyAtRoots] over the power cycle of [w] returns [n] values, the
    [i]-th of which is what [evalPolyAt] returns at the [i]-th root. *)
Theorem evalPolyAtRoots_pointwise (p w : Z) (m : nat) (q : list Z) :
  Z.prime p -> (2 <= m)%nat -> 0 <= w < p ->
  w ^ Z.of_nat (2 ^ m) mod p = 1 ->
  w ^ Z.of_nat (2 ^ m / 2) mod p <> 1 ->
  (length q <= 2 ^ m)%nat -> Forall (fun c => 0 <= c < p) q ->
  exists ys,
    getPowerCycle p w = Ok (of_list (powers p w (2 ^ m))) /\
    evalPolyAtRoots p (of_list q) (of_list (powers p w (2 ^ m)))
      = Ok (of_list ys) /\
    length ys = (2 ^ m)%nat /\
    forall i, (i < 2 ^ m)%nat ->
      evalPolyAt p (of_list q) (nth i (powers p w (2 ^ m)) 0)
        = Ok (Some (nth i ys 0)).
Proof.
  intros Hp Hm Hw H1 H2 Hlen Hq.
  assert (0 < m)%nat as Hm0 by lia.
  pose proof (prime_gt_1 p Hp) as Hp1.
  set (vs := q ++ repeat 0 (2 ^ m - length q)).
  assert (length vs = (2 ^ m)%nat) as Hvs
    by (apply padded_length; exact Hlen).
  eexists. split; [| split; [| split]].
  - exact (getPowerCycle_spec p Hp w m Hm0 H1 H2 Hw).
  - exact (evalPolyAtRoots_spec p Hp w m Hm0 H1 H2 vs Hvs Hm q Hlen eq_refl).
  - rewrite length_map, length_seq. reflexivity.
  - intros i Hi.
    rewrite evalPolyAt_spec, nth_map_seq, nth_powers by assumption.
    do 2 f_equal.
    rewrite <- (peval_pad q (2 ^ m - length q)). fold vs.
    rewrite peval_as_sum, Hvs. unfold dft.
    apply sumto_ext_mod; [lia |]. intros j Hj.
    replace (0 + j * 2 ^ 0)%nat with j by (simpl; lia).
    apply mod_mul_congr; [lia |].
    rewrite <- Z.mod_pow_l, Z.mod_mod, Z.mod_pow_l, <- pow_nat_mul by lia.
    do 2 f_equal. simpl. lia.
Qed.

Lemma evalPolyAtRoots_pointwise_witness :
  exists ys,
    getPowerCycle 17 4 = Ok (of_list (powers 17 4 (2 ^ 2))) /\
    evalPolyAtRoots 17 (of_list [3; 5; 7]) (of_list (powers 17 4 (2 ^ 2)))
      = Ok (of_list ys) /\
    length ys = (2 ^ 2)%nat /\
    forall i, (i < 2 ^ 2)%nat ->
      evalPolyAt 17 (of_list [3; 5; 7]) (nth i (powers 17 4 (2 ^ 2)) 0)
        = Ok (Some (nth i ys 0)).
Proof.
  apply (evalPolyAtRoots_pointwise 17 4 2 [3; 5; 7]).
  - apply primeb_sound. vm_compute. reflexivity.
  - lia.
  - lia.
  - vm_compute. reflexivity.
  - vm_compute. discriminate.
  - simpl. lia.
  - repeat constructor; lia.
Defined.
